(** * Concurrency and ledger coordination layer of the cafe arcade bot

    A shallow embedding of
      - [src/db/connection.py]   (the [Database] wrapper around one shared
        SQLite connection and its [transaction] context manager),
      - [src/db/repo/economy_repo.py]   ([EconomyRepository]),
      - [src/db/repo/games_repo.py]     ([GamesRepository]),
      - [src/services/leaderboard_publisher.py] (the debounced refresh),
    with the table layout of [src/db/migrations.py].

    Coroutines are modelled in a state-and-exception monad over the state of
    the shared connection; every SQL statement is a function on the tables,
    named after the statement it stands for.  A function of type [io] is a
    call that runs to its end before the next call starts on the
    connection; calls in flight together, which take turns at every
    await, are the tasks of the module [Tasks].
    A balance is a value of a column of INTEGER affinity: a signed 64-bit
    INTEGER, or the REAL that SQLite computes when an addition leaves that
    range; a delta is bound as a signed 64-bit INTEGER or not at all.
    User ids are the ids the users repository hands out, row ids of
    [users]: they are taken to be in the range the store can bind. *)

From stdpp Require Import gmap strings list pretty.
From Stdlib Require Import ZArith Lia.

Open Scope Z_scope.

(** ** Numbers of the store *)

(** The range of an SQLite INTEGER, which is also the range of the Python
    ints that the sqlite3 module binds to a parameter. *)
Definition int64 (z : Z) : Prop := - 2 ^ 63 ≤ z < 2 ^ 63.

#[global] Instance int64_dec z : Decision (int64 z).
Proof. unfold int64. apply _. Defined.

(** The double nearest to an integer, as the integer it equals: what the
    C cast (double)z and Python's float(z) compute, rounding to 53
    significant bits, ties to even.  (From 2^1024 on a double has no
    such value; see [float_of_int].) *)
Definition round_double (z : Z) : Z :=
  let a := Z.abs z in
  let e := Z.log2 a - 52 in
  if bool_decide (e ≤ 0) then z
  else
    let q := Z.shiftr a e in
    let r := Z.land a (Z.ones e) in
    let half := Z.shiftl 1 (e - 1) in
    let q' := if bool_decide (half < r) || (bool_decide (r = half) && Z.odd q)
              then q + 1 else q in
    Z.sgn z * Z.shiftl q' e.

(** float(z) in Python: the nearest double, or OverflowError when that
    would be infinite. *)
Definition float_of_int (z : Z) : option Z :=
  let r := round_double z in
  if bool_decide (Z.abs r < 2 ^ 1024) then Some r else None.

(** balance + ? in SQLite, for a stored balance of value [v] (REAL when
    [real]) and a bound INTEGER [d], followed by the INTEGER affinity of
    the column.  Two INTEGERs are added exactly when the sum is in
    range; otherwise both operands are converted to double and added as
    doubles, and the REAL result is stored as an INTEGER again only when
    it lies strictly between the least and the greatest INTEGER. *)
Definition sql_add (v : Z) (real : bool) (d : Z) : Z * bool :=
  if negb real && bool_decide (int64 (v + d)) then (v + d, false)
  else
    let r := round_double (round_double v + round_double d) in
    (r, negb (bool_decide (- 2 ^ 63 < r < 2 ^ 63))).

(** ** Rows and tables (migrations v1 and v4) *)

(** A row of [bean_accounts]; the primary key [user_id] is the key of the
    map holding the rows.  [balance] is the value of the column, which
    is an integer also when SQLite keeps it as a REAL ([balance_real],
    typeof(balance) = 'real'): a double of that size has no fraction. *)
Record bean_account := BeanAccount {
  balance : Z;
  balance_real : bool;
  acc_created_at : string;
  acc_updated_at : string
}.

(** A row of [bean_transactions]. *)
Record bean_transaction := BeanTransaction {
  tx_id : Z;
  tx_user_id : Z;
  tx_delta : Z;
  tx_reason : string;
  tx_game_key : option string;
  tx_metadata : option string;
  tx_created_at : string
}.

(** A row of [active_game_sessions]; [None] is SQL NULL. *)
Record game_session := GameSession {
  s_id : string;
  s_platform : string;
  s_location_id : string;
  s_thread_id : option string;
  s_game_key : string;
  s_status : string;
  s_state : string;
  s_created_at : string;
  s_updated_at : string;
  s_expires_at : option string
}.

(** The tables the two repositories touch.  [users] holds the ids of the
    rows of [users], which [bean_accounts.user_id] and
    [bean_transactions.user_id] reference; [bean_transactions_seq] is the
    AUTOINCREMENT counter of [bean_transactions]; the session rows are kept
    in rowid (insertion) order. *)
Record tables := Tables {
  users : gset Z;
  bean_accounts : gmap Z bean_account;
  bean_transactions : list bean_transaction;
  bean_transactions_seq : Z;
  active_game_sessions : list game_session
}.

Definition set_bean_accounts (f : gmap Z bean_account → gmap Z bean_account)
    (t : tables) : tables :=
  Tables (users t) (f (bean_accounts t)) (bean_transactions t)
         (bean_transactions_seq t) (active_game_sessions t).

Definition set_active_game_sessions (f : list game_session → list game_session)
    (t : tables) : tables :=
  Tables (users t) (bean_accounts t) (bean_transactions t)
         (bean_transactions_seq t) (f (active_game_sessions t)).

Definition empty_tables : tables := Tables ∅ ∅ [] 0 [].

(** ** The shared connection ([src/db/connection.py]) *)

Inductive exn :=
  | IntegrityError     (* a constraint of the schema failed *)
  | OperationalError   (* BEGIN inside an open transaction *)
  | OverflowError      (* a Python int that the store cannot bind *)
  | StoreError.        (* I/O failure or busy timeout reported by the store *)

Inductive outcome (A : Type) :=
  | Ok (a : A)
  | Raise (e : exn).
Arguments Ok {A} a.
Arguments Raise {A} e.

(** State of the one connection of the process: the committed tables, the
    tables as seen by the transaction that is open on the connection (if
    any), and the script of the store's own failures: the head of [faults]
    tells whether the next statement sent to the store raises. *)
Record conn := Conn {
  disk : tables;
  txn : option tables;
  faults : list bool
}.

Definition io (A : Type) : Type := conn → outcome A * conn.

Definition ret {A} (a : A) : io A := fun c => (Ok a, c).

Definition raise {A} (e : exn) : io A := fun c => (Raise e, c).

Definition bind {A B} (m : io A) (k : A → io B) : io B := fun c =>
  match m c with
  | (Ok a, c1) => k a c1
  | (Raise e, c1) => (Raise e, c1)
  end.

Notation "x <- m ;; k" := (bind m (fun x => k))
  (at level 100, m at next level, right associativity).

Module Database.

(** What a statement run on the connection reads. *)
Definition view (c : conn) : tables := default (disk c) (txn c).

Definition next_fault (c : conn) : bool * conn :=
  match faults c with
  | [] => (false, c)
  | b :: fs => (b, Conn (disk c) (txn c) fs)
  end.

(** [conn.execute] of a SELECT: reads the view, opens no transaction. *)
Definition conn_select {A} (q : tables → A) : io A := fun c =>
  let (b, c1) := next_fault c in
  if b then (Raise StoreError, c1) else (Ok (q (view c1)), c1).

(** A data-modifying statement: new tables and the cursor's rowcount,
    or the exception of a failed constraint. *)
Definition dml : Type := tables → outcome (nat * tables).

(** [conn.execute] of an INSERT or UPDATE.  The sqlite3 module opens a
    transaction before the statement when none is open; a statement that
    raises changes no table and leaves that transaction open. *)
Definition conn_execute (stmt : dml) : io nat := fun c =>
  let c0 := Conn (disk c) (Some (view c)) (faults c) in
  let (b, c1) := next_fault c0 in
  if b then (Raise StoreError, c1)
  else match stmt (view c1) with
       | Ok (n, t) => (Ok n, Conn (disk c1) (Some t) (faults c1))
       | Raise e => (Raise e, c1)
       end.

(** [conn.execute("BEGIN;")]. *)
Definition conn_begin : io unit := fun c =>
  let (b, c1) := next_fault c in
  if b then (Raise StoreError, c1)
  else match txn c1 with
       | Some _ => (Raise OperationalError, c1)
       | None => (Ok tt, Conn (disk c1) (Some (disk c1)) (faults c1))
       end.

Definition conn_commit : io unit := fun c =>
  (Ok tt, Conn (view c) None (faults c)).

Definition conn_rollback : io unit := fun c =>
  (Ok tt, Conn (disk c) None (faults c)).

(** [Database.execute]: the statement, then commit. *)
Definition execute (stmt : dml) : io unit :=
  _ <- conn_execute stmt ;; conn_commit.

(** [Database.fetchone]. *)
Definition fetchone {A} (q : tables → option A) : io (option A) :=
  conn_select q.

(** [Database.transaction]:
    try: BEGIN; yield conn / except Exception: rollback; raise /
    else: commit.  [body] is the block under [async with]; its value is
    what that block returns. *)
Definition transaction {A} (body : io A) : io A := fun c =>
  match (_ <- conn_begin ;; body) c with
  | (Ok a, c1) => (_ <- conn_commit ;; ret a) c1
  | (Raise e, c1) => (_ <- conn_rollback ;; raise e) c1
  end.

(** The connection once [m] has run on it. *)
Definition after {A} (m : io A) (c : conn) : conn := snd (m c).

(** No failure of the store is scheduled. *)
Definition healthy (c : conn) : Prop := Forall (fun b => b = false) (faults c).

(** No transaction is open on the connection. *)
Definition idle (c : conn) : Prop := txn c = None.

End Database.

(** ** The ledger ([src/db/repo/economy_repo.py]) *)

Module EconomyRepository.
Import Database.

(** SELECT balance FROM bean_accounts WHERE user_id = ?, the row read
    with int(row["balance"]), which is exact on a REAL too. *)
Definition select_balance (user_id : Z) (t : tables) : option Z :=
  balance <$> bean_accounts t !! user_id.

(** INSERT OR IGNORE INTO bean_accounts (user_id, balance) VALUES (?, 0).
    A row with that primary key makes the statement skip the insertion;
    otherwise the foreign key to [users] is checked ([PRAGMA foreign_keys
    = ON]), which OR IGNORE does not cover. *)
Definition insert_or_ignore_account (now : string) (user_id : Z) : dml := fun t =>
  match bean_accounts t !! user_id with
  | Some _ => Ok (0%nat, t)
  | None =>
      if decide (user_id ∈ users t)
      then Ok (1%nat,
               set_bean_accounts (insert user_id (BeanAccount 0 false now now)) t)
      else Raise IntegrityError
  end.

(** INSERT INTO bean_transactions (user_id, delta, reason, game_key,
    metadata) VALUES (?, ?, ?, ?, ?).  The parameters are bound before
    the statement runs: a [delta] outside the signed 64-bit range raises
    OverflowError there. *)
Definition insert_transaction (now : string) (user_id delta : Z)
    (reason : string) (game_key metadata : option string) : dml := fun t =>
  if decide (int64 delta) then
    if decide (user_id ∈ users t)
    then
      let i := bean_transactions_seq t + 1 in
      Ok (1%nat,
          Tables (users t) (bean_accounts t)
                 (bean_transactions t ++
                    [BeanTransaction i user_id delta reason game_key metadata now])
                 i (active_game_sessions t))
    else Raise IntegrityError
  else Raise OverflowError.

Definition add_to_balance (now : string) (delta : Z) (a : bean_account) : bean_account :=
  let (v, real) := sql_add (balance a) (balance_real a) delta in
  BeanAccount v real (acc_created_at a) now.

(** UPDATE bean_accounts SET balance = balance + ?, updated_at =
    datetime('now') WHERE user_id = ? *)
Definition update_balance (now : string) (delta user_id : Z) : dml := fun t =>
  if decide (int64 delta) then
    match bean_accounts t !! user_id with
    | Some _ => Ok (1%nat, set_bean_accounts (alter (add_to_balance now delta) user_id) t)
    | None => Ok (0%nat, t)
    end
  else Raise OverflowError.

(** [now] is what datetime('now') evaluates to during the call. *)
Definition get_balance (now : string) (user_id : Z) : io Z :=
  row <- fetchone (select_balance user_id) ;;
  match row with
  | None =>
      _ <- execute (insert_or_ignore_account now user_id) ;;
      ret 0
  | Some b => ret b
  end.

(** The block under [async with self._db.transaction() as conn]. *)
Definition apply_transaction_block (now : string) (user_id delta : Z)
    (reason : string) (game_key metadata : option string) : io Z :=
  _ <- conn_execute (insert_or_ignore_account now user_id) ;;
  _ <- conn_execute (insert_transaction now user_id delta reason game_key metadata) ;;
  _ <- conn_execute (update_balance now delta user_id) ;;
  row <- conn_select (select_balance user_id) ;;
  ret (match row with Some b => b | None => 0 end).

Definition apply_transaction (now : string) (user_id delta : Z)
    (reason : string) (game_key metadata : option string) : io Z :=
  transaction (apply_transaction_block now user_id delta reason game_key metadata).

(** The transaction rows of one account, and the sum of their deltas. *)
Definition rows_of (user_id : Z) (t : tables) : list bean_transaction :=
  filter (fun r => tx_user_id r = user_id) (bean_transactions t).

Definition sum_deltas (l : list bean_transaction) : Z :=
  foldr (fun r acc => tx_delta r + acc) 0 l.

(** The balance of an account; an account without a row holds nothing. *)
Definition balance_of (user_id : Z) (t : tables) : Z :=
  default 0 (select_balance user_id t).

(** The balance of every account row is the sum of the deltas of the
    account's transaction rows. *)
Definition balances_match (t : tables) : Prop :=
  ∀ user_id a, bean_accounts t !! user_id = Some a →
    balance a = sum_deltas (rows_of user_id t).

(** The same, and the transaction rows of a user without an account row
    sum to nothing: the repository writes a transaction row only together
    with the account row, and never deletes an account row.  (On tables
    that hold transaction rows of a user without account row,
    [get_balance] would create the row with balance 0 next to them.) *)
Definition ledger_inv (t : tables) : Prop :=
  ∀ user_id, balance_of user_id t = sum_deltas (rows_of user_id t).

(** The balance of the account is an INTEGER, or the account has no row
    yet. *)
Definition integer_balance (user_id : Z) (t : tables) : Prop :=
  ∀ a, bean_accounts t !! user_id = Some a → balance_real a = false.

Definition integer_balances (t : tables) : Prop :=
  ∀ user_id, integer_balance user_id t.

(** The invariant on the connection: on what is committed and on what
    the connection reads, with every balance an INTEGER. *)
Definition ledger_ok (t : tables) : Prop :=
  ledger_inv t ∧ integer_balances t.

Definition conn_inv (c : conn) : Prop :=
  ledger_ok (disk c) ∧ ledger_ok (view c).

(** The operations of the ledger, for statements about all of them. *)
Inductive op :=
  | GetBalance (user_id : Z)
  | ApplyTransaction (user_id delta : Z) (reason : string)
                     (game_key metadata : option string).

(** What an operation leaves on the connection. *)
Definition run (now : string) (o : op) (c : conn) : conn :=
  match o with
  | GetBalance u => after (get_balance now u) c
  | ApplyTransaction u d r g m => after (apply_transaction now u d r g m) c
  end.

(** A run of operations, each with the time it is made at. *)
Definition run_all (ops : list (string * op)) (c : conn) : conn :=
  foldl (fun c1 o => run (fst o) (snd o) c1) c ops.

(** The operation, made on [c], keeps the balance it adds to within the
    range of an INTEGER (a delta that cannot be bound adds nothing). *)
Definition fits (o : op) (c : conn) : Prop :=
  match o with
  | GetBalance _ => True
  | ApplyTransaction u d _ _ _ => int64 d → int64 (balance_of u (disk c) + d)
  end.

(** Every operation of the run does, on the connection it finds. *)
Fixpoint all_fit (ops : list (string * op)) (c : conn) : Prop :=
  match ops with
  | [] => True
  | o :: ops' => fits (snd o) c ∧ all_fit ops' (run (fst o) (snd o) c)
  end.

End EconomyRepository.

(** ** Calls in flight together *)

(** The same code as tasks of the event loop.  A coroutine runs until
    its next await; every await of the two modules above hands one call
    to the thread of the connection, which answers the calls first in,
    first out, and the loop resumes the coroutines in the order of the
    answers.  So tasks that are started together take turns, one await
    each. *)
Module Tasks.
Import Database EconomyRepository.

(** A coroutine up to its next await: ended, or waiting for the answer
    to [call], to go on as [k] says. *)
Inductive coro (A : Type) :=
  | Return (a : A)
  | Throw (e : exn)
  | Await {B : Type} (call : io B) (k : outcome B → coro A).
Arguments Return {A} a.
Arguments Throw {A} e.
Arguments Await {A B} call k.

(** await call *)
Definition await {B} (call : io B) : coro B :=
  Await call (fun r => match r with Ok b => Return b | Raise e => Throw e end).

Fixpoint then_ {A B} (m : coro A) (k : A → coro B) : coro B :=
  match m with
  | Return a => k a
  | Throw e => Throw e
  | Await call k' => Await call (fun r => then_ (k' r) k)
  end.

(** try: m / except Exception as e: h e / else: els *)
Fixpoint try_except_else {A B} (m : coro A) (h : exn → coro B)
    (els : A → coro B) : coro B :=
  match m with
  | Return a => els a
  | Throw e => h e
  | Await call k' => Await call (fun r => try_except_else (k' r) h els)
  end.

(** [Database.transaction] around the block [body]. *)
Definition transaction {A} (body : coro A) : coro A :=
  try_except_else
    (then_ (await conn_begin) (fun _ => body))
    (fun e => then_ (await conn_rollback) (fun _ => Throw e))
    (fun a => then_ (await conn_commit) (fun _ => Return a)).

(** [EconomyRepository.apply_transaction], await by await; the cursor
    holds the row from [conn.execute] on, and [cur.fetchone] is an await
    that hands it over. *)
Definition apply_transaction (now : string) (user_id delta : Z)
    (reason : string) (game_key metadata : option string) : coro Z :=
  transaction
    (then_ (await (conn_execute (insert_or_ignore_account now user_id))) (fun _ =>
     then_ (await (conn_execute
                     (insert_transaction now user_id delta reason game_key metadata)))
       (fun _ =>
     then_ (await (conn_execute (update_balance now delta user_id))) (fun _ =>
     then_ (await (conn_select (select_balance user_id))) (fun cur =>
     then_ (await (ret cur)) (fun row =>
     Return (match row with Some b => b | None => 0 end))))))).

(** [EconomyRepository.get_balance], await by await: [Database.fetchone]
    awaits the execution of the SELECT, the row of the cursor, and the
    closing of the cursor when it leaves its [async with];
    [Database.execute] awaits the statement and the commit. *)
Definition get_balance (now : string) (user_id : Z) : coro Z :=
  then_ (await (conn_select (select_balance user_id))) (fun cur =>
  then_ (await (ret cur)) (fun row =>
  then_ (await (ret tt)) (fun _ =>
  match row with
  | None =>
      then_ (await (conn_execute (insert_or_ignore_account now user_id))) (fun _ =>
      then_ (await conn_commit) (fun _ => Return 0))
  | Some b => Return b
  end))).

(** The coroutine alone on the loop: every await is answered before
    anything else reaches the connection. *)
Fixpoint run_alone {A} (m : coro A) (c : conn) : outcome A * conn :=
  match m with
  | Return a => (Ok a, c)
  | Throw e => (Raise e, c)
  | Await call k => let (r, c') := call c in run_alone (k r) c'
  end.

(** The task is resumed with the answer to the call it awaits. *)
Definition resume {A} (m : coro A) (c : conn) : coro A * conn :=
  match m with
  | Await call k => let (r, c') := call c in (k r, c')
  | _ => (m, c)
  end.

(** One turn of every task, in the order in which they were started. *)
Fixpoint one_turn_each {A} (ts : list (coro A)) (c : conn)
    : list (coro A) * conn :=
  match ts with
  | [] => ([], c)
  | m :: ts' =>
      let (m', c1) := resume m c in
      let (ts'', c2) := one_turn_each ts' c1 in
      (m' :: ts'', c2)
  end.

(** asyncio.gather of the tasks, followed for [n] turns. *)
Fixpoint gather {A} (n : nat) (ts : list (coro A)) (c : conn)
    : list (coro A) * conn :=
  match n with
  | O => (ts, c)
  | S n' => let (ts', c') := one_turn_each ts c in gather n' ts' c'
  end.

(** What the task ended with, if it has ended. *)
Definition result {A} (m : coro A) : option (outcome A) :=
  match m with
  | Return a => Some (Ok a)
  | Throw e => Some (Raise e)
  | Await _ _ => None
  end.

End Tasks.

(** ** The session store ([src/db/repo/games_repo.py]) *)

Module GamesRepository.
Import Database.

(** Truth values of SQL: [None] is NULL (unknown). *)
Definition sql3 : Type := option bool.

(** [a = b]: NULL as soon as one side is NULL. *)
Definition sql_eq (a b : option string) : sql3 :=
  match a, b with
  | Some x, Some y => Some (bool_decide (x = y))
  | _, _ => None
  end.

(** [a IS b]: never NULL; NULL IS NULL holds. *)
Definition sql_is (a b : option string) : sql3 := Some (bool_decide (a = b)).

Definition sql_and (p q : sql3) : sql3 :=
  match p, q with
  | Some false, _ | _, Some false => Some false
  | Some true, Some true => Some true
  | _, _ => None
  end.

Definition sql_or (p q : sql3) : sql3 :=
  match p, q with
  | Some true, _ | _, Some true => Some true
  | Some false, Some false => Some false
  | _, _ => None
  end.

(** A WHERE clause keeps the rows on which it is true. *)
Definition sql_holds (p : sql3) : bool :=
  match p with Some true => true | _ => false end.

(** WHERE platform = ? AND location_id = ?
      AND (thread_id IS ? OR thread_id = ?)
      AND game_key = ? AND status = 'active' *)
Definition where_active_in_scope (platform location_id : string)
    (thread_id : option string) (game_key : string) (r : game_session) : bool :=
  sql_holds
    (sql_and
      (sql_and
        (sql_and
          (sql_and (sql_eq (Some (s_platform r)) (Some platform))
                   (sql_eq (Some (s_location_id r)) (Some location_id)))
          (sql_or (sql_is (s_thread_id r) thread_id)
                  (sql_eq (s_thread_id r) thread_id)))
        (sql_eq (Some (s_game_key r)) (Some game_key)))
      (sql_eq (Some (s_status r)) (Some "active"%string))).

(** Modelled from the spec: the dataclass [ActiveGameSession] of
    [src/domain/models.py], which is not among the sources; its fields are
    the keyword arguments [get_active_session] builds it from. *)
Record ActiveGameSession := MkActiveGameSession {
  id : string;
  platform : string;
  location_id : string;
  thread_id : option string;
  game_key : string;
  status : string;
  state_json : string;
  created_at : string;
  updated_at : string;
  expires_at : option string
}.

(** SELECT ... FROM active_game_sessions WHERE ... LIMIT 1 *)
Definition select_active_session (platform location_id : string)
    (thread_id : option string) (game_key : string) (t : tables)
    : option game_session :=
  head (filter (fun r => where_active_in_scope platform location_id thread_id game_key r = true)
               (active_game_sessions t)).

(** ActiveGameSession(id=row["id"], ..., state_json=row["state"], ...) *)
Definition session_of_row (r : game_session) : ActiveGameSession :=
  MkActiveGameSession (s_id r) (s_platform r) (s_location_id r)
    (s_thread_id r) (s_game_key r) (s_status r) (s_state r)
    (s_created_at r) (s_updated_at r) (s_expires_at r).

Definition get_active_session (platform location_id : string)
    (thread_id : option string) (game_key : string)
    : io (option ActiveGameSession) :=
  row <- fetchone (select_active_session platform location_id thread_id game_key) ;;
  match row with
  | None => ret None
  | Some r => ret (Some (session_of_row r))
  end.

(** In the words of the specification: an active session of the scope;
    the thread matches tri-state, absent with absent and present with
    the same present. *)
Definition thread_matches (query row : option string) : Prop :=
  match query with
  | None => row = None
  | Some th => row = Some th
  end.

Definition active_in_scope (platform location_id : string)
    (thread_id : option string) (game_key : string) (r : game_session) : Prop :=
  s_platform r = platform ∧ s_location_id r = location_id
  ∧ thread_matches thread_id (s_thread_id r)
  ∧ s_game_key r = game_key ∧ s_status r = "active"%string.

(** ON CONFLICT(id) DO UPDATE SET status = 'active', state =
    excluded.state, updated_at = datetime('now'), expires_at =
    excluded.expires_at *)
Definition do_update (now state : string) (expires_at : option string)
    (r : game_session) : game_session :=
  GameSession (s_id r) (s_platform r) (s_location_id r) (s_thread_id r)
              (s_game_key r) "active" state (s_created_at r) now expires_at.

Fixpoint insert_on_conflict (new : game_session)
    (upd : game_session → game_session) (rows : list game_session)
    : list game_session :=
  match rows with
  | [] => [new]
  | r :: rows' =>
      if decide (s_id r = s_id new) then upd r :: rows'
      else r :: insert_on_conflict new upd rows'
  end.

(** INSERT INTO active_game_sessions (...) VALUES (?, ?, ?, ?, ?,
    'active', ?, datetime('now'), datetime('now'), ?) ON CONFLICT(id) DO
    UPDATE ... *)
Definition upsert_session (now session_id platform location_id : string)
    (thread_id : option string) (game_key state : string)
    (expires_at : option string) : dml := fun t =>
  Ok (1%nat,
      set_active_game_sessions
        (insert_on_conflict
           (GameSession session_id platform location_id thread_id game_key
                        "active" state now now expires_at)
           (do_update now state expires_at)) t).

(** [json_dumps] stands for [json.dumps(state, ensure_ascii=False)] on
    the type of the states a game hands over. *)
Definition upsert_active_session {State : Type} (json_dumps : State → string)
    (now session_id platform location_id : string) (thread_id : option string)
    (game_key : string) (state : State) (expires_at : option string) : io unit :=
  let state_json := json_dumps state in
  execute (upsert_session now session_id platform location_id thread_id
                          game_key state_json expires_at).

Definition set_status (now status : string) (r : game_session) : game_session :=
  GameSession (s_id r) (s_platform r) (s_location_id r) (s_thread_id r)
              (s_game_key r) status (s_state r) (s_created_at r) now
              (s_expires_at r).

(** UPDATE active_game_sessions SET status = ?, updated_at =
    datetime('now') WHERE <cond> *)
Definition update_status_where (cond : game_session → bool)
    (now status : string) : dml := fun t =>
  Ok (length (filter (fun r => cond r = true) (active_game_sessions t)),
      set_active_game_sessions
        (map (fun r => if cond r then set_status now status r else r)) t).

Definition end_session (now session_id status : string) : io unit :=
  execute (update_status_where (fun r => bool_decide (s_id r = session_id)) now status).

Definition end_active_in_location (now platform location_id : string)
    (thread_id : option string) (game_key status : string) : io nat :=
  transaction (
    rowcount <- conn_execute
      (update_status_where
         (where_active_in_scope platform location_id thread_id game_key)
         now status) ;;
    ret rowcount).

(** The operations of the store, for statements about all of them. *)
Inductive op :=
  | GetActive (platform location_id : string) (thread_id : option string)
              (game_key : string)
  | UpsertActive (session_id platform location_id : string)
                 (thread_id : option string) (game_key state : string)
                 (expires_at : option string)
  | End (session_id status : string)
  | EndActiveInScope (platform location_id : string)
                     (thread_id : option string) (game_key status : string).

(** What an operation leaves on the connection; its value is dropped. *)
Definition run (now : string) (o : op) (c : conn) : conn :=
  match o with
  | GetActive p l th g => after (get_active_session p l th g) c
  | UpsertActive i p l th g st ex =>
      after (upsert_active_session (fun s : string => s) now i p l th g st ex) c
  | End i st => after (end_session now i st) c
  | EndActiveInScope p l th g st => after (end_active_in_location now p l th g st) c
  end.

(** The committed status of the session with a given id. *)
Definition status_of (session_id : string) (t : tables) : option string :=
  s_status <$> head (filter (fun r => s_id r = session_id) (active_game_sessions t)).

(** The primary key of [active_game_sessions]. *)
Definition pk_ok (t : tables) : Prop := NoDup (map s_id (active_game_sessions t)).


Definition run_all (ops : list (string * op)) (c : conn) : conn :=
  foldl (fun c1 o => run (fst o) (snd o) c1) c ops.

(** The session is ended, in what is committed and in what the
    connection reads. *)
Definition ended (session_id : string) (c : conn) : Prop :=
  status_of session_id (disk c) = Some "ended"%string
  ∧ status_of session_id (view c) = Some "ended"%string.

(** The operations that are not an upsert of that id, nor an [End] of
    that id with another status than ended. *)
Definition leaves_ended (session_id : string) (o : op) : Prop :=
  match o with
  | UpsertActive i _ _ _ _ _ _ => i ≠ session_id
  | End i st => i ≠ session_id ∨ st = "ended"%string
  | GetActive _ _ _ _ | EndActiveInScope _ _ _ _ _ => True
  end.

End GamesRepository.

(** ** The coalescing scheduler ([src/services/leaderboard_publisher.py]) *)

Module LeaderboardPublisher.

(** Exceptions (subclasses of [Exception]) that the calls made by
    [refresh_now] can raise.  [Forbidden] and [NotFound] are subclasses
    of discord's [HTTPException]; [OtherException] is any exception
    outside that family, such as an error of the store. *)
Inductive error :=
  | Forbidden
  | NotFound
  | HTTPException
  | OtherException.

(** except (discord.Forbidden, discord.NotFound, discord.HTTPException) *)
Definition is_discord_http (e : error) : bool :=
  match e with
  | Forbidden | NotFound | HTTPException => true
  | OtherException => false
  end.

Inductive result (A : Type) :=
  | Returns (a : A)
  | Raises (e : error).
Arguments Returns {A} a.
Arguments Raises {A} e.

Inductive channel := TextChannel | Thread | OtherChannel.

(** isinstance(channel, (discord.TextChannel, discord.Thread)) *)
Definition is_text_or_thread (ch : channel) : bool :=
  match ch with
  | TextChannel | Thread => true
  | OtherChannel => false
  end.

(** The awaits of [refresh_now] and [_upsert_single_message]:
    bot.fetch_channel, self.build_embed (the leaderboard query),
    posts_repo.get_message_id, channel.fetch_message, msg.edit,
    channel.send and posts_repo.upsert_message_id. *)
Inductive call :=
  | FetchChannel
  | BuildEmbed
  | GetMessageId
  | FetchMessage
  | EditMessage
  | ChannelSend
  | UpsertMessageId.

(** What the collaborators answer during one execution of
    [refresh_now]: the bot's channel cache and API, the leaderboard
    queries behind [build_embed], the stored message id, the message
    calls of the channel (a fetched or sent message is reduced to its
    id), and how many ticks of the loop's clock each awaited call takes
    to answer. *)
Record world := World {
  get_channel : option channel;
  fetch_channel : result channel;
  build_embed : result unit;
  get_message_id : result (option Z);
  fetch_message : result Z;
  message_edit : result unit;
  channel_send : result Z;
  upsert_message_id : result unit;
  took : call → nat
}.

Inductive log_event :=
  | WarnScheduleBotNotSet
  | WarnNoRunningLoop
  | InfoRefreshScheduled (delay : Z)
  | ExceptionDebouncedRefreshCrashed (e : error)
  | WarnRefreshBotNotSet
  | ExceptionFetchChannelFailed (e : error)
  | WarnNotTextChannel
  | WarnCouldNotEdit
  | InfoMessageUpdated (msg_id : Z)
  | WarnMessageUpdateFailed.

(** What a coroutine of the publisher does, in order: [Entered] is the
    body of [refresh_now] starting under the publisher's lock, [Logged]
    a call of the logger, [Awaited] an await of a collaborator's call,
    at which the coroutine is suspended until the answer. *)
Inductive step :=
  | Entered
  | Logged (ev : log_event)
  | Awaited (c : call).

(** [_upsert_single_message]: edit the stored message, or send a new one
    and store its id.  [if msg_id:] is false for [None] and for 0.  The
    value returned or the exception let through, and the steps taken. *)
Definition _upsert_single_message (w : world) : result Z * list step :=
  match get_message_id w with
  | Raises e => (Raises e, [Awaited GetMessageId])
  | Returns stored =>
      let recreate (l : list step) :=
        match channel_send w with
        | Raises e => (Raises e, l ++ [Awaited ChannelSend])
        | Returns sent =>
            match upsert_message_id w with
            | Raises e =>
                (Raises e, l ++ [Awaited ChannelSend; Awaited UpsertMessageId])
            | Returns _ =>
                (Returns sent, l ++ [Awaited ChannelSend; Awaited UpsertMessageId])
            end
        end in
      match stored with
      | Some m =>
          if bool_decide (m = 0) then recreate [Awaited GetMessageId]
          else
            match fetch_message w with
            | Returns i =>
                match message_edit w with
                | Returns _ =>
                    (Returns i,
                     [Awaited GetMessageId; Awaited FetchMessage; Awaited EditMessage])
                | Raises e =>
                    if is_discord_http e
                    then recreate [Awaited GetMessageId; Awaited FetchMessage;
                                   Awaited EditMessage; Logged WarnCouldNotEdit]
                    else (Raises e,
                          [Awaited GetMessageId; Awaited FetchMessage;
                           Awaited EditMessage])
                end
            | Raises e =>
                if is_discord_http e
                then recreate [Awaited GetMessageId; Awaited FetchMessage;
                               Logged WarnCouldNotEdit]
                else (Raises e, [Awaited GetMessageId; Awaited FetchMessage])
            end
      | None => recreate [Awaited GetMessageId]
      end
  end.

(** [refresh_now], awaited to its end: the value it returns or the
    exception it lets through to the one who awaits it, and the steps
    it takes.  The lock is the publisher's own and is free when the
    timer's task takes it: taking it suspends nothing. *)
Definition refresh_now (bot : bool) (w : world) : result unit * list step :=
  if negb bot then (Returns tt, [Entered; Logged WarnRefreshBotNotSet])
  else
    let with_channel (l : list step) (ch : channel) :=
      if negb (is_text_or_thread ch)
      then (Returns tt, l ++ [Logged WarnNotTextChannel])
      else match build_embed w with
           | Raises e => (Raises e, l ++ [Awaited BuildEmbed])
           | Returns _ =>
               match _upsert_single_message w with
               | (Raises e, l') => (Raises e, l ++ Awaited BuildEmbed :: l')
               | (Returns msg_id, l') =>
                   if bool_decide (msg_id = 0)
                   then (Returns tt,
                         l ++ Awaited BuildEmbed :: l'
                           ++ [Logged WarnMessageUpdateFailed])
                   else (Returns tt,
                         l ++ Awaited BuildEmbed :: l'
                           ++ [Logged (InfoMessageUpdated msg_id)])
               end
           end in
    match get_channel w with
    | Some ch => with_channel [Entered] ch
    | None =>
        match fetch_channel w with
        | Returns ch => with_channel [Entered; Awaited FetchChannel] ch
        | Raises e =>
            if is_discord_http e
            then (Returns tt,
                  [Entered; Awaited FetchChannel;
                   Logged (ExceptionFetchChannelFailed e)])
            else (Raises e, [Entered; Awaited FetchChannel])
        end
    end.

(** The rest of [runner] once its sleep is over, when nothing cancels
    it: try: await self.refresh_now(...) / except Exception:
    logger.exception(...).  What the task ends with, and its steps. *)
Definition runner (bot : bool) (w : world) : result unit * list step :=
  match refresh_now bot w with
  | (Returns _, l) => (Returns tt, l)
  | (Raises e, l) =>
      (Returns tt, l ++ [Logged (ExceptionDebouncedRefreshCrashed e)])
  end.

(** The exception a call raises in [w], if it raises. *)
Definition raised {A} (r : result A) : option error :=
  match r with
  | Returns _ => None
  | Raises e => Some e
  end.

Definition answer (w : world) (c : call) : option error :=
  match c with
  | FetchChannel => raised (fetch_channel w)
  | BuildEmbed => raised (build_embed w)
  | GetMessageId => raised (get_message_id w)
  | FetchMessage => raised (fetch_message w)
  | EditMessage => raised (message_edit w)
  | ChannelSend => raised (channel_send w)
  | UpsertMessageId => raised (upsert_message_id w)
  end.

(** The calls among the steps, and what is logged among them. *)
Definition calls (l : list step) : list call :=
  omap (fun s => match s with Awaited c => Some c | _ => None end) l.

Definition logged (l : list step) : list log_event :=
  omap (fun s => match s with Logged ev => Some ev | _ => None end) l.

(** The exceptions that the except clauses inside [refresh_now] and
    [_upsert_single_message] name, at the calls that they enclose. *)
Definition handled (c : call) (e : error) : bool :=
  match c with
  | FetchChannel | FetchMessage | EditMessage => is_discord_http e
  | _ => false
  end.

(** How a task that is done has ended: cancelled by a later
    [schedule_refresh] (at its sleep or at an await of [refresh_now];
    [runner] catches the CancelledError and returns), returned, or
    ended by an exception that [runner] let through. *)
Inductive ending :=
  | Cancelled
  | Finished
  | Crashed (e : error).

(** A task running [runner]: asleep until its wake-up time; or in
    [refresh_now] since the time [since], suspended at an await that is
    answered at time [resume_at], with the steps [rest] still to take
    and [r] to end with; or done. *)
Inductive task :=
  | Sleeping (wake_at : Z)
  | Running (since resume_at : Z) (rest : list step) (r : result unit)
  | Ended (how : ending).

(** task.done() *)
Definition done (k : task) : bool :=
  match k with
  | Sleeping _ | Running _ _ _ _ => false
  | Ended _ => true
  end.

(** The publisher and the event loop it schedules on.  Time is the
    loop's clock, [loop.time()], counted in whole ticks; [bot] tells
    whether [self._bot] is set and [loop] whether a loop is found (the
    bot's, or the running one); [_pending_task] is the task the
    attribute refers to, as it stands; [past] are the tasks it referred
    to before, oldest first, which are done or were cancelled when they
    were replaced; [worlds] gives the collaborators' answers to the
    execution of [refresh_now] that starts at each time; [trace] holds
    the steps taken so far, each with the time it was taken at.  The
    tasks on this loop are those of [schedule_refresh]; a caller that
    awaits [refresh_now] itself gets what [refresh_now] gives. *)
Record publisher := Publisher {
  bot : bool;
  loop : bool;
  debounce_seconds : Z;
  _pending_task : option task;
  _scheduled_at : option Z;
  clock : Z;
  past : list ending;
  worlds : Z → world;
  trace : list (Z * step)
}.

(** The tasks created so far, oldest first. *)
Definition tasks (p : publisher) : list task :=
  (Ended <$> past p) ++ option_list (_pending_task p).

(** The times at which an execution of [refresh_now] began. *)
Definition entries (tr : list (Z * step)) : list Z :=
  omap (fun x => match snd x with Entered => Some (fst x) | _ => None end) tr.

Definition refreshes (p : publisher) : list Z := entries (trace p).

(** What was logged, in order. *)
Definition log (p : publisher) : list log_event := logged (snd <$> trace p).

(** if self._pending_task and not self._pending_task.done():
        self._pending_task.cancel()
    The task replaced by a new one, as it ends. *)
Definition replaced (pending : option task) : list ending :=
  match pending with
  | Some (Ended how) => [how]
  | Some _ => [Cancelled]
  | None => []
  end.

(** asyncio.sleep(delay) returns at once when delay <= 0. *)
Definition schedule_refresh (p : publisher) : publisher :=
  if negb (bot p) then
    Publisher (bot p) (loop p) (debounce_seconds p) (_pending_task p)
              (_scheduled_at p) (clock p) (past p) (worlds p)
              (trace p ++ [(clock p, Logged WarnScheduleBotNotSet)])
  else if negb (loop p) then
    Publisher (bot p) (loop p) (debounce_seconds p) (_pending_task p)
              (_scheduled_at p) (clock p) (past p) (worlds p)
              (trace p ++ [(clock p, Logged WarnNoRunningLoop)])
  else
    let delay := debounce_seconds p in
    Publisher (bot p) (loop p) (debounce_seconds p)
              (Some (Sleeping (clock p + Z.max 0 delay)))
              (Some (clock p + delay)) (clock p)
              (past p ++ replaced (_pending_task p)) (worlds p)
              (trace p ++ [(clock p, Logged (InfoRefreshScheduled delay))]).

Definition task_end (r : result unit) : ending :=
  match r with
  | Returns _ => Finished
  | Raises e => Crashed e
  end.

(** The task, resumed at time [now], goes on until the clock reads [t]:
    it takes its steps in order, each await taking the ticks that the
    call takes to answer, and is left at the first await that is not
    answered by [t]. *)
Fixpoint play (t : Z) (took : call → nat) (since now : Z) (rest : list step)
    (r : result unit) : task * list (Z * step) :=
  match rest with
  | [] => (Ended (task_end r), [])
  | Awaited c :: rest' =>
      let answered := now + Z.of_nat (took c) in
      if bool_decide (answered ≤ t)
      then let '(k, tr) := play t took since answered rest' r in
           (k, (now, Awaited c) :: tr)
      else (Running since answered rest' r, [(now, Awaited c)])
  | s :: rest' =>
      let '(k, tr) := play t took since now rest' r in
      (k, (now, s) :: tr)
  end.

(** The loop runs the pending task until the clock reads [t]: a sleep
    that is over by then starts the rest of [runner], an await that is
    answered by then resumes it. *)
Definition run_task (t : Z) (bot : bool) (worlds : Z → world) (k : task)
    : task * list (Z * step) :=
  match k with
  | Sleeping w =>
      if bool_decide (w ≤ t)
      then let '(r, l) := runner bot (worlds w) in
           play t (took (worlds w)) w w l r
      else (k, [])
  | Running since resume_at rest r =>
      if bool_decide (resume_at ≤ t)
      then play t (took (worlds since)) since resume_at rest r
      else (k, [])
  | Ended _ => (k, [])
  end.

(** The loop runs until its clock reads [t]. *)
Definition advance (t : Z) (p : publisher) : publisher :=
  if bool_decide (t < clock p) then p
  else
    match _pending_task p with
    | Some k =>
        let '(k', tr) := run_task t (bot p) (worlds p) k in
        Publisher (bot p) (loop p) (debounce_seconds p) (Some k')
                  (_scheduled_at p) t (past p) (worlds p) (trace p ++ tr)
    | None =>
        Publisher (bot p) (loop p) (debounce_seconds p) None
                  (_scheduled_at p) t (past p) (worlds p) (trace p)
    end.

(** [schedule_refresh] called when the clock reads [t]. *)
Definition call_at (t : Z) (p : publisher) : publisher :=
  schedule_refresh (advance t p).

Definition calls_at (times : list Z) (p : publisher) : publisher :=
  foldl (fun q t => call_at t q) p times.

(** The times of a sequence of calls, from the time of the first and
    the gaps between consecutive ones. *)
Fixpoint call_times (t : Z) (gaps : list Z) : list Z :=
  match gaps with
  | [] => [t]
  | g :: gaps' => t :: call_times (t + g) gaps'
  end.

(** The time of the last call of such a sequence. *)
Fixpoint last_time (t : Z) (gaps : list Z) : Z :=
  match gaps with
  | [] => t
  | g :: gaps' => last_time (t + g) gaps'
  end.

(** The steps, each with the time it is taken at when nothing stops
    the task that is resumed at time [now]. *)
Fixpoint stamped (took : call → nat) (now : Z) (l : list step)
    : list (Z * step) :=
  match l with
  | [] => []
  | Awaited c :: l' => (now, Awaited c) :: stamped took (now + Z.of_nat (took c)) l'
  | s :: l' => (now, s) :: stamped took now l'
  end.

(** The ticks that the awaits among the steps take. *)
Definition duration (took : call → nat) (l : list step) : Z :=
  foldr (fun c acc => Z.of_nat (took c) + acc) 0 (calls l).

(** No task is asleep or in flight: no refresh is pending. *)
Definition quiet (p : publisher) : Prop :=
  Forall (fun k => done k = true) (tasks p).

(** A refresh is pending, for time [w]: the pending task sleeps until
    [w]. *)
Definition armed (p : publisher) (w : Z) : Prop :=
  _pending_task p = Some (Sleeping w).

End LeaderboardPublisher.

(** ** Sample states *)

Module Samples.

(** User 7 is registered; nothing else is stored. *)
Definition one_user : tables := Tables {[7]} ∅ [] 0 [].

(** A connection on which the store fails the fourth statement it gets. *)
Definition failing_fourth : conn := Conn one_user None [false; false; false; true].

Definition steady : conn := Conn one_user None [].

(** User 7 holds the greatest INTEGER, earned in one transaction. *)
Definition brim : conn :=
  Conn (Tables {[7]}
          {[7 := BeanAccount 9223372036854775807 false
                   "2024-01-01 00:00:00" "2024-01-01 00:00:00"]}
          [BeanTransaction 1 7 9223372036854775807 "reward" None None
             "2024-01-01 00:00:00"]
          1 [])
       None [].

(** One session, ended, of a word game in a channel. *)
Definition ended_row : game_session :=
  GameSession "s1" "discord" "chan-1" None "wordle" "ended" "{}"
              "2024-01-01 00:00:00" "2024-01-01 00:05:00" None.

Definition one_ended : conn := Conn (Tables ∅ ∅ [] 0 [ended_row]) None [].

(** An active session of the same game in a thread of the channel. *)
Definition thread_row : game_session :=
  GameSession "s2" "discord" "chan-1" (Some "th-9"%string) "wordle" "active"
              "[]" "2024-01-01 00:06:00" "2024-01-01 00:06:00" None.

Definition ended_and_active : conn :=
  Conn (Tables ∅ ∅ [] 0 [ended_row; thread_row]) None [].

(** Every awaited call takes two ticks of the clock. *)
Definition two_ticks (c : LeaderboardPublisher.call) : nat := 2.

(** The channel is cached and is a text channel, but the leaderboard
    query behind [build_embed] fails. *)
Definition embed_fails : LeaderboardPublisher.world :=
  LeaderboardPublisher.World
    (Some LeaderboardPublisher.TextChannel)
    (LeaderboardPublisher.Returns LeaderboardPublisher.TextChannel)
    (LeaderboardPublisher.Raises LeaderboardPublisher.OtherException)
    (LeaderboardPublisher.Returns None)
    (LeaderboardPublisher.Returns 11)
    (LeaderboardPublisher.Returns tt)
    (LeaderboardPublisher.Returns 12)
    (LeaderboardPublisher.Returns tt)
    two_ticks.

(** All collaborators answer; no message is stored yet. *)
Definition all_well : LeaderboardPublisher.world :=
  LeaderboardPublisher.World
    (Some LeaderboardPublisher.TextChannel)
    (LeaderboardPublisher.Returns LeaderboardPublisher.TextChannel)
    (LeaderboardPublisher.Returns tt)
    (LeaderboardPublisher.Returns None)
    (LeaderboardPublisher.Returns 11)
    (LeaderboardPublisher.Returns tt)
    (LeaderboardPublisher.Returns 12)
    (LeaderboardPublisher.Returns tt)
    two_ticks.

(** A publisher attached to a bot, debounce window 10, nothing
    scheduled, at time 0; [w] is what the collaborators answer. *)
Definition attached (w : LeaderboardPublisher.world) : LeaderboardPublisher.publisher :=
  LeaderboardPublisher.Publisher true true 10 None None 0 [] (fun _ => w) [].

(** A publisher whose bot was never set. *)
Definition detached : LeaderboardPublisher.publisher :=
  LeaderboardPublisher.Publisher false false 10 None None 0 [] (fun _ => all_well) [].

End Samples.

(** ** The games' use of the session store
    ([src/games/english/word_chain.py], [wordle.py], [unscramble.py]) *)

(** The values a game keeps in its state dict, as [json.dumps] takes
    them; a dict keeps its keys in insertion order. *)
#[local] Unset Elimination Schemes.
Inductive json :=
  | JNull
  | JBool (b : bool)
  | JInt (z : Z)
  | JStr (s : string)
  | JList (l : list json)
  | JDict (l : list (string * json)).
#[local] Set Elimination Schemes.

(** d[k] = v on the items of a dict. *)
Fixpoint dict_set (k : string) (v : json) (items : list (string * json))
    : list (string * json) :=
  match items with
  | [] => [(k, v)]
  | (k', v') :: items' =>
      if decide (k' = k) then (k, v) :: items'
      else (k', v') :: dict_set k v items'
  end.

(** str(n) for an int. *)
Definition str (n : Z) : string := pretty n.

Module WordChainGame.
Import Database GamesRepository.

Definition key : string := "word_chain".

Definition _new_state : list (string * json) :=
  [("last_word"%string, JNull);
   ("used_words"%string, JList []);
   ("last_player_id"%string, JNull);
   ("turn"%string, JInt 0);
   ("streaks"%string, JDict []);
   ("status_message_id"%string, JNull);
   ("last_status"%string, JStr "Round started. Waiting for the first word…");
   ("last_milestone"%string, JInt 0)].

(** [uuid] is the value of str(uuid.uuid4()); [now1] and [now2] are what
    datetime('now') gives in the two statements.  The resets of the
    in-memory throttles and locks that end the function touch no table. *)
Definition start_in_channel (json_dumps : json → string) (now1 now2 uuid : string)
    (channel_id status_message_id : Z) : io string :=
  _ <- end_active_in_location now1 "discord" (str channel_id) None key "ended" ;;
  let session_id := uuid in
  let state := dict_set "status_message_id" (JInt status_message_id) _new_state in
  _ <- upsert_active_session json_dumps now2 session_id "discord"
         (str channel_id) None key (JDict state) None ;;
  ret session_id.

Definition stop_in_channel (now : string) (channel_id : Z) : io nat :=
  end_active_in_location now "discord" (str channel_id) None key "ended".

Definition get_state (json_loads : string → json) (channel_id : Z)
    : io (option json) :=
  sess <- get_active_session "discord" (str channel_id) None key ;;
  match sess with
  | None => ret None
  | Some s => ret (Some (json_loads (state_json s)))
  end.

End WordChainGame.

Module WordleGame.
Import Database GamesRepository.

Definition key : string := "wordle".

Definition _new_state (answer date_str : string) : json :=
  JDict [("date"%string, JStr date_str);
         ("answer"%string, JStr answer);
         ("players"%string, JDict [])].

(** [date_str] is what [_utc_date_str()] returns and [answer] what
    [_pick_random_5_letter_word()] draws. *)
Definition start_in_channel (json_dumps : json → string) (now1 now2 : string)
    (date_str answer : string) (channel_id : Z) : io string :=
  _ <- end_active_in_location now1 "discord" (str channel_id) None key "ended" ;;
  let session_id := key +:+ ":" +:+ str channel_id +:+ ":" +:+ date_str in
  let state := _new_state answer date_str in
  _ <- upsert_active_session json_dumps now2 session_id "discord"
         (str channel_id) None key state None ;;
  ret session_id.

Definition stop_in_channel (now : string) (channel_id : Z) : io bool :=
  sess <- get_active_session "discord" (str channel_id) None key ;;
  match sess with
  | None => ret false
  | Some _ =>
      _ <- end_active_in_location now "discord" (str channel_id) None key "ended" ;;
      ret true
  end.

(** [time_s] is int(time.time()). *)
Definition restart_in_channel (json_dumps : json → string) (now1 now2 : string)
    (date_str answer : string) (time_s : Z) (channel_id : Z) : io string :=
  _ <- end_active_in_location now1 "discord" (str channel_id) None key "ended" ;;
  let session_id :=
    key +:+ ":" +:+ str channel_id +:+ ":" +:+ date_str +:+ ":r" +:+ str time_s in
  let state := _new_state answer date_str in
  _ <- upsert_active_session json_dumps now2 session_id "discord"
         (str channel_id) None key state None ;;
  ret session_id.

End WordleGame.

Module UnscrambleGame.
Import Database GamesRepository.

Definition key : string := "unscramble".

Definition start_in_channel (json_dumps : json → string) (now : string)
    (channel_id : Z) : io string :=
  let session_id := key +:+ ":" +:+ str channel_id in
  let state := JDict [("players"%string, JDict [])] in
  _ <- upsert_active_session json_dumps now session_id "discord"
         (str channel_id) None key state None ;;
  ret session_id.

Definition _get_or_create_session (json_dumps : json → string)
    (json_loads : string → json) (now : string) (channel_id : Z)
    : io (option (string * json)) :=
  sess <- get_active_session "discord" (str channel_id) None key ;;
  match sess with
  | Some s => ret (Some (id s, json_loads (state_json s)))
  | None =>
      _ <- start_in_channel json_dumps now channel_id ;;
      sess <- get_active_session "discord" (str channel_id) None key ;;
      match sess with
      | None => ret None
      | Some s => ret (Some (id s, json_loads (state_json s)))
      end
  end.


End UnscrambleGame.

(** ** Statements about the rows of a scope *)

Module Scope.
Import GamesRepository.

(** The rows that are active in a scope, in table order. *)
Definition active_rows (platform location_id : string)
    (thread_id : option string) (game_key : string) (t : tables)
    : list game_session :=
  filter (fun r => where_active_in_scope platform location_id thread_id game_key r = true)
         (active_game_sessions t).

(** The scope columns of a row. *)
Definition scope_of (r : game_session) : string * string * option string * string :=
  (s_platform r, s_location_id r, s_thread_id r, s_game_key r).

End Scope.

(** ** The economy service ([src/services/economy_service.py]) *)

Module EconomyService.
Import Database.

(** What the service works on: the shared connection, and the publisher
    when one was given to the constructor. *)
Record system := System {
  db : conn;
  _publisher : option LeaderboardPublisher.publisher
}.

(** [users_repo] stands for the injected
    [UsersRepository.get_or_create_discord_user], reduced to the [id] of
    the user it returns, the only field the service reads. *)
Definition get_balance_discord (users_repo : Z → option string → io Z)
    (now : string) (user_id : Z) (display_name : option string) : io Z :=
  user <- users_repo user_id display_name ;;
  EconomyRepository.get_balance now user.

(** [schedule_refresh] raises nothing in this model, so the handler
    around it has nothing to catch. *)
Definition award_beans_discord (users_repo : Z → option string → io Z)
    (now : string) (user_id amount : Z) (reason : string)
    (game_key display_name metadata : option string) (s : system)
    : outcome Z * system :=
  if bool_decide (amount = 0) then
    let (r, c) := get_balance_discord users_repo now user_id display_name (db s) in
    (r, System c (_publisher s))
  else
    match (user <- users_repo user_id display_name ;;
           EconomyRepository.apply_transaction now user amount reason game_key
             metadata) (db s) with
    | (Raise e, c) => (Raise e, System c (_publisher s))
    | (Ok new_balance, c) =>
        (Ok new_balance,
         System c (LeaderboardPublisher.schedule_refresh <$> _publisher s))
    end.

End EconomyService.

(** ** Cooldowns, the epoch layer ([src/services/cooldowns.py]) *)

Module Cooldowns.

(** [retry_after_seconds] is a float in the source; in the epoch layer
    it holds the float of an integer, a double without fraction, which
    is kept here as the integer it equals and which
    [try_acquire_epoch] turns into that integer with int(...). *)
Record CooldownResult := MkCooldownResult {
  allowed : bool;
  retry_after_seconds : Z
}.

(** self._last_epoch, (action, user_id, location_id) -> epoch seconds,
    is a [gmap (string * string * string) Z]. *)

(** str(x) for an argument typed [int | str]. *)
Definition str_of (x : Z + string) : string :=
  match x with
  | inl n => str n
  | inr s => s
  end.

(** [clock] is what [_now_epoch()], int(time.time()), returns.  The
    wait of a denied attempt goes through float(...), which rounds it
    to a double and raises OverflowError when it has none; the cache is
    not written on that path. *)
Definition check_epoch (action user_id location_id : string)
    (cooldown_seconds : Z) (now_epoch : option Z) (clock : Z) (st : gmap (string * string * string) Z)
    : outcome CooldownResult * gmap (string * string * string) Z :=
  let now := match now_epoch with Some n => n | None => clock end in
  let key := (action, user_id, location_id) in
  match st !! key with
  | None => (Ok (MkCooldownResult true 0), <[key := now]> st)
  | Some last =>
      let elapsed := now - last in
      if bool_decide (cooldown_seconds ≤ elapsed)
      then (Ok (MkCooldownResult true 0), <[key := now]> st)
      else match float_of_int (cooldown_seconds - elapsed) with
           | Some wait => (Ok (MkCooldownResult false wait), st)
           | None => (Raise OverflowError, st)
           end
  end.

Definition try_acquire_epoch (action : string) (user_id location_id : Z + string)
    (cooldown_seconds : Z) (now_epoch : option Z) (clock : Z) (st : gmap (string * string * string) Z)
    : outcome (bool * Z) * gmap (string * string * string) Z :=
  match check_epoch action (str_of user_id) (str_of location_id) cooldown_seconds
                    now_epoch clock st with
  | (Ok res, st') => (Ok (allowed res, retry_after_seconds res), st')
  | (Raise e, st') => (Raise e, st')
  end.

Definition seed_epoch (action : string) (user_id location_id : Z + string)
    (last : Z) (st : gmap (string * string * string) Z) : gmap (string * string * string) Z :=
  <[(action, str_of user_id, str_of location_id) := last]> st.

Definition get_epoch (action : string) (user_id location_id : Z + string)
    (st : gmap (string * string * string) Z) : option Z :=
  st !! (action, str_of user_id, str_of location_id).

(** A run of [try_acquire_epoch] on one key with one cooldown, at the
    given times: the answers, in order, and the cache afterwards. *)
Fixpoint acquire_all (action : string) (user_id location_id : Z + string)
    (cooldown_seconds : Z) (times : list Z) (st : gmap (string * string * string) Z)
    : list (outcome (bool * Z)) * gmap (string * string * string) Z :=
  match times with
  | [] => ([], st)
  | t :: times' =>
      let (a, st1) :=
        try_acquire_epoch action user_id location_id cooldown_seconds (Some t) 0 st in
      let (answers, st2) :=
        acquire_all action user_id location_id cooldown_seconds times' st1 in
      (a :: answers, st2)
  end.

(** The times at which the run was allowed. *)
Fixpoint allowed_times (times : list Z) (answers : list (outcome (bool * Z)))
    : list Z :=
  match times, answers with
  | t :: times', Ok (true, _) :: answers' => t :: allowed_times times' answers'
  | _ :: times', _ :: answers' => allowed_times times' answers'
  | _, _ => []
  end.

(** Consecutive elements are at least [d] apart. *)
Fixpoint spaced (d : Z) (l : list Z) : Prop :=
  match l with
  | a :: (b :: _) as tl => d ≤ b - a ∧ spaced d tl
  | _ => True
  end.

(** The first time of [l] lies at least [d] after the cached time, when
    there is one. *)
Definition after_last (d : Z) (last : option Z) (l : list Z) : Prop :=
  match last, l with
  | Some t0, t :: _ => d ≤ t - t0
  | _, _ => True
  end.

End Cooldowns.

(** ** Reward rules ([src/services/rewards_service.py]) *)

Module RewardsService.

Definition default_rules : gmap string Z :=
  list_to_map
    [("wordle.solve"%string, 20); ("wordle.fail_per_green"%string, 2);
     ("word_chain.round_payout"%string, 1);
     ("unscramble.solve"%string, 5); ("unscramble.fail_per_revealed"%string, 2);
     ("core.daily"%string, 25); ("core.work"%string, 5);
     ("geo_learning.correct"%string, 2); ("geo_learning.complete"%string, 10);
     ("geo_flags.correct"%string, 3); ("geo_language.correct"%string, 4)].

(** [__init__]: the rules of the service, self._rules.  An empty or
    absent [overrides] leaves the defaults. *)
Definition init (overrides : option (gmap string Z)) : gmap string Z :=
  match overrides with
  | Some o => o ∪ default_rules
  | None => default_rules
  end.

Inductive key_result :=
  | Amount (n : Z)
  | KeyError.

Definition amount (rules : gmap string Z) (key : string) : key_result :=
  match rules !! key with
  | Some n => Amount n
  | None => KeyError
  end.

Definition has (rules : gmap string Z) (key : string) : bool :=
  bool_decide (is_Some (rules !! key)).

Definition snapshot (rules : gmap string Z) : gmap string Z := rules.

Definition with_overrides (rules : gmap string Z) (overrides : gmap string Z)
    : gmap string Z :=
  let merged := overrides ∪ snapshot rules in
  init (Some merged).

End RewardsService.

(** ** Calls of [schedule_refresh] at any distance *)

Module Debounce.

(** The refreshes that run between the calls of a sequence: a call
    followed by a gap longer than the window [d] is refreshed [d] after
    it was made.  [t] is the time of the first call. *)
Fixpoint refreshed_between (d t : Z) (gaps : list Z) : list Z :=
  match gaps with
  | [] => []
  | g :: gaps' =>
      (if bool_decide (d < g) then [t + d] else [])
        ++ refreshed_between d (t + g) gaps'
  end.

End Debounce.

(** ** Evaluation of a Wordle guess ([src/games/english/wordle.py]) *)

Module Wordle.

Inductive emoji := EMOJI_GREEN | EMOJI_YELLOW | EMOJI_RED.

#[global] Instance emoji_eq_dec : EqDecision emoji.
Proof. solve_decision. Defined.

Section Evaluate.
Context {char : Type} `{Countable char}.

(** A [for] loop over indices whose body may raise: [None] stands for
    the IndexError of an index past the end of a string. *)
Fixpoint for_range {S : Type} (l : list nat) (body : nat → S → option S) (s : S)
    : option S :=
  match l with
  | [] => Some s
  | i :: l' =>
      match body i s with
      | Some s' => for_range l' body s'
      | None => None
      end
  end.

(** remaining.get(x, 0) *)
Definition remaining_get (remaining : gmap char Z) (x : char) : Z :=
  default 0 (remaining !! x).

(** The body of the first loop. *)
Definition greens_body (answer guess : list char) (i : nat)
    (s : list emoji * gmap char Z) : option (list emoji * gmap char Z) :=
  let (res, remaining) := s in
  match answer !! i with
  | None => None
  | Some a =>
      match guess !! i with
      | None => None
      | Some g =>
          if decide (g = a) then Some (<[i := EMOJI_GREEN]> res, remaining)
          else Some (res, <[a := remaining_get remaining a + 1]> remaining)
      end
  end.

(** The body of the second loop. *)
Definition yellows_body (guess : list char) (i : nat)
    (s : list emoji * gmap char Z) : option (list emoji * gmap char Z) :=
  let (res, remaining) := s in
  match res !! i with
  | None => None
  | Some r =>
      if decide (r = EMOJI_GREEN) then Some s
      else
        match guess !! i with
        | None => None
        | Some g =>
            if bool_decide (0 < remaining_get remaining g)
            then Some (<[i := EMOJI_YELLOW]> res,
                       <[g := remaining_get remaining g - 1]> remaining)
            else Some s
        end
  end.

(** [lower] is [str.lower], which may change the length of a string. *)
Definition _evaluate_guess (lower : list char → list char)
    (answer guess : list char) : option (list emoji) :=
  let answer := lower answer in
  let guess := lower guess in
  match for_range (seq 0 5) (greens_body answer guess)
                  (replicate 5 EMOJI_RED, ∅) with
  | None => None
  | Some s1 =>
      match for_range (seq 0 5) (yellows_body guess) s1 with
      | None => None
      | Some (res, _) => Some res
      end
  end.

Definition _count_greens (row : list emoji) : nat :=
  length (filter (fun e => e = EMOJI_GREEN) row).

(** The two loops as recursions over the letters at the positions
    they visit; the proofs go through them. *)
Fixpoint greens_of (answer guess : list char) (remaining : gmap char Z)
    : list emoji * gmap char Z :=
  match answer, guess with
  | a :: answer', g :: guess' =>
      if decide (g = a) then
        let (row, r) := greens_of answer' guess' remaining in
        (EMOJI_GREEN :: row, r)
      else
        let (row, r) :=
          greens_of answer' guess'
                    (<[a := remaining_get remaining a + 1]> remaining) in
        (EMOJI_RED :: row, r)
  | _, _ => ([], remaining)
  end.

Fixpoint yellows_of (guess : list char) (row : list emoji)
    (remaining : gmap char Z) : list emoji * gmap char Z :=
  match guess, row with
  | g :: guess', e :: row' =>
      if decide (e = EMOJI_GREEN) then
        let (row2, r) := yellows_of guess' row' remaining in (e :: row2, r)
      else if bool_decide (0 < remaining_get remaining g) then
        let (row2, r) :=
          yellows_of guess' row'
                     (<[g := remaining_get remaining g - 1]> remaining) in
        (EMOJI_YELLOW :: row2, r)
      else
        let (row2, r) := yellows_of guess' row' remaining in (e :: row2, r)
  | _, _ => ([], remaining)
  end.

(** How often the letter [x] occurs in a word. *)
Definition occurrences (x : char) (word : list char) : nat :=
  length (filter (fun y => y = x) word).

(** How many occurrences of the letter [x] in the guess are marked
    green or yellow in the row. *)
Definition marked (x : char) (guess : list char) (row : list emoji) : nat :=
  length (filter (fun ye => fst ye = x ∧ snd ye ≠ EMOJI_RED) (zip guess row)).

(** The occurrences of [x] in the guess at the green positions of a
    row, and at its other positions. *)
Definition green_on (x : char) (guess : list char) (row : list emoji) : nat :=
  length (filter (fun ye => fst ye = x ∧ snd ye = EMOJI_GREEN) (zip guess row)).

Definition other_on (x : char) (guess : list char) (row : list emoji) : nat :=
  length (filter (fun ye => fst ye = x ∧ snd ye ≠ EMOJI_GREEN) (zip guess row)).

End Evaluate.

End Wordle.

(** ** The rank query ([src/db/repo/leaderboard_repo.py]) *)

Module LeaderboardRepository.
Import Database.

(** The dict that [get_user_rank] returns, with its keys user_id,
    balance and rank. *)
Record user_rank := UserRank {
  rank_user_id : Z;
  rank_balance : Z;
  rank : Z
}.

(** The accounts whose balance is greater than [b]:
    SELECT ... FROM bean_accounts a2 WHERE a2.balance > a.balance *)
Definition richer_than (b : Z) (t : tables) : gmap Z bean_account :=
  filter (fun kv => b < balance (snd kv)) (bean_accounts t).

(** SELECT a.user_id, a.balance, (the count of the accounts with a
    greater balance) + 1 AS rank FROM bean_accounts a WHERE a.user_id = ? *)
Definition select_user_rank (user_id : Z) (t : tables) : option user_rank :=
  match bean_accounts t !! user_id with
  | Some a =>
      Some (UserRank user_id (balance a)
                     (Z.of_nat (size (richer_than (balance a) t)) + 1))
  | None => None
  end.

Definition get_user_rank (user_id : Z) : io (option user_rank) :=
  row <- fetchone (select_user_rank user_id) ;;
  match row with
  | None => ret None
  | Some r => ret (Some r)
  end.

End LeaderboardRepository.

(** ** More sample states *)

Module MoreSamples.
Import Database.

(** Users 7 and 8 are registered; 7 holds 5 beans and 8 holds 9. *)
Definition two_accounts : tables :=
  Tables {[7; 8]}
         {[7 := BeanAccount 5 false "2024-01-01 00:00:00" "2024-01-01 00:00:00";
           8 := BeanAccount 9 false "2024-01-01 00:00:00" "2024-01-01 00:00:00"]}
         [BeanTransaction 1 7 5 "reward" None None "2024-01-01 00:00:00";
          BeanTransaction 2 8 9 "reward" None None "2024-01-01 00:00:00"]
         2 [].

Definition ranked : conn := Conn two_accounts None [].

(** A users repository that resolves every Discord user to user 7. *)
Definition always_seven : Z → option string → io Z := fun _ _ => ret 7.

(** The service on a steady store, with an attached publisher. *)
Definition service_attached : EconomyService.system :=
  EconomyService.System Samples.steady (Some (Samples.attached Samples.all_well)).


(** A cooldown cache that holds time 100 for one key. *)
Definition seeded : gmap (string * string * string) Z :=
  Cooldowns.seed_epoch "daily" (inl 1) (inl 2) 100 ∅.

(** A serializer and a parser for the game states. *)
Definition dumps : json → string := fun _ => "state"%string.
Definition loads : string → json := fun s => JStr s.



(** The words apple and poppy, as code points. *)
Definition apple : list nat := [97; 112; 112; 108; 101]%nat.
Definition poppy : list nat := [112; 111; 112; 112; 121]%nat.

(** The row of the guess poppy against the answer apple. *)
Definition poppy_row : list Wordle.emoji :=
  [Wordle.EMOJI_YELLOW; Wordle.EMOJI_RED; Wordle.EMOJI_GREEN;
   Wordle.EMOJI_RED; Wordle.EMOJI_RED].

End MoreSamples.

(** * Facts about the connection *)

Module DatabaseFacts.
Import Database.

Lemma healthy_tail c :
  healthy c → healthy (Conn (disk c) (txn c) (tail (faults c))).
Proof.
  unfold healthy; simpl. destruct (faults c); simpl; [done|].
  by inversion 1.
Qed.

Lemma next_fault_healthy c :
  healthy c → next_fault c = (false, Conn (disk c) (txn c) (tail (faults c))).
Proof.
  unfold healthy, next_fault. destruct c as [d t f]; simpl.
  destruct f as [|b f]; simpl; [done|].
  inversion 1; by subst.
Qed.

Lemma conn_select_healthy {A} (q : tables → A) c :
  healthy c →
  conn_select q c = (Ok (q (view c)), Conn (disk c) (txn c) (tail (faults c))).
Proof. intros H. unfold conn_select. by rewrite (next_fault_healthy c H). Qed.

Lemma conn_execute_healthy (stmt : dml) c :
  healthy c →
  conn_execute stmt c =
    match stmt (view c) with
    | Ok (n, t) => (Ok n, Conn (disk c) (Some t) (tail (faults c)))
    | Raise e => (Raise e, Conn (disk c) (Some (view c)) (tail (faults c)))
    end.
Proof.
  intros H. unfold conn_execute.
  rewrite next_fault_healthy by exact H.
  unfold view at 1. simpl. by destruct (stmt (view c)) as [[n t]|e].
Qed.

Lemma conn_begin_healthy c :
  healthy c → idle c →
  conn_begin c = (Ok tt, Conn (disk c) (Some (disk c)) (tail (faults c))).
Proof.
  intros H Hi. unfold conn_begin. rewrite next_fault_healthy by done.
  simpl. by rewrite Hi.
Qed.

Lemma view_txn c t : txn c = Some t → view c = t.
Proof. unfold view. by intros ->. Qed.

Lemma view_idle c : txn c = None → view c = disk c.
Proof. unfold view. by intros ->. Qed.

(** What each call on the connection may change, whatever the store
    does. *)
Lemma conn_select_inv {A} (q : tables → A) c r c' :
  conn_select q c = (r, c') →
  disk c' = disk c ∧ txn c' = txn c
  ∧ match r with Ok a => a = q (view c) | Raise e => e = StoreError end.
Proof.
  unfold conn_select, next_fault. destruct c as [d t f].
  destruct f as [|[] f]; simpl; intros [= <- <-]; done.
Qed.

Lemma conn_execute_inv (stmt : dml) c r c' :
  conn_execute stmt c = (r, c') →
  disk c' = disk c
  ∧ match r with
    | Ok n => ∃ t, stmt (view c) = Ok (n, t) ∧ txn c' = Some t
    | Raise e => txn c' = Some (view c)
    end.
Proof.
  unfold conn_execute, next_fault. destruct c as [d t f].
  destruct f as [|[] f]; simpl; unfold view at 1; simpl.
  2: by intros [= <- <-].
  all: destruct (stmt _) as [[n t']|e] eqn:E; intros [= <- <-]; simpl; eauto.
Qed.

Lemma conn_begin_inv c r c' :
  conn_begin c = (r, c') →
  disk c' = disk c
  ∧ match r with
    | Ok _ => txn c = None ∧ txn c' = Some (disk c)
    | Raise _ => txn c' = txn c
    end.
Proof.
  unfold conn_begin, next_fault. destruct c as [d t f].
  destruct f as [|[] f]; simpl; destruct t; intros [= <- <-]; done.
Qed.


Lemma transaction_inv {A} (body : io A) c r c' :
  transaction body c = (r, c') →
  txn c' = None
  ∧ ∃ c1, (_ <- conn_begin ;; body) c = (r, c1) ∧ faults c' = faults c1
    ∧ disk c' = match r with Ok _ => view c1 | Raise _ => disk c1 end.
Proof.
  unfold transaction.
  destruct ((_ <- conn_begin ;; body) c) as [[a|e] c1] eqn:E;
    intros [= <- <-]; simpl; eauto.
Qed.

Lemma execute_healthy (stmt : dml) c n t :
  healthy c → stmt (view c) = Ok (n, t) →
  execute stmt c = (Ok tt, Conn t None (tail (faults c))).
Proof.
  intros H E. unfold execute, bind. rewrite conn_execute_healthy by done.
  by rewrite E.
Qed.

(** A property of the tables that a statement keeps is kept, on the
    committed tables and on the view, by running the statement through
    [Database.execute] or alone in a [transaction], whatever the store
    does. *)
Lemma execute_keeps (P : tables → Prop) (stmt : dml) c :
  (∀ t n t', stmt t = Ok (n, t') → P t → P t') →
  P (disk c) → P (view c) →
  P (disk (after (execute stmt) c)) ∧ P (view (after (execute stmt) c)).
Proof.
  intros Hs Hd Hv. unfold after, execute, bind.
  destruct (conn_execute stmt c) as [[n|e] c1] eqn:E;
    apply conn_execute_inv in E as [D X]; simpl.
  - destruct X as (t & S & T). rewrite (view_txn _ _ T).
    unfold view; simpl. split; eapply Hs; eauto.
  - rewrite (view_txn _ _ X), D. done.
Qed.

Lemma select_keeps {A} (P : tables → Prop) (q : tables → A) c :
  P (disk c) → P (view c) →
  P (disk (after (conn_select q) c)) ∧ P (view (after (conn_select q) c)).
Proof.
  intros Hd Hv. unfold after.
  destruct (conn_select q c) as [r c1] eqn:E.
  apply conn_select_inv in E as (D & T & _). simpl.
  unfold view. rewrite D, T. done.
Qed.

Lemma transaction_keeps (P : tables → Prop) (stmt : dml) c :
  (∀ t n t', stmt t = Ok (n, t') → P t → P t') →
  P (disk c) →
  let c' := after (transaction (n <- conn_execute stmt ;; ret n)) c in
  P (disk c') ∧ P (view c').
Proof.
  intros Hs Hd. unfold after.
  destruct (transaction _ c) as [r c'] eqn:E. simpl.
  apply transaction_inv in E as (T & c1 & E1 & _ & D).
  assert (P (disk c')) as Hd'; [|split; [done|by rewrite (view_idle _ T)]].
  rewrite D. clear D. unfold bind in E1.
  destruct (conn_begin c) as [[[]|e] c0] eqn:E0;
    apply conn_begin_inv in E0 as [D0 X0].
  2: { injection E1 as <- <-. by rewrite D0. }
  destruct X0 as [T0 T0'].
  destruct (conn_execute stmt c0) as [[n|e] c2] eqn:E2;
    apply conn_execute_inv in E2 as [D2 X2].
  - unfold ret in E1. injection E1 as <- <-.
    destruct X2 as (t & S & T2). rewrite (view_txn _ _ T2).
    rewrite (view_txn _ _ T0') in S. eapply Hs; eauto.
  - injection E1 as <- <-. by rewrite D2, D0.
Qed.

End DatabaseFacts.

(** * Facts about the ledger *)

Module LedgerFacts.
Import Database EconomyRepository DatabaseFacts.

Lemma healthy_conn d t f : Forall (fun b => b = false) f → healthy (Conn d t f).
Proof. done. Qed.

Lemma Forall_tail {A} (P : A → Prop) l : Forall P l → Forall P (tail l).
Proof. destruct l; simpl; [done|]. by inversion 1. Qed.

#[local] Hint Resolve healthy_conn Forall_tail : core.

Ltac run_stmt :=
  first [ rewrite conn_execute_healthy by auto 10
        | rewrite conn_select_healthy by auto 10
        | rewrite conn_begin_healthy by (auto 10 || done) ];
  unfold view; simpl.

Lemma sql_add_exact v d :
  int64 (v + d) → sql_add v false d = (v + d, false).
Proof. intros H. unfold sql_add. simpl. by rewrite bool_decide_true. Qed.

(** On a healthy, idle connection, for a registered user and a delta
    that leaves the balance an INTEGER, the unit commits the three
    writes together and returns the balance it read back. *)
Lemma apply_transaction_spec c now u delta reason gk md :
  healthy c → idle c → u ∈ users (disk c) →
  int64 delta → integer_balance u (disk c) →
  int64 (balance_of u (disk c) + delta) →
  ∃ c' a,
    apply_transaction now u delta reason gk md c
      = (Ok (balance_of u (disk c) + delta), c')
    ∧ healthy c' ∧ idle c'
    ∧ bean_accounts (disk c') !! u = Some a
    ∧ balance a = balance_of u (disk c) + delta
    ∧ (∀ v, v ≠ u → bean_accounts (disk c') !! v = bean_accounts (disk c) !! v)
    ∧ bean_transactions (disk c') =
        bean_transactions (disk c) ++
          [BeanTransaction (bean_transactions_seq (disk c) + 1) u delta reason gk md now]
    ∧ users (disk c') = users (disk c)
    ∧ active_game_sessions (disk c') = active_game_sessions (disk c)
    ∧ balance_real a = false.
Proof.
  destruct c as [d t f]. unfold healthy, idle, integer_balance; simpl.
  intros Hf -> Hu Hd Hint Hfit.
  unfold apply_transaction, apply_transaction_block, transaction, bind,
    balance_of, select_balance in *.
  run_stmt. run_stmt.
  unfold insert_or_ignore_account.
  destruct (bean_accounts d !! u) as [a|] eqn:Ha; simpl in *.
  - run_stmt. unfold insert_transaction. rewrite !decide_True by done. simpl.
    run_stmt. unfold update_balance; simpl. rewrite decide_True by done.
    rewrite Ha. simpl.
    run_stmt. unfold select_balance, ret; simpl.
    rewrite lookup_alter_eq, Ha. simpl.
    unfold add_to_balance. rewrite (Hint a eq_refl), sql_add_exact by done. simpl.
    eexists _, _. split; [reflexivity|]. simpl.
    rewrite lookup_alter_eq, Ha. simpl.
    rewrite (Hint a eq_refl), sql_add_exact by done.
    repeat split; auto 10.
    intros v Hv. by rewrite lookup_alter_ne.
  - rewrite decide_True by done. simpl.
    run_stmt. unfold insert_transaction. simpl. rewrite !decide_True by done. simpl.
    run_stmt. unfold update_balance; simpl. rewrite decide_True by done.
    rewrite lookup_insert_eq. simpl.
    run_stmt. unfold select_balance, ret; simpl.
    rewrite lookup_alter_eq, lookup_insert_eq. simpl.
    unfold add_to_balance. simpl. rewrite sql_add_exact by done. simpl.
    eexists _, _. split; [reflexivity|]. simpl.
    rewrite lookup_alter_eq, lookup_insert_eq. simpl.
    rewrite sql_add_exact by done.
    repeat split; auto 10.
    intros v Hv. by rewrite lookup_alter_ne, lookup_insert_ne.
Qed.

Lemma rows_of_snoc u r t t' :
  bean_transactions t' = bean_transactions t ++ [r] →
  tx_user_id r = u →
  rows_of u t' = rows_of u t ++ [r].
Proof.
  intros E Hr. unfold rows_of. rewrite E, filter_app. f_equal.
  rewrite filter_cons_True by done. done.
Qed.

Lemma rows_of_snoc_ne u r t t' :
  bean_transactions t' = bean_transactions t ++ [r] →
  tx_user_id r ≠ u →
  rows_of u t' = rows_of u t.
Proof.
  intros E Hr. unfold rows_of. rewrite E, filter_app.
  rewrite filter_cons_False by done. simpl. by rewrite app_nil_r.
Qed.

Lemma sum_deltas_snoc l r : sum_deltas (l ++ [r]) = sum_deltas l + tx_delta r.
Proof. unfold sum_deltas. induction l as [|x l IH]; simpl; lia. Qed.

(** One step of a run of credits: the balance moves by [delta] and the
    account gains one transaction row. *)
Lemma apply_transaction_step c now u delta reason gk md :
  healthy c → idle c → u ∈ users (disk c) →
  int64 delta → integer_balance u (disk c) →
  int64 (balance_of u (disk c) + delta) →
  let c' := after (apply_transaction now u delta reason gk md) c in
  healthy c' ∧ idle c' ∧ u ∈ users (disk c')
  ∧ integer_balance u (disk c')
  ∧ balance_of u (disk c') = balance_of u (disk c) + delta
  ∧ length (rows_of u (disk c')) = S (length (rows_of u (disk c))).
Proof.
  intros Hh Hi Hu Hd Hint Hfit.
  destruct (apply_transaction_spec c now u delta reason gk md Hh Hi Hu Hd Hint Hfit)
    as (c' & a & E & Hh' & Hi' & Ha & Hb & _ & Htx & Hus & _ & Hreal).
  unfold after. rewrite E. simpl. split; [done|]. split; [done|].
  split; [by rewrite Hus|]. split; [|split].
  - intros a' Ha'. congruence.
  - unfold balance_of at 1, select_balance. rewrite Ha. simpl. done.
  - rewrite (rows_of_snoc u _ _ _ Htx) by done.
    rewrite length_app. simpl. lia.
Qed.

Lemma get_balance_existing c now u a :
  healthy c → bean_accounts (view c) !! u = Some a →
  get_balance now u c = (Ok (balance a), Conn (disk c) (txn c) (tail (faults c))).
Proof.
  intros Hh Ha. unfold get_balance, fetchone, bind.
  rewrite conn_select_healthy by done.
  unfold select_balance. rewrite Ha. done.
Qed.

(** C1, as the code has it. [apply_transaction], run to its end on a
    healthy and idle connection, for the account of a registered user
    whose balance is an INTEGER and a [delta] that can be bound and
    leaves the balance within the signed 64-bit range, does all of this
    in one atomic unit: the account row exists afterwards, exactly one
    transaction row carrying [delta] is appended, the balance is the
    former balance plus [delta] (0 plus [delta] for a new row) and still
    an INTEGER, and the value returned is that balance, read inside the
    unit; nothing else is touched.  Hence three calls of +5, one after
    another, on an account that starts at balance 0 without transaction
    rows leave balance 15, read by [get_balance], and exactly 3
    transaction rows of the account. *)
Theorem apply_transaction_atomic_unit c now u delta reason gk md :
  healthy c → idle c → u ∈ users (disk c) →
  int64 delta → integer_balance u (disk c) →
  int64 (balance_of u (disk c) + delta) →
  (∃ c' a,
    apply_transaction now u delta reason gk md c
      = (Ok (balance_of u (disk c) + delta), c')
    ∧ healthy c' ∧ idle c'
    ∧ bean_accounts (disk c') !! u = Some a
    ∧ balance a = balance_of u (disk c) + delta
    ∧ (∀ v, v ≠ u → bean_accounts (disk c') !! v = bean_accounts (disk c) !! v)
    ∧ bean_transactions (disk c') =
        bean_transactions (disk c) ++
          [BeanTransaction (bean_transactions_seq (disk c) + 1) u delta reason gk md now]
    ∧ users (disk c') = users (disk c)
    ∧ active_game_sessions (disk c') = active_game_sessions (disk c)
    ∧ balance_real a = false)
  ∧ (balance_of u (disk c) = 0 → rows_of u (disk c) = [] →
     ∀ now1 now2 now3 now4,
       let c3 :=
         after (apply_transaction now3 u 5 "reward" None None)
           (after (apply_transaction now2 u 5 "reward" None None)
              (after (apply_transaction now1 u 5 "reward" None None) c)) in
       fst (get_balance now4 u c3) = Ok 15
       ∧ balance_of u (disk c3) = 15
       ∧ length (rows_of u (disk c3)) = 3%nat).
Proof.
  intros Hh Hi Hu Hd Hint Hfit. split; [by apply apply_transaction_spec|].
  intros Hb Hr now1 now2 now3 now4.
  assert (H5 : int64 5) by (unfold int64; lia).
  destruct (apply_transaction_step c now1 u 5 "reward" None None Hh Hi Hu H5 Hint)
    as (Hh1 & Hi1 & Hu1 & Hint1 & Hb1 & Hr1); [unfold int64; lia|].
  set (c1 := after (apply_transaction now1 u 5 "reward" None None) c) in *.
  destruct (apply_transaction_step c1 now2 u 5 "reward" None None Hh1 Hi1 Hu1 H5 Hint1)
    as (Hh2 & Hi2 & Hu2 & Hint2 & Hb2 & Hr2); [unfold int64; lia|].
  set (c2 := after (apply_transaction now2 u 5 "reward" None None) c1) in *.
  destruct (apply_transaction_step c2 now3 u 5 "reward" None None Hh2 Hi2 Hu2 H5 Hint2)
    as (Hh3 & Hi3 & Hu3 & Hint3 & Hb3 & Hr3); [unfold int64; lia|].
  set (c3 := after (apply_transaction now3 u 5 "reward" None None) c2) in *.
  simpl.
  assert (Hbal : balance_of u (disk c3) = 15) by lia.
  split; [|split; [done|]].
  - unfold balance_of, select_balance in Hbal.
    destruct (bean_accounts (disk c3) !! u) as [a|] eqn:Ha; simpl in Hbal; [|lia].
    rewrite (get_balance_existing c3 now4 u a); [simpl; by rewrite Hbal|done|].
    unfold view. rewrite Hi3. done.
  - rewrite Hr3, Hr2, Hr1, Hr. done.
Qed.

(** The block never commits; when it returns, the open transaction
    holds the tables after its three writes, and the value is the
    balance read from them. *)
Lemma apply_transaction_block_inv now u delta reason gk md c r c' :
  apply_transaction_block now u delta reason gk md c = (r, c') →
  disk c' = disk c
  ∧ match r with
    | Ok b =>
        ∃ n1 t1 n2 t2 n3 t3,
          insert_or_ignore_account now u (view c) = Ok (n1, t1)
          ∧ insert_transaction now u delta reason gk md t1 = Ok (n2, t2)
          ∧ update_balance now delta u t2 = Ok (n3, t3)
          ∧ txn c' = Some t3
          ∧ b = balance_of u t3
    | Raise _ => True
    end.
Proof.
  unfold apply_transaction_block, bind.
  destruct (conn_execute _ c) as [[n1|e1] c1] eqn:E1;
    apply conn_execute_inv in E1 as [D1 X1].
  2: { intros [= <- <-]. done. }
  destruct X1 as (t1 & S1 & T1).
  destruct (conn_execute _ c1) as [[n2|e2] c2] eqn:E2;
    apply conn_execute_inv in E2 as [D2 X2].
  2: { intros [= <- <-]. split; [congruence|done]. }
  destruct X2 as (t2 & S2 & T2). rewrite (view_txn _ _ T1) in S2.
  destruct (conn_execute _ c2) as [[n3|e3] c3] eqn:E3;
    apply conn_execute_inv in E3 as [D3 X3].
  2: { intros [= <- <-]. split; [congruence|done]. }
  destruct X3 as (t3 & S3 & T3). rewrite (view_txn _ _ T2) in S3.
  destruct (conn_select _ c3) as [[row|e4] c4] eqn:E4;
    apply conn_select_inv in E4 as (D4 & T4 & X4).
  2: { intros [= <- <-]. split; [congruence|done]. }
  unfold ret. intros [= <- <-]. split; [congruence|].
  exists n1, t1, n2, t2, n3, t3. repeat split; try done; [congruence|].
  subst row. rewrite (view_txn _ _ T3). done.
Qed.

Lemma bind_begin_inv {A} (body : io A) c r c' :
  (∀ c1 r1 c2, body c1 = (r1, c2) → disk c2 = disk c1) →
  (_ <- conn_begin ;; body) c = (r, c') →
  disk c' = disk c
  ∧ match r with
    | Ok a => ∃ c1, txn c = None ∧ txn c1 = Some (disk c) ∧ body c1 = (Ok a, c')
    | Raise _ => True
    end.
Proof.
  intros Hbody. unfold bind.
  destruct (conn_begin c) as [[[]|e] c1] eqn:E;
    apply conn_begin_inv in E as [D X].
  2: { intros [= <- <-]. done. }
  destruct X as [X1 X2]. intros E. pose proof (Hbody _ _ _ E) as D'.
  split; [congruence|]. destruct r; [|done]. eauto.
Qed.




(** The three writes of the unit keep the invariant of the ledger, when
    the balance stays an INTEGER. *)
Lemma unit_writes_inv now u delta reason gk md t n1 t1 n2 t2 n3 t3 :
  insert_or_ignore_account now u t = Ok (n1, t1) →
  insert_transaction now u delta reason gk md t1 = Ok (n2, t2) →
  update_balance now delta u t2 = Ok (n3, t3) →
  (int64 delta → int64 (balance_of u t + delta)) →
  ledger_ok t → ledger_ok t3.
Proof.
  unfold insert_or_ignore_account, insert_transaction, update_balance.
  intros S1 S2 S3 Hfit [Hinv Hint].
  assert (∃ a, bean_accounts t1 !! u = Some a
               ∧ balance a = balance_of u t
               ∧ balance_real a = false
               ∧ (∀ w, w ≠ u → bean_accounts t1 !! w = bean_accounts t !! w)
               ∧ bean_transactions t1 = bean_transactions t)
    as (a & Ha & Hb & Hreal & Hother & Htx).
  { unfold balance_of, select_balance.
    destruct (bean_accounts t !! u) as [a|] eqn:Ha.
    - injection S1 as <- <-. exists a. rewrite Ha.
      repeat split; try done. by apply (Hint u).
    - destruct (decide (u ∈ users t)); [|done]. injection S1 as <- <-.
      exists (BeanAccount 0 false now now). simpl.
      split; [by rewrite lookup_insert_eq|]. do 2 (split; [done|]).
      split; [|done].
      intros w Hw. by rewrite lookup_insert_ne. }
  destruct (decide (int64 delta)) as [Hd|]; [|done].
  destruct (decide (u ∈ users t1)); [|done]. injection S2 as <- <-.
  simpl in S3. rewrite Ha in S3. injection S3 as <- <-.
  assert (add_to_balance now delta a
          = BeanAccount (balance_of u t + delta) false (acc_created_at a) now)
    as Hadd.
  { unfold add_to_balance. rewrite Hreal, Hb, sql_add_exact by auto. done. }
  split.
  - intros v. unfold balance_of, select_balance, rows_of. simpl.
    rewrite Htx, filter_app.
    destruct (decide (v = u)) as [->|Hv].
    + rewrite lookup_alter_eq, Ha. simpl. rewrite Hadd. simpl.
      rewrite filter_cons_True by done. rewrite filter_nil.
      rewrite sum_deltas_snoc. simpl.
      specialize (Hinv u). unfold rows_of in Hinv. lia.
    + rewrite lookup_alter_ne by done. rewrite Hother by done.
      rewrite filter_cons_False by (simpl; congruence).
      rewrite filter_nil, app_nil_r. apply (Hinv v).
  - intros v b. simpl.
    destruct (decide (v = u)) as [->|Hv].
    + rewrite lookup_alter_eq, Ha. simpl. rewrite Hadd. by intros [= <-].
    + rewrite lookup_alter_ne by done. rewrite Hother by done. apply (Hint v).
Qed.

Lemma apply_transaction_inv now u delta reason gk md c :
  conn_inv c → fits (ApplyTransaction u delta reason gk md) c →
  conn_inv (after (apply_transaction now u delta reason gk md) c).
Proof.
  intros [Hd _] Hfit. unfold after.
  destruct (apply_transaction now u delta reason gk md c) as [r c'] eqn:E.
  simpl. unfold apply_transaction in E.
  apply transaction_inv in E as (T & c1 & E1 & _ & D).
  apply bind_begin_inv in E1 as [D1 X].
  2: { intros c2 r2 c3 E2. by apply apply_transaction_block_inv in E2 as [? _]. }
  assert (ledger_ok (disk c')) as Hd'.
  { rewrite D. destruct r as [b|e]; [|by rewrite D1].
    destruct X as (c0 & T0 & T1 & E0).
    apply apply_transaction_block_inv in E0
      as (_ & n1 & t1 & n2 & t2 & n3 & t3 & S1 & S2 & S3 & T3 & _).
    rewrite (view_txn _ _ T3). rewrite (view_txn _ _ T1) in S1.
    by eapply unit_writes_inv. }
  split; [done|]. by rewrite (view_idle _ T).
Qed.

Lemma insert_or_ignore_account_inv now u t n t' :
  insert_or_ignore_account now u t = Ok (n, t') →
  ledger_ok t → ledger_ok t'.
Proof.
  unfold insert_or_ignore_account. intros S [Hinv Hint].
  destruct (bean_accounts t !! u) as [a|] eqn:Ha; [by injection S as <- <-|].
  destruct (decide (u ∈ users t)); [|done]. injection S as <- <-.
  split.
  - intros v. specialize (Hinv v). revert Hinv.
    unfold balance_of, select_balance, rows_of. simpl.
    destruct (decide (v = u)) as [->|Hv].
    + by rewrite lookup_insert_eq, Ha.
    + by rewrite lookup_insert_ne.
  - intros v b. simpl.
    destruct (decide (v = u)) as [->|Hv].
    + rewrite lookup_insert_eq. by intros [= <-].
    + rewrite lookup_insert_ne by done. apply (Hint v).
Qed.

Lemma get_balance_inv now u c :
  conn_inv c → conn_inv (after (get_balance now u) c).
Proof.
  intros [Hd Hv]. unfold after, get_balance, fetchone, bind.
  destruct (conn_select _ c) as [[row|e] c1] eqn:E1;
    apply conn_select_inv in E1 as (D1 & T1 & X1); simpl.
  2: { split; [by rewrite D1|]. unfold view. by rewrite D1, T1. }
  assert (view c1 = view c) as V1 by (unfold view; by rewrite D1, T1).
  destruct row as [b|]; simpl.
  { split; [by rewrite D1|by rewrite V1]. }
  unfold execute, bind.
  destruct (conn_execute _ c1) as [[n|e] c2] eqn:E2;
    apply conn_execute_inv in E2 as [D2 X2]; simpl.
  - destruct X2 as (t & S & T2). rewrite (view_txn _ _ T2).
    rewrite V1 in S. apply insert_or_ignore_account_inv in S; [|done].
    split; done.
  - split; [by rewrite D2, D1|]. rewrite (view_txn _ _ X2). by rewrite V1.
Qed.

Lemma ledger_inv_balances_match t : ledger_inv t → balances_match t.
Proof.
  intros Hinv u a Ha. specialize (Hinv u).
  unfold balance_of, select_balance in Hinv. by rewrite Ha in Hinv.
Qed.

Lemma run_inv now o c : conn_inv c → fits o c → conn_inv (run now o c).
Proof.
  destruct o; simpl; [intros ? _; by apply get_balance_inv|apply apply_transaction_inv].
Qed.

(** C2, as the code has it. The invariant of the ledger holds after
    every run of ledger operations ([get_balance] and
    [apply_transaction], one after another, whether they return or
    raise, whatever the store's failures) that starts where it holds
    with INTEGER balances, and in which every credit or debit that can
    be bound leaves the balance it adds to within the signed 64-bit
    range: for every account row, the balance is the sum of the deltas
    of the committed transaction rows of that account. *)
Theorem balance_is_sum_of_deltas ops c :
  conn_inv c → all_fit ops c →
  conn_inv (run_all ops c) ∧ balances_match (disk (run_all ops c)).
Proof.
  intros Hc Hfit.
  assert (conn_inv (run_all ops c)) as H.
  { unfold run_all. revert c Hc Hfit.
    induction ops as [|[now o] ops IH]; intros c Hc Hfit; simpl; [done|].
    destruct Hfit as [Ho Hfit]. apply IH; [by apply run_inv|done]. }
  split; [done|]. apply ledger_inv_balances_match, H.
Qed.

Lemma empty_ledger_inv us sessions f :
  conn_inv (Conn (Tables us ∅ [] 0 sessions) None f).
Proof. split; (split; [intros u; done|intros u a; done]). Qed.

Lemma get_balance_missing c now u :
  healthy c → idle c → u ∈ users (disk c) →
  bean_accounts (disk c) !! u = None →
  get_balance now u c =
    (Ok 0, Conn (set_bean_accounts (insert u (BeanAccount 0 false now now)) (disk c))
                None (tail (tail (faults c)))).
Proof.
  destruct c as [d t f]. unfold healthy, idle; simpl. intros Hf -> Hu Ha.
  unfold get_balance, fetchone, execute, bind.
  run_stmt. unfold select_balance at 1. rewrite Ha. simpl.
  run_stmt. unfold insert_or_ignore_account. rewrite Ha.
  rewrite decide_True by done. done.
Qed.


(** A task that is alone on the loop is the call run to its end. *)
Lemma run_alone_apply_transaction now u delta reason gk md c :
  Tasks.run_alone (Tasks.apply_transaction now u delta reason gk md) c
  = apply_transaction now u delta reason gk md c.
Proof.
  unfold apply_transaction, transaction, apply_transaction_block, bind.
  unfold Tasks.apply_transaction, Tasks.transaction, Tasks.await. simpl.
  destruct (conn_begin c) as [[[]|e0] c0]; simpl; [|done].
  destruct (conn_execute _ c0) as [[n1|e1] c1]; simpl; [|done].
  destruct (conn_execute _ c1) as [[n2|e2] c2]; simpl; [|done].
  destruct (conn_execute _ c2) as [[n3|e3] c3]; simpl; [|done].
  destruct (conn_select _ c3) as [[row|e4] c4]; simpl; done.
Qed.

Lemma run_alone_get_balance now u c :
  Tasks.run_alone (Tasks.get_balance now u) c = get_balance now u c.
Proof.
  unfold get_balance, fetchone, execute, bind.
  unfold Tasks.get_balance, Tasks.await. simpl.
  destruct (conn_select _ c) as [[[b|]|e0] c0]; simpl; try done.
  destruct (conn_execute _ c0) as [[n1|e1] c1]; simpl; done.
Qed.

(** Gathered alone, a task ends after as many turns as it has awaits,
    with the result and the connection of the call run to its end. *)
Lemma gather_alone {A} (m : Tasks.coro A) c :
  ∃ n, ∀ k, (n ≤ k)%nat →
    Tasks.gather k [m] c
    = ([match fst (Tasks.run_alone m c) with
        | Ok a => Tasks.Return a
        | Raise e => Tasks.Throw e
        end], snd (Tasks.run_alone m c)).
Proof.
  revert c. induction m as [a|e|B call k IH]; intros c.
  - exists 0%nat. intros n _. induction n as [|n IHn]; simpl; done.
  - exists 0%nat. intros n _. induction n as [|n IHn]; simpl; done.
  - simpl. destruct (call c) as [r c'] eqn:E.
    destruct (IH r c') as [n Hn]. exists (S n). intros [|j] Hj; [lia|].
    simpl. rewrite E. apply Hn. lia.
Qed.


Lemma steady_ready :
  healthy Samples.steady ∧ idle Samples.steady
  ∧ 7 ∈ users (disk Samples.steady).
Proof.
  split; [constructor|]. split; [reflexivity|].
  change (7 ∈ ({[7]} : gset Z)). by apply elem_of_singleton_2.
Defined.

Lemma steady_fits :
  int64 5 ∧ integer_balance 7 (disk Samples.steady)
  ∧ int64 (balance_of 7 (disk Samples.steady) + 5).
Proof.
  split; [unfold int64; lia|]. split; [intros a; done|].
  unfold int64. change (balance_of 7 (disk Samples.steady)) with 0. lia.
Defined.

Lemma apply_transaction_atomic_unit_witness :
  (healthy Samples.steady ∧ idle Samples.steady
   ∧ 7 ∈ users (disk Samples.steady))
  ∧ (int64 5 ∧ integer_balance 7 (disk Samples.steady)
     ∧ int64 (balance_of 7 (disk Samples.steady) + 5))
  ∧ fst (apply_transaction "2024-01-01 00:00:00" 7 5 "reward" None None
           Samples.steady) = Ok 5.
Proof.
  split; [exact steady_ready|]. split; [exact steady_fits|].
  destruct steady_ready as (H1 & H2 & H3).
  destruct steady_fits as (H4 & H5 & H6).
  destruct (apply_transaction_atomic_unit Samples.steady
              "2024-01-01 00:00:00" 7 5 "reward" None None H1 H2 H3 H4 H5 H6)
    as [(c' & a & E & _) _].
  rewrite E. reflexivity.
Defined.

(** C1, counterexample.  The unit is not for every account and every
    integer delta: the account of a user without a row in [users] makes
    it raise; at the greatest INTEGER a credit of 2 returns 2^63, one
    short of the sum, and stores it as a REAL; a delta of 2^63 cannot
    be bound; and of three calls of +5 that are in flight together on
    the fresh account of [steady] the first returns 0 and the others
    raise, leaving one transaction row and no account row. *)
Lemma apply_transaction_not_for_every_input :
  fst (apply_transaction "2024-01-01 00:00:00" 8 5 "reward" None None
         Samples.steady) = Raise IntegrityError
  ∧ (balance_of 7 (disk Samples.brim) + 2 = 9223372036854775809
     ∧ fst (apply_transaction "2024-01-01 00:00:01" 7 2 "reward" None None
              Samples.brim) = Ok 9223372036854775808
     ∧ (balance_real <$>
          bean_accounts
            (disk (after (apply_transaction "2024-01-01 00:00:01" 7 2 "reward"
                            None None) Samples.brim)) !! 7) = Some true)
  ∧ fst (apply_transaction "2024-01-01 00:00:00" 7 9223372036854775808
           "reward" None None Samples.steady) = Raise OverflowError
  ∧ (Tasks.result <$>
       (Tasks.gather 7 (replicate 3 (Tasks.apply_transaction
                                       "2024-01-01 00:00:00" 7 5 "reward"
                                       None None))
          Samples.steady).1
       = [Some (Ok 0); Some (Raise OperationalError);
          Some (Raise OperationalError)]
     ∧ (Tasks.gather 7 (replicate 3 (Tasks.apply_transaction
                                       "2024-01-01 00:00:00" 7 5 "reward"
                                       None None))
          Samples.steady).2
       = Conn (Tables {[7]} ∅
                 [BeanTransaction 1 7 5 "reward" None None "2024-01-01 00:00:00"]
                 1 [])
              None []).
Proof. repeat split; vm_compute; reflexivity. Qed.

Lemma balance_is_sum_of_deltas_witness :
  (conn_inv Samples.failing_fourth
   ∧ all_fit [("2024-01-01 00:00:00"%string,
               ApplyTransaction 7 5 "reward" None None);
              ("2024-01-01 00:00:01"%string, GetBalance 7);
              ("2024-01-01 00:00:02"%string,
               ApplyTransaction 7 (-2) "shop" None None)]
             Samples.failing_fourth)
  ∧ balances_match
      (disk (run_all [("2024-01-01 00:00:00"%string,
                       ApplyTransaction 7 5 "reward" None None);
                      ("2024-01-01 00:00:01"%string, GetBalance 7);
                      ("2024-01-01 00:00:02"%string,
                       ApplyTransaction 7 (-2) "shop" None None)]
                     Samples.failing_fourth)).
Proof.
  assert (F : all_fit [("2024-01-01 00:00:00"%string,
               ApplyTransaction 7 5 "reward" None None);
              ("2024-01-01 00:00:01"%string, GetBalance 7);
              ("2024-01-01 00:00:02"%string,
               ApplyTransaction 7 (-2) "shop" None None)]
             Samples.failing_fourth).
  { simpl. split; [|split; [done|split; [|done]]]; intros _; vm_compute; split; congruence. }
  split; [split; [apply empty_ledger_inv|exact F]|].
  apply balance_is_sum_of_deltas; [apply empty_ledger_inv|exact F].
Defined.

(** C2, counterexample.  The invariant does not survive every
    operation.  On [brim] it holds, and after a credit of 2 the balance
    of the account is 2^63 while the deltas of its rows sum to
    2^63 + 1.  And after three credits of 5 that are in flight together
    on [steady], where it holds, [get_balance] creates the account row
    with balance 0 next to a transaction row of 5. *)
Lemma balance_differs_from_sum_of_deltas :
  (balance_of 7 (disk Samples.brim)
     = sum_deltas (rows_of 7 (disk Samples.brim))
   ∧ let c' := run "2024-01-01 00:00:01"
                 (ApplyTransaction 7 2 "reward" None None) Samples.brim in
     (balance <$> bean_accounts (disk c') !! 7) = Some 9223372036854775808
     ∧ sum_deltas (rows_of 7 (disk c')) = 9223372036854775809)
  ∧ (balance_of 7 (disk Samples.steady)
       = sum_deltas (rows_of 7 (disk Samples.steady))
     ∧ let c' := run "2024-01-01 00:00:01" (GetBalance 7)
                   (Tasks.gather 7
                      (replicate 3 (Tasks.apply_transaction
                                      "2024-01-01 00:00:00" 7 5 "reward"
                                      None None))
                      Samples.steady).2 in
       (balance <$> bean_accounts (disk c') !! 7) = Some 0
       ∧ sum_deltas (rows_of 7 (disk c')) = 5).
Proof. repeat split; vm_compute; reflexivity. Qed.



End LedgerFacts.

(** * Facts about the session store *)

Module SessionFacts.
Import Database GamesRepository DatabaseFacts.

(** The WHERE clause of the scope, in three-valued logic, says what the
    specification says. *)
Lemma where_active_in_scope_spec p l th g r :
  where_active_in_scope p l th g r = true ↔ active_in_scope p l th g r.
Proof.
  unfold where_active_in_scope, active_in_scope, thread_matches,
    sql_eq, sql_is.
  destruct (bool_decide_reflect (s_platform r = p)) as [H1|H1];
    destruct (bool_decide_reflect (s_location_id r = l)) as [H2|H2];
    destruct (bool_decide_reflect (s_game_key r = g)) as [H4|H4];
    destruct (bool_decide_reflect (s_status r = "active"%string)) as [H5|H5];
    destruct th as [th|], (s_thread_id r) as [rt|]; simpl;
    try destruct (bool_decide_reflect (Some rt = Some th)) as [H3|H3];
    try destruct (bool_decide_reflect (rt = th)) as [H6|H6];
    try destruct (bool_decide_reflect (Some rt = @None string)) as [H3|H3];
    try destruct (bool_decide_reflect (@None string = Some th)) as [H3|H3];
    try destruct (bool_decide_reflect (@None string = None)) as [H3|H3];
    simpl; split; try done; try (intros (?&?&?&?&?); congruence);
    intros _; repeat split; congruence.
Qed.

Lemma head_filter_None {A} (P : A → Prop) `{∀ x, Decision (P x)} (l : list A) :
  head (filter P l) = None ↔ ∀ x, x ∈ l → ¬ P x.
Proof.
  induction l as [|y l IH]; simpl.
  - split; [|done]. intros _ x Hx. by apply elem_of_nil in Hx.
  - rewrite filter_cons. destruct (decide (P y)) as [Hy|Hy]; simpl.
    + split; [done|]. intros Hall. exfalso. apply (Hall y); [left|done].
    + rewrite IH. split.
      * intros Hall x [->|Hx]%elem_of_cons; auto.
      * intros Hall x Hx. apply Hall. by right.
Qed.

Lemma head_filter_unique {A} (P : A → Prop) `{∀ x, Decision (P x)} (l : list A) x :
  x ∈ l → P x → (∀ y, y ∈ l → P y → y = x) →
  head (filter P l) = Some x.
Proof.
  intros Hx HP Hu.
  destruct (head (filter P l)) as [y|] eqn:E.
  - f_equal. apply head_Some_elem_of in E.
    apply list_elem_of_filter in E as [? ?]. by apply Hu.
  - exfalso. rewrite head_filter_None in E. by apply (E x).
Qed.

(** C7. On a healthy connection [get_active_session] returns, and
    leaves the connection's tables as they are.  A session it returns
    is active and of the scope asked for, the thread matched tri-state
    (absent with absent, present with the same present), and carries,
    field by field, the ten columns of a row of the table that is such a
    session; the result is [None] exactly when the table holds no such
    row; and when the table holds exactly one such row, the session
    built from that row is returned. *)
Theorem get_active_session_spec c p l th g :
  healthy c →
  ∃ res c',
    get_active_session p l th g c = (Ok res, c')
    ∧ disk c' = disk c ∧ txn c' = txn c
    ∧ (∀ s, res = Some s →
         (platform s = p ∧ location_id s = l ∧ thread_id s = th
          ∧ game_key s = g ∧ status s = "active"%string)
         ∧ ∃ r, r ∈ active_game_sessions (view c)
              ∧ active_in_scope p l th g r
              ∧ id s = s_id r ∧ platform s = s_platform r
              ∧ location_id s = s_location_id r
              ∧ thread_id s = s_thread_id r
              ∧ game_key s = s_game_key r ∧ status s = s_status r
              ∧ state_json s = s_state r ∧ created_at s = s_created_at r
              ∧ updated_at s = s_updated_at r
              ∧ expires_at s = s_expires_at r)
    ∧ (res = None ↔
         ∀ r, r ∈ active_game_sessions (view c) → ¬ active_in_scope p l th g r)
    ∧ (∀ r, r ∈ active_game_sessions (view c) → active_in_scope p l th g r →
         (∀ r', r' ∈ active_game_sessions (view c) →
                active_in_scope p l th g r' → r' = r) →
         res = Some (MkActiveGameSession
                       (s_id r) (s_platform r) (s_location_id r)
                       (s_thread_id r) (s_game_key r) (s_status r)
                       (s_state r) (s_created_at r) (s_updated_at r)
                       (s_expires_at r))).
Proof.
  intros Hh. unfold get_active_session, fetchone, bind.
  rewrite conn_select_healthy by done.
  unfold select_active_session.
  set (rows := active_game_sessions (view c)).
  set (P := fun r => where_active_in_scope p l th g r = true).
  assert (HP : ∀ r, P r ↔ active_in_scope p l th g r)
    by (intros r; apply where_active_in_scope_spec).
  destruct (head (filter P rows)) as [r|] eqn:E; unfold ret;
    eexists _, _; (split; [reflexivity|]); simpl;
    (split; [done|]); (split; [done|]).
  - apply head_Some_elem_of, list_elem_of_filter in E as [Hr Hin].
    apply HP in Hr.
    split; [|split].
    + intros s [= <-]. split.
      * destruct Hr as (H1 & H2 & H3 & H4 & H5). simpl.
        repeat split; try done.
        unfold thread_matches in H3. destruct th; done.
      * exists r. unfold session_of_row. simpl. repeat split; try done; apply Hr.
    + split; [done|]. intros Hall. exfalso. by apply (Hall r Hin).
    + intros r0 Hin0 Hr0 Hu. rewrite (Hu r Hin Hr). done.
  - split; [done|]. split.
    + split; [|done]. intros _ r Hin Hr.
      rewrite head_filter_None in E. apply (E r Hin). by rewrite HP.
    + intros r Hin Hr _. exfalso.
      rewrite head_filter_None in E. apply (E r Hin). by rewrite HP.
Qed.

Lemma get_active_session_spec_witness :
  healthy Samples.ended_and_active
  ∧ fst (get_active_session "discord" "chan-1" (Some "th-9"%string) "wordle"
           Samples.ended_and_active)
    = Ok (Some (MkActiveGameSession "s2" "discord" "chan-1"
                  (Some "th-9"%string) "wordle" "active" "[]"
                  "2024-01-01 00:06:00" "2024-01-01 00:06:00" None)).
Proof.
  assert (H : healthy Samples.ended_and_active) by constructor.
  split; [exact H|].
  destruct (get_active_session_spec Samples.ended_and_active
              "discord" "chan-1" (Some "th-9"%string) "wordle" H)
    as (res & c' & E & _ & _ & _ & _ & Hu).
  rewrite E. simpl. f_equal.
  apply (Hu Samples.thread_row).
  - right. left.
  - repeat split.
  - intros r' [->|[->|Hin]%elem_of_cons]%elem_of_cons.
    + intros (_ & _ & _ & _ & Hs). discriminate Hs.
    + done.
    + by apply elem_of_nil in Hin.
Defined.

(** *** Upsert *)





(** On a row that carries the id, the statement is an update in place. *)
Lemma insert_on_conflict_lookup new upd rows i r :
  NoDup (map s_id rows) →
  rows !! i = Some r → s_id r = s_id new →
  insert_on_conflict new upd rows = <[i := upd r]> rows.
Proof.
  revert i. induction rows as [|x rows IH]; intros i Hnd Hi Hid; [done|].
  apply NoDup_cons in Hnd as [Hx Hnd]. simpl.
  destruct i as [|i]; simpl in *.
  - injection Hi as ->. by rewrite decide_True.
  - rewrite decide_False.
    + f_equal. by apply IH.
    + intros E. apply Hx. rewrite E, <- Hid.
      apply list_elem_of_fmap. exists r. split; [done|].
      by eapply list_elem_of_lookup_2.
Qed.


Lemma upsert_active_session_healthy {State} (json_dumps : State → string)
    now i p l th g st ex c :
  healthy c →
  upsert_active_session json_dumps now i p l th g st ex c =
    (Ok tt,
     Conn (set_active_game_sessions
             (insert_on_conflict
                (GameSession i p l th g "active" (json_dumps st) now now ex)
                (do_update now (json_dumps st) ex)) (view c))
          None (tail (faults c))).
Proof.
  intros Hh. unfold upsert_active_session.
  by rewrite (execute_healthy _ c _ _ Hh eq_refl).
Qed.


(** C10. When the id already has a row, on a healthy connection whose
    session table respects its primary key, [upsert_active_session]
    rewrites that row in place: status, state, updated_at and
    expires_at take the new values, while id, platform, location_id,
    thread_id, game_key and created_at keep those of the row, whatever
    scope the call passes; no other row and no other table changes. *)
Theorem upsert_active_session_frame {State} (json_dumps : State → string)
    c k r now i p l th g st ex :
  healthy c → pk_ok (view c) →
  active_game_sessions (view c) !! k = Some r → s_id r = i →
  ∃ c',
    upsert_active_session json_dumps now i p l th g st ex c = (Ok tt, c')
    ∧ active_game_sessions (disk c') =
        <[k := GameSession (s_id r) (s_platform r) (s_location_id r)
                 (s_thread_id r) (s_game_key r) "active" (json_dumps st)
                 (s_created_at r) now ex]> (active_game_sessions (view c))
    ∧ users (disk c') = users (view c)
    ∧ bean_accounts (disk c') = bean_accounts (view c)
    ∧ bean_transactions (disk c') = bean_transactions (view c).
Proof.
  intros Hh Hpk Hk Hid.
  rewrite upsert_active_session_healthy by done.
  eexists. split; [done|]. simpl. split; [|done].
  by rewrite (insert_on_conflict_lookup _ _ _ k r Hpk Hk).
Qed.

(** *** The life cycle *)

(** C5, counterexample.  The session s1 is ended; an upsert with the
    id s1 returns it to active. *)
Lemma ended_not_terminal_under_upsert :
  status_of "s1" (disk Samples.one_ended) = Some "ended"%string
  ∧ status_of "s1"
      (disk (run "2024-01-01 00:10:00"
                 (UpsertActive "s1" "discord" "chan-1" None "wordle" "{}" None)
                 Samples.one_ended))
    = Some "active"%string.
Proof. split; reflexivity. Qed.

Lemma status_of_map i (f : game_session → game_session) t :
  (∀ r, s_id (f r) = s_id r) →
  (∀ r, s_id r = i → s_status r = "ended"%string → s_status (f r) = "ended"%string) →
  status_of i t = Some "ended"%string →
  status_of i (set_active_game_sessions (map f) t) = Some "ended"%string.
Proof.
  intros Hid Hst. unfold status_of. simpl.
  induction (active_game_sessions t) as [|r rows IH]; simpl; [done|].
  rewrite !filter_cons, Hid.
  destruct (decide (s_id r = i)) as [E|E]; simpl; [|done].
  intros [= Hs]. f_equal. by apply Hst.
Qed.

Lemma status_of_insert_other i new upd t :
  s_id new ≠ i → (∀ r, s_id (upd r) = s_id r) →
  status_of i (set_active_game_sessions (insert_on_conflict new upd) t)
    = match head (filter (fun r => s_id r = i) (active_game_sessions t)) with
      | Some r => if decide (s_id r = s_id new) then Some (s_status (upd r))
                  else Some (s_status r)
      | None => None
      end.
Proof.
  intros Hne Hupd. unfold status_of. simpl.
  induction (active_game_sessions t) as [|r rows IH]; simpl.
  - by rewrite filter_cons_False.
  - destruct (decide (s_id r = s_id new)) as [E|E].
    + rewrite !filter_cons, Hupd.
      destruct (decide (s_id r = i)) as [E'|E']; simpl; [congruence|].
      clear IH. induction rows as [|x rows IH]; simpl; [done|].
      rewrite !filter_cons. destruct (decide (s_id x = i)); simpl; [|done].
      rewrite decide_False by congruence. done.
    + rewrite !filter_cons.
      destruct (decide (s_id r = i)) as [E'|E']; simpl; [|done].
      by rewrite decide_False.
Qed.

Lemma status_of_upsert_same now i p l th g st ex t n t' :
  upsert_session now i p l th g st ex t = Ok (n, t') →
  status_of i t' = Some "active"%string.
Proof.
  unfold upsert_session. intros [= <- <-]. unfold status_of. simpl.
  induction (active_game_sessions t) as [|r rows IH]; simpl.
  - by rewrite filter_cons_True.
  - destruct (decide (s_id r = i)) as [E|E].
    + by rewrite filter_cons_True.
    + by rewrite filter_cons_False.
Qed.

Lemma upsert_session_keeps_ended now j p l th g st ex i t n t' :
  j ≠ i →
  upsert_session now j p l th g st ex t = Ok (n, t') →
  status_of i t = Some "ended"%string → status_of i t' = Some "ended"%string.
Proof.
  unfold upsert_session. intros Hne [= <- <-].
  rewrite status_of_insert_other; [|done..].
  unfold status_of.
  destruct (head _) as [r|] eqn:E; simpl; [|done].
  apply head_Some_elem_of, list_elem_of_filter in E as [E _].
  rewrite decide_False by (simpl; congruence). done.
Qed.

Lemma update_status_where_keeps_ended cond now st i t n t' :
  (∀ r, s_id r = i → s_status r = "ended"%string → cond r = true →
        st = "ended"%string) →
  update_status_where cond now st t = Ok (n, t') →
  status_of i t = Some "ended"%string → status_of i t' = Some "ended"%string.
Proof.
  unfold update_status_where. intros Hc [= <- <-].
  apply status_of_map.
  - intros r. by destruct (cond r).
  - intros r Hi Hs. destruct (cond r) eqn:E; [|done]. simpl.
    by apply (Hc r).
Qed.

Lemma run_keeps_ended now o i c :
  leaves_ended i o → ended i c → ended i (run now o c).
Proof.
  intros Ho [Hd Hv]. destruct o as [p l th g|j p l th g st ex|j st|p l th g st];
    simpl in *.
  - unfold after, get_active_session, fetchone, bind.
    destruct (conn_select _ c) as [[[r|]|e] c1] eqn:E;
      apply conn_select_inv in E as (D & T & _); simpl;
      unfold ended, view; by rewrite D, T.
  - apply (execute_keeps (fun t => status_of i t = Some "ended"%string));
      [|done..].
    intros t n t'. by apply upsert_session_keeps_ended.
  - apply (execute_keeps (fun t => status_of i t = Some "ended"%string));
      [|done..].
    intros t n t'. apply update_status_where_keeps_ended.
    intros r Hr _ Hc%bool_decide_eq_true. destruct Ho; congruence.
  - apply (transaction_keeps (fun t => status_of i t = Some "ended"%string));
      [|done].
    intros t n t'. apply update_status_where_keeps_ended.
    intros r _ Hs Hc%where_active_in_scope_spec.
    destruct Hc as (_ & _ & _ & _ & Hact). congruence.
Qed.

(** C5, amended.  A session that is ended stays ended through every run
    of operations of the store, whether they return or raise, as long as
    none of them is an upsert of that id or an [End] of that id with
    another status than ended; an upsert of that id, on a healthy
    connection, sets its status back to active. *)
Theorem ended_terminal_but_for_upsert i c :
  ended i c →
  (∀ ops, Forall (fun o => leaves_ended i (snd o)) ops →
          ended i (run_all ops c))
  ∧ (healthy c →
     ∀ now p l th g st ex,
       status_of i (disk (run now (UpsertActive i p l th g st ex) c))
         = Some "active"%string).
Proof.
  intros He. split.
  - intros ops Hops. unfold run_all. revert c He.
    induction Hops as [|[now o] ops Ho _ IH]; intros c He; simpl; [done|].
    apply IH. by apply run_keeps_ended.
  - intros Hh now p l th g st ex. simpl. unfold after.
    rewrite upsert_active_session_healthy by done. simpl.
    by eapply status_of_upsert_same.
Qed.

Lemma one_ended_ended : ended "s1" Samples.one_ended.
Proof. split; reflexivity. Defined.

Lemma ended_terminal_but_for_upsert_witness :
  ended "s1" Samples.one_ended
  ∧ ended "s1"
      (run_all [("2024-01-01 00:10:00"%string,
                 EndActiveInScope "discord" "chan-1" None "wordle" "ended");
                ("2024-01-01 00:11:00"%string,
                 UpsertActive "s2" "discord" "chan-1" None "wordle" "{}" None);
                ("2024-01-01 00:12:00"%string, End "s1" "ended")]
               Samples.one_ended).
Proof.
  split; [exact one_ended_ended|].
  apply (ended_terminal_but_for_upsert "s1" Samples.one_ended one_ended_ended).
  apply Forall_cons; split; [exact I|].
  apply Forall_cons; split; [simpl; discriminate|].
  apply Forall_cons; split; [by right|]. apply Forall_nil. exact I.
Defined.

Lemma one_ended_ready :
  healthy Samples.one_ended ∧ pk_ok (view Samples.one_ended).
Proof.
  split; [constructor|]. unfold pk_ok. simpl. apply NoDup_singleton.
Defined.


Lemma upsert_active_session_frame_witness :
  (healthy Samples.one_ended ∧ pk_ok (view Samples.one_ended))
  ∧ ∃ c',
      upsert_active_session (fun s : string => s) "2024-01-01 00:10:00"
        "s1" "telegram" "chan-2" (Some "th-9"%string) "unscramble" "[]" None
        Samples.one_ended = (Ok tt, c')
      ∧ active_game_sessions (disk c') =
          [GameSession "s1" "discord" "chan-1" None "wordle" "active" "[]"
                       "2024-01-01 00:00:00" "2024-01-01 00:10:00" None].
Proof.
  split; [exact one_ended_ready|].
  destruct one_ended_ready as [H1 H2].
  destruct (upsert_active_session_frame (fun s : string => s)
              Samples.one_ended 0%nat Samples.ended_row
              "2024-01-01 00:10:00" "s1" "telegram" "chan-2"
              (Some "th-9"%string) "unscramble" "[]" None H1 H2 eq_refl eq_refl)
    as (c' & E & Hrows & _).
  exists c'. split; [exact E|]. exact Hrows.
Defined.

End SessionFacts.

(** * Facts about the coalescing scheduler *)

Module PublisherFacts.
Import LeaderboardPublisher.

Lemma entries_app a b : entries (a ++ b) = entries a ++ entries b.
Proof. apply omap_app. Qed.

Lemma logged_app a b : logged (a ++ b) = logged a ++ logged b.
Proof. apply omap_app. Qed.

Lemma calls_app a b : calls (a ++ b) = calls a ++ calls b.
Proof. apply omap_app. Qed.

Ltac no_entry :=
  simpl;
  repeat first [ apply not_elem_of_nil
               | apply not_elem_of_cons; split; [discriminate|] ].

(** An execution of [refresh_now] enters once, before anything else. *)
Lemma _upsert_single_message_steps w :
  Entered ∉ snd (_upsert_single_message w).
Proof.
  unfold _upsert_single_message.
  repeat case_match; no_entry.
Qed.

Lemma refresh_now_steps b w :
  ∃ l, snd (refresh_now b w) = Entered :: l ∧ Entered ∉ l.
Proof.
  pose proof (_upsert_single_message_steps w) as Hu.
  unfold refresh_now.
  destruct (_upsert_single_message w) as [[i|e] l']; simpl in Hu;
    repeat case_match; simpl; eexists; (split; [reflexivity|]);
    rewrite ?not_elem_of_cons, ?not_elem_of_app, ?not_elem_of_cons;
    repeat split; try discriminate; try done; apply not_elem_of_nil.
Qed.

Lemma runner_returns b w : fst (runner b w) = Returns tt.
Proof. unfold runner. by destruct (refresh_now b w) as [[[]|e] l]. Qed.

Lemma runner_steps b w :
  ∃ l, snd (runner b w) = Entered :: l ∧ Entered ∉ l.
Proof.
  destruct (refresh_now_steps b w) as (l & E & Hl). unfold runner.
  destruct (refresh_now b w) as [[[]|e] l0]; simpl in *; subst l0.
  - by exists l.
  - exists (l ++ [Logged (ExceptionDebouncedRefreshCrashed e)]).
    split; [done|]. rewrite not_elem_of_app. split; [done|]. no_entry.
Qed.

Lemma runner_logs b w e :
  fst (refresh_now b w) = Raises e →
  snd (runner b w) = snd (refresh_now b w) ++ [Logged (ExceptionDebouncedRefreshCrashed e)].
Proof.
  unfold runner. destruct (refresh_now b w) as [[[]|e'] l]; simpl; [done|].
  by intros [= ->].
Qed.

Lemma runner_same b w :
  (∃ a, fst (refresh_now b w) = Returns a) →
  snd (runner b w) = snd (refresh_now b w).
Proof.
  unfold runner. destruct (refresh_now b w) as [[[]|e'] l]; simpl; [done|].
  by intros [a [=]].
Qed.

(** A task that is played is not asleep afterwards; steps without an
    entry add none to the trace and leave none to take. *)
Lemma play_not_sleeping t tk since rest : ∀ now r w,
  fst (play t tk since now rest r) ≠ Sleeping w.
Proof.
  induction rest as [|s rest IH]; intros now r w; simpl; [done|].
  destruct s as [|ev|c].
  - specialize (IH now r w). by destruct (play t tk since now rest r).
  - specialize (IH now r w). by destruct (play t tk since now rest r).
  - destruct (bool_decide _); [|done].
    specialize (IH (now + Z.of_nat (tk c)) r w).
    by destruct (play t tk since _ rest r).
Qed.

Lemma play_no_entry t tk since rest : ∀ now r,
  Entered ∉ rest →
  entries (snd (play t tk since now rest r)) = []
  ∧ (∀ s a rest' r', fst (play t tk since now rest r) = Running s a rest' r' →
       Entered ∉ rest').
Proof.
  induction rest as [|s rest IH]; intros now r Hn; simpl; [done|].
  apply not_elem_of_cons in Hn as [Hs Hn].
  destruct s as [|ev|c]; [done| |].
  - specialize (IH now r Hn). by destruct (play t tk since now rest r).
  - destruct (bool_decide _).
    + specialize (IH (now + Z.of_nat (tk c)) r Hn).
      by destruct (play t tk since _ rest r).
    + simpl. split; [done|]. by intros s a rest' r' [= _ _ <- _].
Qed.

Lemma play_entered t tk since rest now r :
  Entered ∉ rest →
  entries (snd (play t tk since now (Entered :: rest) r)) = [now]
  ∧ (∀ s a rest' r', fst (play t tk since now (Entered :: rest) r)
                       = Running s a rest' r' → Entered ∉ rest').
Proof.
  intros Hn. simpl. destruct (play_no_entry t tk since rest now r Hn) as [E R].
  destruct (play t tk since now rest r) as [k tr]. simpl in *.
  unfold entries in *. simpl. by rewrite E.
Qed.

Lemma duration_cons_await tk c l :
  duration tk (Awaited c :: l) = Z.of_nat (tk c) + duration tk l.
Proof. done. Qed.

Lemma duration_nonneg tk l : 0 ≤ duration tk l.
Proof.
  unfold duration. induction (calls l) as [|c cs IH]; simpl; lia.
Qed.

(** Given the time, the task takes all its steps and ends. *)
Lemma play_to_end t tk since rest : ∀ now r,
  now + duration tk rest ≤ t →
  play t tk since now rest r = (Ended (task_end r), stamped tk now rest).
Proof.
  induction rest as [|s rest IH]; intros now r Ht; simpl; [done|].
  destruct s as [|ev|c].
  - rewrite IH; done.
  - rewrite IH; done.
  - rewrite duration_cons_await in Ht.
    pose proof (duration_nonneg tk rest).
    rewrite bool_decide_true by lia. rewrite IH by lia. done.
Qed.

Lemma logged_stamped tk l : ∀ now, logged (snd <$> stamped tk now l) = logged l.
Proof.
  induction l as [|s l IH]; intros now; simpl; [done|].
  destruct s as [|ev|c]; unfold logged in *; simpl; by rewrite IH.
Qed.

Lemma log_app_trace p tr :
  logged (snd <$> (trace p ++ tr)) = log p ++ logged (snd <$> tr).
Proof. unfold log. by rewrite fmap_app, logged_app. Qed.

(** Before its time, the pending refresh does not fire. *)
Lemma advance_early p w t :
  armed p w → clock p ≤ t → t < w →
  advance t p =
    Publisher (bot p) (loop p) (debounce_seconds p) (_pending_task p)
              (_scheduled_at p) t (past p) (worlds p) (trace p).
Proof.
  unfold armed. intros Ha Hc Ht. unfold advance.
  rewrite bool_decide_false by lia. rewrite Ha. simpl.
  rewrite bool_decide_false by lia. by rewrite app_nil_r.
Qed.

Lemma quiet_pending p :
  quiet p ↔ _pending_task p = None ∨ ∃ how, _pending_task p = Some (Ended how).
Proof.
  unfold quiet, tasks. rewrite Forall_app. split.
  - intros [_ H]. destruct (_pending_task p) as [[w|s a rest r|how]|]; simpl in H;
      [by inversion H..|eauto|eauto].
  - intros H. split.
    + apply Forall_fmap, Forall_true. done.
    + destruct H as [->|[how ->]]; simpl; [constructor|by apply Forall_singleton].
Qed.

Lemma advance_quiet p t :
  quiet p → clock p ≤ t →
  advance t p =
    Publisher (bot p) (loop p) (debounce_seconds p) (_pending_task p)
              (_scheduled_at p) t (past p) (worlds p) (trace p).
Proof.
  intros Hq Hc. unfold advance. rewrite bool_decide_false by lia.
  apply quiet_pending in Hq as [->|[how ->]]; simpl; [done|].
  by rewrite app_nil_r.
Qed.

(** At its time the pending refresh fires: [refresh_now] is entered
    once, then, and the task is in flight or done. *)
Lemma advance_due p w t :
  armed p w → clock p ≤ t → w ≤ t →
  ∃ k tr,
    advance t p =
      Publisher (bot p) (loop p) (debounce_seconds p) (Some k)
                (_scheduled_at p) t (past p) (worlds p) (trace p ++ tr)
    ∧ entries tr = [w]
    ∧ (∀ w', k ≠ Sleeping w')
    ∧ (∀ s a rest r, k = Running s a rest r → Entered ∉ rest).
Proof.
  unfold armed. intros Ha Hc Ht. unfold advance.
  rewrite bool_decide_false by lia. rewrite Ha. simpl.
  rewrite bool_decide_true by lia.
  destruct (runner_steps (bot p) (worlds p w)) as (l & El & Hl).
  destruct (runner (bot p) (worlds p w)) as [r l0]. simpl in El. subst l0.
  destruct (play_entered t (took (worlds p w)) w l w r Hl) as [E R].
  pose proof (play_not_sleeping t (took (worlds p w)) w (Entered :: l) w r) as S.
  destruct (play t (took (worlds p w)) w w (Entered :: l) r) as [k tr].
  exists k, tr. done.
Qed.

(** Given the time that the calls take, the refresh has run to its end:
    the task has returned, whatever [refresh_now] did. *)
Lemma advance_finished p w t :
  armed p w → clock p ≤ t →
  w + duration (took (worlds p w)) (snd (runner (bot p) (worlds p w))) ≤ t →
  advance t p =
    Publisher (bot p) (loop p) (debounce_seconds p) (Some (Ended Finished))
              (_scheduled_at p) t (past p) (worlds p)
              (trace p ++ stamped (took (worlds p w)) w
                                  (snd (runner (bot p) (worlds p w)))).
Proof.
  unfold armed. intros Ha Hc Ht. unfold advance.
  pose proof (duration_nonneg (took (worlds p w)) (snd (runner (bot p) (worlds p w)))).
  rewrite bool_decide_false by lia. rewrite Ha. simpl.
  rewrite bool_decide_true by lia.
  pose proof (runner_returns (bot p) (worlds p w)) as Hr.
  destruct (runner (bot p) (worlds p w)) as [r l]. simpl in *. subst r.
  rewrite play_to_end by done. done.
Qed.

(** A call with the bot attached leaves one refresh pending, for the
    debounce window after the call, whatever was pending. *)
Lemma schedule_refresh_arms p :
  bot p = true → loop p = true →
  schedule_refresh p =
    Publisher true true (debounce_seconds p)
              (Some (Sleeping (clock p + Z.max 0 (debounce_seconds p))))
              (Some (clock p + debounce_seconds p)) (clock p)
              (past p ++ replaced (_pending_task p)) (worlds p)
              (trace p ++ [(clock p, Logged (InfoRefreshScheduled (debounce_seconds p)))]).
Proof. intros Hb Hl. unfold schedule_refresh. by rewrite Hb, Hl. Qed.

Lemma refreshes_snoc_log tr t ev : entries (tr ++ [(t, Logged ev)]) = entries tr.
Proof. rewrite entries_app. simpl. by rewrite app_nil_r. Qed.

(** A call at time [t]: the refresh that was due by then has begun, and
    a fresh one is pending. *)
Lemma call_at_any p t :
  bot p = true → loop p = true → clock p ≤ t →
  (∀ s a rest r, _pending_task p = Some (Running s a rest r) → Entered ∉ rest) →
  armed (call_at t p) (t + Z.max 0 (debounce_seconds p))
  ∧ refreshes (call_at t p) =
      refreshes p ++ match _pending_task p with
                     | Some (Sleeping w) => if bool_decide (w ≤ t) then [w] else []
                     | _ => []
                     end
  ∧ clock (call_at t p) = t
  ∧ bot (call_at t p) = true ∧ loop (call_at t p) = true
  ∧ debounce_seconds (call_at t p) = debounce_seconds p
  ∧ worlds (call_at t p) = worlds p.
Proof.
  intros Hb Hl Hc Hrun. unfold call_at.
  assert (∃ k, advance t p =
            Publisher (bot p) (loop p) (debounce_seconds p) k
              (_scheduled_at p) t (past p) (worlds p)
              (trace (advance t p))
          ∧ refreshes (advance t p) =
              refreshes p ++ match _pending_task p with
                             | Some (Sleeping w) => if bool_decide (w ≤ t) then [w] else []
                             | _ => []
                             end) as (k & E & R).
  { unfold advance, refreshes. rewrite bool_decide_false by lia.
    destruct (_pending_task p) as [[w|s a rest r|how]|] eqn:Ep; simpl.
    - destruct (bool_decide_reflect (w ≤ t)) as [Hw|Hw].
      + destruct (runner_steps (bot p) (worlds p w)) as (l & El & Hnl).
        destruct (runner (bot p) (worlds p w)) as [r l0]. simpl in El. subst l0.
        destruct (play_entered t (took (worlds p w)) w l w r Hnl) as [E _].
        destruct (play t (took (worlds p w)) w w (Entered :: l) r) as [k tr].
        simpl in *. exists (Some k). by rewrite entries_app, E.
      + simpl. exists (Some (Sleeping w)). by rewrite !app_nil_r.
    - destruct (bool_decide (a ≤ t)).
      + destruct (play_no_entry t (took (worlds p s)) s rest a r) as [E _];
          [by eapply Hrun|].
        destruct (play t (took (worlds p s)) s a rest r) as [k tr].
        simpl in *. exists (Some k). by rewrite entries_app, E.
      + simpl. exists (Some (Running s a rest r)). by rewrite !app_nil_r.
    - exists (Some (Ended how)). by rewrite !app_nil_r.
    - exists None. by rewrite !app_nil_r. }
  rewrite schedule_refresh_arms by (rewrite E; done).
  unfold armed, refreshes in *. simpl. rewrite refreshes_snoc_log, R.
  rewrite E. simpl. done.
Qed.

Lemma call_at_arms p t :
  bot p = true → loop p = true →
  quiet p ∨ (∃ w, armed p w ∧ t < w) → clock p ≤ t →
  armed (call_at t p) (t + Z.max 0 (debounce_seconds p))
  ∧ refreshes (call_at t p) = refreshes p
  ∧ clock (call_at t p) = t
  ∧ bot (call_at t p) = true ∧ loop (call_at t p) = true
  ∧ debounce_seconds (call_at t p) = debounce_seconds p
  ∧ worlds (call_at t p) = worlds p.
Proof.
  intros Hb Hl Hst Hc.
  destruct (call_at_any p t Hb Hl Hc) as (A & R & Rest).
  { intros s a rest r E. exfalso.
    destruct Hst as [[Hq|[how Hq]]%quiet_pending|(w & Hw & _)];
      unfold armed in *; congruence. }
  split; [done|]. split; [|done]. rewrite R.
  destruct Hst as [[Hq|[how Hq]]%quiet_pending|(w & Hw & Hlt)].
  - rewrite Hq. apply app_nil_r.
  - rewrite Hq. apply app_nil_r.
  - unfold armed in Hw. rewrite Hw, bool_decide_false by lia. apply app_nil_r.
Qed.

Lemma burst_arms gaps : ∀ t p,
  bot p = true → loop p = true →
  quiet p ∨ (∃ w, armed p w ∧ t < w) → clock p ≤ t →
  Forall (fun g => 0 ≤ g < debounce_seconds p) gaps →
  let p' := calls_at (call_times t gaps) p in
  armed p' (last_time t gaps + Z.max 0 (debounce_seconds p))
  ∧ refreshes p' = refreshes p
  ∧ clock p' = last_time t gaps
  ∧ bot p' = true ∧ loop p' = true
  ∧ debounce_seconds p' = debounce_seconds p
  ∧ worlds p' = worlds p.
Proof.
  induction gaps as [|g gaps IH]; intros t p Hb Hl Hst Hc Hg; simpl.
  - by apply call_at_arms.
  - apply Forall_cons in Hg as [Hg0 Hg].
    destruct (call_at_arms p t Hb Hl Hst Hc) as (Ha & Hr & Hc1 & Hb1 & Hl1 & Hd1 & Hw1).
    change (calls_at (t :: call_times (t + g) gaps) p)
      with (calls_at (call_times (t + g) gaps) (call_at t p)).
    destruct (IH (t + g) (call_at t p)) as (Ha' & Hr' & Hc' & Hb' & Hl' & Hd' & Hw');
      [done|done| |lia|by rewrite Hd1|].
    { right. exists (t + Z.max 0 (debounce_seconds p)). split; [done|lia]. }
    rewrite Hd1 in Ha'. repeat split; congruence.
Qed.

Lemma last_call_times t gaps :
  last (call_times t gaps) = Some (last_time t gaps).
Proof.
  revert t. induction gaps as [|g gaps IH]; intros t; simpl; [done|].
  rewrite <- IH. by destruct gaps.
Qed.

(** C4. With the bot attached and nothing pending beforehand, a
    sequence of calls of [schedule_refresh], each less than the
    debounce window D after the one before, makes [refresh_now] execute
    exactly once: its body is not entered during the sequence, not
    before D has passed since the last call (so not D after the first),
    and once the clock reaches D after the last call it has been
    entered, at that time exactly, by the task of the last call, and
    never again however long the loop runs.  Each call cancels the
    pending timer and starts a fresh timer of D. *)
Theorem debounce_fires_once_after_last p t gaps :
  bot p = true → loop p = true → quiet p → clock p ≤ t →
  (2 ≤ length (call_times t gaps))%nat →
  Forall (fun g => 0 ≤ g < debounce_seconds p) gaps →
  let D := debounce_seconds p in
  let p' := calls_at (call_times t gaps) p in
  let t_last := last_time t gaps in
  last (call_times t gaps) = Some t_last
  ∧ refreshes p' = refreshes p
  ∧ (∀ T, T < t_last + D → refreshes (advance T p') = refreshes p)
  ∧ (∀ T, t_last + D ≤ T → refreshes (advance T p') = refreshes p ++ [t_last + D])
  ∧ (∀ q w, bot q = true → loop q = true →
       _pending_task q = Some (Sleeping w) →
       _pending_task (schedule_refresh q)
         = Some (Sleeping (clock q + Z.max 0 (debounce_seconds q)))
       ∧ past (schedule_refresh q) = past q ++ [Cancelled]
       ∧ tasks (schedule_refresh q)
           = (Ended <$> past q)
               ++ [Ended Cancelled;
                   Sleeping (clock q + Z.max 0 (debounce_seconds q))]
       ∧ _scheduled_at (schedule_refresh q) = Some (clock q + debounce_seconds q)).
Proof.
  intros Hb Hl Hq Hc HN Hg D p' t_last.
  assert (0 < D) as HD.
  { destruct gaps as [|g gaps']; [simpl in HN; lia|].
    apply Forall_cons in Hg as [Hg _]. unfold D. lia. }
  destruct (burst_arms gaps t p Hb Hl (or_introl Hq) Hc Hg)
    as (Ha & Hr & Hc' & Hb' & Hl' & Hd' & Hw').
  fold p' in Ha, Hr, Hc', Hb', Hl', Hd', Hw'. fold t_last in Ha, Hc'. fold D in Ha.
  rewrite Z.max_r in Ha by lia.
  split; [apply last_call_times|]. split; [done|]. split; [|split].
  - intros T HT. destruct (decide (T < clock p')) as [Hlt|Hge].
    + unfold advance. by rewrite bool_decide_true.
    + rewrite (advance_early p' (t_last + D) T Ha) by lia. done.
  - intros T HT.
    destruct (advance_due p' (t_last + D) T Ha) as (k & tr & E & Etr & _);
      [lia..|].
    rewrite E. unfold refreshes in *. simpl. by rewrite entries_app, Etr, Hr.
  - intros q w Hbq Hlq Hp. rewrite schedule_refresh_arms by done.
    unfold tasks. simpl. rewrite Hp. simpl.
    repeat split; try done. by rewrite fmap_app, <- app_assoc.
Qed.

(** C9, counterexample.  Awaited directly while the leaderboard query
    behind [build_embed] fails, [refresh_now] lets the exception
    through to its caller and logs nothing. *)
Lemma refresh_now_direct_propagates :
  fst (refresh_now true Samples.embed_fails) = Raises OtherException
  ∧ logged (snd (refresh_now true Samples.embed_fails)) = []
  ∧ answer Samples.embed_fails BuildEmbed = Some OtherException.
Proof. repeat split. Qed.

Ltac member H :=
  repeat (apply elem_of_cons in H as [->|H]); try (by apply elem_of_nil in H).

(** The except clauses of [refresh_now] and [_upsert_single_message]:
    an exception of a call that they do not name ends the execution and
    reaches the one who awaits it, with nothing logged; a discord HTTP
    error of [fetch_channel] is logged and ends the execution
    normally; one of fetching or editing the stored message is logged
    and followed by the sending of a new message; and [refresh_now]
    raises nothing else. *)
Lemma refresh_now_handlers w :
  let r := fst (refresh_now true w) in
  let l := snd (refresh_now true w) in
  (∀ c e, c ∈ calls l → answer w c = Some e → handled c e = false →
     r = Raises e ∧ last l = Some (Awaited c))
  ∧ (∀ c e, c ∈ calls l → answer w c = Some e → handled c e = true →
       (c = FetchChannel →
          r = Returns tt
          ∧ last l = Some (Logged (ExceptionFetchChannelFailed e)))
       ∧ (c ≠ FetchChannel →
            WarnCouldNotEdit ∈ logged l ∧ ChannelSend ∈ calls l))
  ∧ (∀ e, r = Raises e →
       ∃ c, last l = Some (Awaited c) ∧ answer w c = Some e
            ∧ handled c e = false).
Proof.
  destruct w as [gc fc be gm fm me cs um tk].
  unfold refresh_now, _upsert_single_message; simpl.
  repeat case_match; simplify_eq; simpl.
  all: (split; [|split]).
  all: try (intros cc ee Hc Ha Hh; member Hc; simpl in *; simplify_eq; try done).
  all: try (intros ee [=]; simplify_eq; eexists; repeat split; done).
  all: try congruence.
  all: try (split; [intros [=]|intros _; split; [set_solver|set_solver]]).
  all: try (split; [intros _; done|intros; done]).
Qed.

Lemma duration_app tk a b : duration tk (a ++ b) = duration tk a + duration tk b.
Proof.
  unfold duration. rewrite calls_app.
  induction (calls a) as [|c cs IH]; simpl; lia.
Qed.

Lemma duration_runner b w :
  duration (took w) (snd (runner b w)) = duration (took w) (snd (refresh_now b w)).
Proof.
  unfold runner. destruct (refresh_now b w) as [[[]|e] l]; simpl; [done|].
  rewrite duration_app. unfold duration at 2. simpl. lia.
Qed.

(** C9, as the code has it.  On the timer-fired path every exception
    that [refresh_now] lets through is caught by [runner] and logged:
    once the calls of the execution have been answered the task has
    ended by returning, [refresh_now] has been executed once, and
    however long the loop runs it is not executed again, so there is no
    retry; a later [schedule_refresh] schedules and fires as usual.
    Awaited directly, [refresh_now] catches and logs the discord HTTP
    errors (Forbidden, NotFound, HTTPException) of [fetch_channel],
    after which it returns, and of fetching or editing the stored
    message, after which it sends a new message; every other exception
    of a call it awaits reaches its caller, with nothing logged for it,
    and it raises nothing else. *)
Theorem refresh_failures_caught_on_timer_path p w T :
  bot p = true → loop p = true →
  armed p w → clock p ≤ T →
  w + duration (took (worlds p w)) (snd (refresh_now true (worlds p w))) ≤ T →
  let p1 := advance T p in
  let D := Z.max 0 (debounce_seconds p) in
  (_pending_task p1 = Some (Ended Finished) ∧ past p1 = past p)
  ∧ refreshes p1 = refreshes p ++ [w]
  ∧ quiet p1
  ∧ (∀ e, fst (refresh_now true (worlds p w)) = Raises e →
       log p1 = log p ++ logged (snd (refresh_now true (worlds p w)))
                      ++ [ExceptionDebouncedRefreshCrashed e])
  ∧ (∀ T', T ≤ T' →
       refreshes (advance T' p1) = refreshes p ++ [w]
       ∧ _pending_task (advance T' p1) = Some (Ended Finished)
       ∧ log (advance T' p1) = log p1)
  ∧ (∀ t' T', T ≤ t' → t' + D ≤ T' →
       refreshes (advance T' (call_at t' p1)) = refreshes p ++ [w; t' + D])
  ∧ (∀ w0,
       let r := fst (refresh_now true w0) in
       let l := snd (refresh_now true w0) in
       (∀ c e, c ∈ calls l → answer w0 c = Some e → handled c e = false →
          r = Raises e ∧ last l = Some (Awaited c))
       ∧ (∀ c e, c ∈ calls l → answer w0 c = Some e → handled c e = true →
            (c = FetchChannel →
               r = Returns tt
               ∧ last l = Some (Logged (ExceptionFetchChannelFailed e)))
            ∧ (c ≠ FetchChannel →
                 WarnCouldNotEdit ∈ logged l ∧ ChannelSend ∈ calls l))
       ∧ (∀ e, r = Raises e →
            ∃ c, last l = Some (Awaited c) ∧ answer w0 c = Some e
                 ∧ handled c e = false)).
Proof.
  intros Hb Hl Ha Hc Hw p1 D.
  assert (E1 : p1 = Publisher (bot p) (loop p) (debounce_seconds p)
                      (Some (Ended Finished)) (_scheduled_at p) T (past p)
                      (worlds p)
                      (trace p ++ stamped (took (worlds p w)) w
                                          (snd (runner (bot p) (worlds p w))))).
  { unfold p1. apply advance_finished; [done|done|].
    rewrite duration_runner, Hb. done. }
  assert (R1 : refreshes p1 = refreshes p ++ [w]).
  { pose proof (duration_nonneg (took (worlds p w))
                  (snd (refresh_now true (worlds p w)))).
    destruct (advance_due p w T Ha Hc) as (k & tr & E & Etr & _); [lia|].
    fold p1 in E. rewrite E. unfold refreshes. simpl.
    by rewrite entries_app, Etr. }
  assert (Q1 : quiet p1).
  { apply quiet_pending. right. exists Finished. by rewrite E1. }
  split; [by rewrite E1|]. split; [done|]. split; [done|].
  split; [|split; [|split]].
  - intros e He. rewrite E1. unfold log at 1. simpl.
    rewrite log_app_trace, logged_stamped. f_equal.
    rewrite Hb, (runner_logs _ _ _ He), logged_app. done.
  - intros T' HT'. rewrite (advance_quiet p1 T' Q1) by (rewrite E1; simpl; lia).
    unfold refreshes, log in *. simpl. split; [done|]. by rewrite E1.
  - intros t' T' Ht' HT'.
    destruct (call_at_arms p1 t') as (Ha2 & Hr2 & Hc2 & _ & _ & Hd2 & _);
      [by rewrite E1|by rewrite E1|by left|rewrite E1; simpl; lia|].
    assert (debounce_seconds p1 = debounce_seconds p) as Hd1 by (by rewrite E1).
    rewrite Hd1 in Ha2. fold D in Ha2.
    destruct (advance_due (call_at t' p1) (t' + D) T' Ha2)
      as (k & tr & E & Etr & _); [lia..|].
    rewrite E. unfold refreshes in *. simpl.
    rewrite entries_app, Etr, Hr2, R1, <- app_assoc. done.
  - intros w0. apply refresh_now_handlers.
Qed.

Lemma attached_ready w :
  bot (Samples.attached w) = true ∧ loop (Samples.attached w) = true
  ∧ quiet (Samples.attached w) ∧ clock (Samples.attached w) ≤ 100.
Proof. repeat split; [constructor|simpl; lia]. Defined.

(** Three calls, at times 100, 103 and 109: one refresh, at 119. *)
Lemma debounce_fires_once_after_last_witness :
  refreshes (advance 500 (calls_at [100; 103; 109] (Samples.attached Samples.all_well)))
    = [119].
Proof.
  destruct (attached_ready Samples.all_well) as (H1 & H2 & H3 & H4).
  assert (H5 : (2 ≤ length (call_times 100 [3; 6]%Z))%nat) by (simpl; lia).
  assert (H6 : Forall (fun g => 0 ≤ g < debounce_seconds (Samples.attached Samples.all_well))
                      [3; 6]).
  { apply Forall_cons; split; [simpl; lia|].
    apply Forall_cons; split; [simpl; lia|]. by apply Forall_nil. }
  destruct (debounce_fires_once_after_last (Samples.attached Samples.all_well)
              100 [3; 6] H1 H2 H3 H4 H5 H6) as (_ & _ & _ & Hfire & _).
  apply (Hfire 500). simpl. lia.
Defined.

Lemma armed_once :
  armed (call_at 100 (Samples.attached Samples.embed_fails)) 110.
Proof. reflexivity. Defined.

(** The refresh scheduled at 100 begins at 110 and crashes at 112,
    which is logged; the one scheduled at 200 begins at 210. *)
Lemma refresh_failures_caught_on_timer_path_witness :
  log (advance 150 (call_at 100 (Samples.attached Samples.embed_fails)))
    = [InfoRefreshScheduled 10; ExceptionDebouncedRefreshCrashed OtherException]
  ∧ refreshes (advance 300 (call_at 200
                 (advance 150 (call_at 100 (Samples.attached Samples.embed_fails)))))
    = [110; 210].
Proof.
  destruct (refresh_failures_caught_on_timer_path
              (call_at 100 (Samples.attached Samples.embed_fails)) 110 150)
    as (_ & _ & _ & Hlog & _ & Hnext & _).
  - reflexivity.
  - reflexivity.
  - exact armed_once.
  - simpl; lia.
  - vm_compute. discriminate.
  - split.
    + apply (Hlog OtherException). reflexivity.
    + apply (Hnext 200 300); simpl; lia.
Defined.

End PublisherFacts.

(** * Runs on sample states *)

Module Examples.
Import Database LeaderboardPublisher.

(** On a connection left with an open transaction, BEGIN fails and the
    unit rolls back. *)
Example apply_transaction_in_open_transaction :
  EconomyRepository.apply_transaction "2024-01-01 00:00:00" 7 5 "reward" None None
    (Conn Samples.one_user (Some Samples.one_user) [])
  = (Raise OperationalError, Conn Samples.one_user None []).
Proof. reflexivity. Qed.

Example three_rewards :
  fst (EconomyRepository.get_balance "2024-01-01 00:00:03" 7
         (EconomyRepository.run_all
            [("2024-01-01 00:00:00"%string,
              EconomyRepository.ApplyTransaction 7 5 "reward" None None);
             ("2024-01-01 00:00:01"%string,
              EconomyRepository.ApplyTransaction 7 5 "reward" None None);
             ("2024-01-01 00:00:02"%string,
              EconomyRepository.ApplyTransaction 7 5 "reward" None None)]
            Samples.steady))
  = Ok 15.
Proof. reflexivity. Qed.

(** A failure of the store in the middle of the unit: the two rows written
    before it are gone. *)
Example failed_unit_leaves_nothing :
  EconomyRepository.apply_transaction "2024-01-01 00:00:00" 7 5 "reward" None None
    Samples.failing_fourth
  = (Raise StoreError, Samples.steady).
Proof. reflexivity. Qed.

(** Thread matching: a query without thread does not see the session of a
    thread, a query with the thread does, another thread does not. *)
Example thread_absent_skips_present :
  GamesRepository.where_active_in_scope "discord" "chan-1" None "wordle"
    Samples.thread_row = false.
Proof. reflexivity. Qed.

Example thread_present_matches_same :
  GamesRepository.where_active_in_scope "discord" "chan-1" (Some "th-9"%string)
    "wordle" Samples.thread_row = true.
Proof. reflexivity. Qed.

Example thread_present_skips_other :
  GamesRepository.where_active_in_scope "discord" "chan-1" (Some "th-8"%string)
    "wordle" Samples.thread_row = false.
Proof. reflexivity. Qed.

(** No session; upsert; the session is returned; end; no session. *)
Example session_life :
  let get := GamesRepository.get_active_session "discord" "chan-1" None "wordle" in
  let c0 := Conn empty_tables None [] in
  let c1 := after (GamesRepository.upsert_active_session (fun s : string => s)
                     "2024-01-01 00:00:00" "id1" "discord" "chan-1" None
                     "wordle" "[1]" None) c0 in
  let c2 := after (GamesRepository.end_session "2024-01-01 00:01:00" "id1" "ended") c1 in
  fst (get c0) = Ok None
  ∧ (GamesRepository.state_json <$> default None (match fst (get c1) with Ok r => Some r | Raise _ => None end))
    = Some "[1]"%string
  ∧ fst (get c2) = Ok None.
Proof. repeat split; reflexivity. Qed.

Example end_active_in_location_none :
  GamesRepository.end_active_in_location "2024-01-01 00:01:00" "discord" "chan-1"
    None "wordle" "ended" Samples.one_ended
  = (Ok 0%nat, Samples.one_ended).
Proof. reflexivity. Qed.

(** Without a bot, [schedule_refresh] logs a warning and schedules
    nothing. *)
Example schedule_refresh_detached :
  tasks (schedule_refresh Samples.detached) = []
  ∧ log (schedule_refresh Samples.detached) = [WarnScheduleBotNotSet].
Proof. split; reflexivity. Qed.

(** A stored message that cannot be edited is sent again. *)
Example edit_fails_then_recreate :
  refresh_now true
    (World (Some TextChannel) (Returns TextChannel) (Returns tt)
           (Returns (Some 41)) (Returns 41) (Raises NotFound) (Returns 42)
           (Returns tt) Samples.two_ticks)
  = (Returns tt,
     [Entered; Awaited BuildEmbed; Awaited GetMessageId; Awaited FetchMessage;
      Awaited EditMessage; Logged WarnCouldNotEdit; Awaited ChannelSend;
      Awaited UpsertMessageId; Logged (InfoMessageUpdated 42)]).
Proof. reflexivity. Qed.

(** A call that arrives while [refresh_now] is in flight cancels it:
    the refresh that began at 110 awaits the leaderboard query when the
    call of 111 arrives, and takes no further step; the refresh of that
    call begins at 121 and runs to its end. *)
Example refresh_cancelled_in_flight :
  let p := advance 500 (calls_at [100; 111] (Samples.attached Samples.all_well)) in
  trace p
  = [(100, Logged (InfoRefreshScheduled 10));
     (110, Entered); (110, Awaited BuildEmbed);
     (111, Logged (InfoRefreshScheduled 10));
     (121, Entered); (121, Awaited BuildEmbed); (123, Awaited GetMessageId);
     (125, Awaited ChannelSend); (127, Awaited UpsertMessageId);
     (129, Logged (InfoMessageUpdated 12))]
  ∧ tasks p = [Ended Cancelled; Ended Finished].
Proof. split; reflexivity. Qed.

End Examples.

(** * More facts about the session store *)

Module SessionMore.
Import Database GamesRepository DatabaseFacts SessionFacts Scope.

#[local] Hint Resolve LedgerFacts.healthy_conn LedgerFacts.Forall_tail : core.

Lemma get_active_session_healthy c p l th g :
  healthy c →
  get_active_session p l th g c =
    (Ok (session_of_row <$> head (active_rows p l th g (view c))),
     Conn (disk c) (txn c) (tail (faults c))).
Proof.
  intros Hh. unfold get_active_session, fetchone, bind.
  rewrite conn_select_healthy by done.
  unfold select_active_session, active_rows.
  by destruct (head _).
Qed.

Lemma end_active_in_location_healthy c now p l th g st :
  healthy c → idle c →
  end_active_in_location now p l th g st c =
    (Ok (length (active_rows p l th g (disk c))),
     Conn (set_active_game_sessions
             (map (fun r => if where_active_in_scope p l th g r
                            then set_status now st r else r)) (disk c))
          None (tail (tail (faults c)))).
Proof.
  destruct c as [d t f]. unfold healthy, idle; simpl. intros Hf ->.
  unfold end_active_in_location, transaction, bind.
  rewrite conn_begin_healthy by done. simpl.
  rewrite conn_execute_healthy by auto. unfold view; simpl. done.
Qed.

Lemma end_session_healthy c now i st :
  healthy c →
  end_session now i st c =
    (Ok tt,
     Conn (set_active_game_sessions
             (map (fun r => if bool_decide (s_id r = i)
                            then set_status now st r else r)) (view c))
          None (tail (faults c))).
Proof.
  intros Hh. unfold end_session.
  by rewrite (execute_healthy _ c _ _ Hh eq_refl).
Qed.

Lemma active_rows_nil p l th g t :
  active_rows p l th g t = [] ↔
  ∀ r, r ∈ active_game_sessions t → ¬ active_in_scope p l th g r.
Proof.
  unfold active_rows. split.
  - intros E r Hin Hr. apply where_active_in_scope_spec in Hr.
    by apply (filter_nil_not_elem_of _ _ r E).
  - intros Hall. induction (active_game_sessions t) as [|r rows IH]; [done|].
    rewrite filter_cons_False.
    + apply IH. intros r' Hin. apply Hall. by right.
    + rewrite where_active_in_scope_spec. apply Hall. left.
Qed.

Lemma map_unchanged {A} (f : A → A) (l : list A) :
  (∀ x, x ∈ l → f x = x) → map f l = l.
Proof.
  induction l as [|x l IH]; intros H; simpl; [done|].
  rewrite H by left. f_equal. apply IH. intros y Hy. apply H. by right.
Qed.

Lemma tables_same_sessions t :
  set_active_game_sessions (fun _ => active_game_sessions t) t = t.
Proof. by destruct t. Qed.

(** X1. [end_active_in_location] with a status other than active, on a
    healthy and idle connection, returns the number of sessions that
    were active in the scope; afterwards no session of the scope is
    active and [get_active_session] on the scope returns [None].  The
    statement rewrites the rows of the scope in place (status and
    updated_at) and changes no other row and no other table. *)
Theorem end_active_in_location_ends_scope c now p l th g st :
  healthy c → idle c → st ≠ "active"%string →
  ∃ c',
    end_active_in_location now p l th g st c
      = (Ok (length (active_rows p l th g (disk c))), c')
    ∧ healthy c' ∧ idle c'
    ∧ active_rows p l th g (disk c') = []
    ∧ fst (get_active_session p l th g c') = Ok None
    ∧ active_game_sessions (disk c') =
        map (fun r => if where_active_in_scope p l th g r
                      then set_status now st r else r)
            (active_game_sessions (disk c))
    ∧ users (disk c') = users (disk c)
    ∧ bean_accounts (disk c') = bean_accounts (disk c)
    ∧ bean_transactions (disk c') = bean_transactions (disk c).
Proof.
  intros Hh Hi Hst. rewrite end_active_in_location_healthy by done.
  eexists. split; [done|]. simpl.
  assert (active_rows p l th g
            (set_active_game_sessions
               (map (fun r => if where_active_in_scope p l th g r
                              then set_status now st r else r)) (disk c)) = []) as Hnil.
  { apply active_rows_nil. simpl. intros r' Hin Hr'.
    apply list_elem_of_fmap in Hin as (r & -> & Hin).
    destruct (where_active_in_scope p l th g r) eqn:E.
    - destruct Hr' as (_ & _ & _ & _ & Hs). simpl in Hs. done.
    - apply where_active_in_scope_spec in Hr'. congruence. }
  split; [auto|]. split; [done|]. split; [done|]. split; [|done].
  rewrite get_active_session_healthy by auto.
  simpl. unfold view; simpl. by rewrite Hnil.
Qed.

(** X2. On a scope without active session, [end_active_in_location]
    returns 0 and leaves every table as it is. *)
Theorem end_active_in_location_nothing_to_end c now p l th g st :
  healthy c → idle c →
  (∀ r, r ∈ active_game_sessions (disk c) → ¬ active_in_scope p l th g r) →
  ∃ c', end_active_in_location now p l th g st c = (Ok 0%nat, c')
        ∧ disk c' = disk c ∧ idle c'.
Proof.
  intros Hh Hi Hnone. rewrite end_active_in_location_healthy by done.
  apply active_rows_nil in Hnone as Hnil. rewrite Hnil.
  eexists. split; [done|]. simpl. split; [|done].
  rewrite <- (tables_same_sessions (disk c)) at 2.
  unfold set_active_game_sessions. f_equal.
  apply map_unchanged. intros r Hin.
  destruct (where_active_in_scope p l th g r) eqn:E; [|done].
  apply where_active_in_scope_spec in E. by destruct (Hnone r Hin).
Qed.

(** X3. [end_session] with an id that no row carries returns normally,
    on a healthy connection, and changes no table: an unknown id is not
    an error. *)
Theorem end_session_unknown_id c now i st :
  healthy c →
  (∀ r, r ∈ active_game_sessions (view c) → s_id r ≠ i) →
  ∃ c', end_session now i st c = (Ok tt, c') ∧ disk c' = view c ∧ idle c'.
Proof.
  intros Hh Hnone. rewrite end_session_healthy by done.
  eexists. split; [done|]. simpl. split; [|done].
  rewrite <- (tables_same_sessions (view c)) at 2.
  unfold set_active_game_sessions. f_equal.
  apply map_unchanged. intros r Hin.
  rewrite bool_decide_false; [done|]. by apply Hnone.
Qed.

(** X4. When [get_active_session] returns the one active session of a
    scope, [end_session] with that session's id and a status other than
    active leaves the scope without active session: the next
    [get_active_session] returns [None]. *)
Theorem end_session_of_active c now p l th g st r :
  healthy c → st ≠ "active"%string →
  active_rows p l th g (view c) = [r] →
  ∃ c1 c2,
    get_active_session p l th g c = (Ok (Some (session_of_row r)), c1)
    ∧ end_session now (id (session_of_row r)) st c1 = (Ok tt, c2)
    ∧ active_rows p l th g (disk c2) = []
    ∧ fst (get_active_session p l th g c2) = Ok None.
Proof.
  intros Hh Hst Hact.
  rewrite get_active_session_healthy by done. rewrite Hact. simpl.
  eexists _, _. split; [done|].
  rewrite end_session_healthy by (by apply healthy_tail in Hh).
  split; [done|]. simpl.
  change (view (Conn (disk c) (txn c) (tail (faults c)))) with (view c).
  assert (active_rows p l th g
            (set_active_game_sessions
               (map (fun x => if bool_decide (s_id x = s_id r)
                              then set_status now st x else x)) (view c)) = []) as Hnil.
  { apply active_rows_nil. simpl. intros x' Hin Hx'.
    apply list_elem_of_fmap in Hin as (x & -> & Hin).
    destruct (bool_decide_reflect (s_id x = s_id r)) as [E|E].
    - destruct Hx' as (_ & _ & _ & _ & Hs). simpl in Hs. done.
    - apply where_active_in_scope_spec in Hx'.
      assert (x ∈ active_rows p l th g (view c)) as Hx
        by (apply list_elem_of_filter; done).
      rewrite Hact in Hx. apply list_elem_of_singleton in Hx. congruence. }
  split; [done|].
  rewrite get_active_session_healthy by (apply LedgerFacts.healthy_conn; auto).
  simpl. unfold view at 1; simpl. by rewrite Hnil.
Qed.

Lemma thread_matches_eq q r : thread_matches q r ↔ r = q.
Proof. unfold thread_matches. by destruct q. Qed.

Lemma active_in_scope_alt p l th g r :
  active_in_scope p l th g r ↔
  scope_of r = (p, l, th, g) ∧ s_status r = "active"%string.
Proof.
  unfold active_in_scope, scope_of. rewrite thread_matches_eq.
  split.
  - intros (-> & -> & -> & -> & ?). done.
  - intros [[= -> -> -> ->] ?]. done.
Qed.

Lemma where_active_true p l th g r :
  scope_of r = (p, l, th, g) → s_status r = "active"%string →
  where_active_in_scope p l th g r = true.
Proof.
  intros. apply where_active_in_scope_spec, active_in_scope_alt. done.
Qed.

Lemma insert_on_conflict_active p l th g new upd rows :
  filter (fun r => where_active_in_scope p l th g r = true) rows = [] →
  (∀ r, r ∈ rows → s_id r = s_id new → where_active_in_scope p l th g (upd r) = true) →
  where_active_in_scope p l th g new = true →
  ∃ r', filter (fun r => where_active_in_scope p l th g r = true)
               (insert_on_conflict new upd rows) = [r']
        ∧ (r' = new ∨ ∃ r, r ∈ rows ∧ s_id r = s_id new ∧ r' = upd r).
Proof.
  intros Hnil Hupd Hnew. induction rows as [|x rows IH]; simpl.
  - exists new. split; [by rewrite filter_cons_True|by left].
  - rewrite filter_cons in Hnil.
    destruct (decide (where_active_in_scope p l th g x = true)) as [|Hx]; [done|].
    destruct (decide (s_id x = s_id new)) as [E|E].
    + exists (upd x). split.
      * rewrite filter_cons_True by (apply Hupd; [left|done]). by rewrite Hnil.
      * right. exists x. split; [left|done].
    + destruct IH as (r' & Hf & Hor); [done| |].
      { intros r Hin. apply Hupd. by right. }
      exists r'. split; [by rewrite filter_cons_False|].
      destruct Hor as [->|(r & Hin & Hid & ->)]; [by left|].
      right. exists r. split; [by right|done].
Qed.

Lemma upsert_round_trip {State} (json_dumps : State → string)
    c now i p l th g st ex :
  healthy c →
  active_rows p l th g (view c) = [] →
  (∀ r, r ∈ active_game_sessions (view c) → s_id r = i →
        scope_of r = (p, l, th, g)) →
  ∃ c1 c2 s r,
    upsert_active_session json_dumps now i p l th g st ex c = (Ok tt, c1)
    ∧ get_active_session p l th g c1 = (Ok (Some s), c2)
    ∧ active_rows p l th g (disk c1) = [r] ∧ s = session_of_row r
    ∧ id s = i ∧ status s = "active"%string
    ∧ state_json s = json_dumps st ∧ updated_at s = now
    ∧ expires_at s = ex
    ∧ platform s = p ∧ location_id s = l ∧ thread_id s = th ∧ game_key s = g.
Proof.
  intros Hh Hnil Hscope.
  rewrite upsert_active_session_healthy by done.
  set (new := GameSession i p l th g "active" (json_dumps st) now now ex).
  destruct (insert_on_conflict_active p l th g new
              (do_update now (json_dumps st) ex)
              (active_game_sessions (view c)) Hnil) as (r' & Hf & Hor).
  { intros r Hin Hid. apply where_active_true; [|done].
    by apply (Hscope r Hin). }
  { by apply where_active_true. }
  eexists _, _, (session_of_row r'), r'. split; [done|].
  rewrite get_active_session_healthy by (apply LedgerFacts.healthy_conn; auto using LedgerFacts.Forall_tail).
  unfold view at 1; simpl. unfold active_rows at 1 2. simpl. rewrite Hf.
  simpl. split; [done|]. split; [done|]. split; [done|].
  destruct Hor as [->|(r & Hin & Hid & ->)]; simpl; [done|].
  specialize (Hscope r Hin Hid). injection Hscope as -> -> -> ->.
  rewrite Hid. done.
Qed.


(** X6. An upsert does not move a session.  When the id names a row of
    another scope, on a healthy connection whose session table respects
    its primary key, [upsert_active_session] with a new scope leaves
    that new scope as it was, without active session if it had none, so
    that [get_active_session] on it still returns [None]; the row is set
    to active where it was. *)
Theorem upsert_does_not_move {State} (json_dumps : State → string)
    c k r now i p l th g st ex :
  healthy c → pk_ok (view c) →
  active_game_sessions (view c) !! k = Some r → s_id r = i →
  scope_of r ≠ (p, l, th, g) →
  active_rows p l th g (view c) = [] →
  ∃ c',
    upsert_active_session json_dumps now i p l th g st ex c = (Ok tt, c')
    ∧ active_rows p l th g (disk c') = []
    ∧ fst (get_active_session p l th g c') = Ok None
    ∧ ∃ r', active_game_sessions (disk c') !! k = Some r'
            ∧ scope_of r' = scope_of r ∧ s_status r' = "active"%string
            ∧ s_state r' = json_dumps st.
Proof.
  intros Hh Hpk Hk Hid Hne Hnil.
  rewrite upsert_active_session_healthy by done.
  set (t := view c) in *. clearbody t.
  pose proof (insert_on_conflict_lookup
                (GameSession i p l th g "active" (json_dumps st) now now ex)
                (do_update now (json_dumps st) ex) _ k r Hpk Hk Hid) as E.
  assert (active_rows p l th g
            (set_active_game_sessions
               (fun _ => <[k := do_update now (json_dumps st) ex r]>
                           (active_game_sessions t)) t) = []) as Hnil'.
  { apply active_rows_nil. simpl. intros x Hin Hx.
    apply list_elem_of_lookup in Hin as [j Hj].
    destruct (decide (j = k)) as [->|Hjk].
    - rewrite list_lookup_insert_eq in Hj
        by (by eapply lookup_lt_Some). injection Hj as <-.
      apply active_in_scope_alt in Hx as [Hx _]. done.
    - rewrite list_lookup_insert_ne in Hj by done.
      apply (proj1 (active_rows_nil p l th g t) Hnil x); [|done].
      by eapply list_elem_of_lookup_2. }
  unfold active_rows in Hnil'. simpl in Hnil'.
  eexists. split; [done|]. unfold active_rows. simpl. rewrite !E.
  split; [exact Hnil'|]. split.
  - rewrite get_active_session_healthy by (apply LedgerFacts.healthy_conn; auto using LedgerFacts.Forall_tail).
    unfold view, active_rows; simpl. by rewrite E, Hnil'.
  - eexists. split; [apply list_lookup_insert_eq; by eapply lookup_lt_Some|done].
Qed.

End SessionMore.

(** * The games' sessions *)

Module GameSessions.
Import Database GamesRepository DatabaseFacts SessionFacts Scope SessionMore.

#[local] Hint Resolve LedgerFacts.healthy_conn LedgerFacts.Forall_tail : core.

Lemma ended_rows_nil now p l th g st (t : tables) :
  st ≠ "active"%string →
  active_rows p l th g
    (set_active_game_sessions
       (map (fun r => if where_active_in_scope p l th g r
                      then set_status now st r else r)) t) = [].
Proof.
  intros Hst. apply active_rows_nil. simpl. intros r' Hin Hr'.
  apply list_elem_of_fmap in Hin as (r & -> & Hin).
  destruct (where_active_in_scope p l th g r) eqn:E.
  - destruct Hr' as (_ & _ & _ & _ & Hs). simpl in Hs. done.
  - apply where_active_in_scope_spec in Hr'. congruence.
Qed.

(** End every active session of the scope, then upsert: what
    [start_in_channel] and [restart_in_channel] do. *)
Lemma hard_reset {State} (json_dumps : State → string) c now1 now2 i p l th g st :
  healthy c → idle c →
  (∀ r, r ∈ active_game_sessions (disk c) → s_id r = i →
        scope_of r = (p, l, th, g)) →
  ∃ c1 c2 r,
    end_active_in_location now1 p l th g "ended" c
      = (Ok (length (active_rows p l th g (disk c))), c1)
    ∧ upsert_active_session json_dumps now2 i p l th g st None c1 = (Ok tt, c2)
    ∧ healthy c2 ∧ idle c2
    ∧ active_rows p l th g (disk c2) = [r]
    ∧ s_id r = i ∧ s_state r = json_dumps st ∧ s_updated_at r = now2
    ∧ (∀ x, x ∈ active_game_sessions (disk c) → s_id x ≠ i →
          (if where_active_in_scope p l th g x then set_status now1 "ended" x else x)
            ∈ active_game_sessions (disk c2))
    ∧ (∀ x, x ∈ active_game_sessions (disk c2) → s_id x = i →
          scope_of x = (p, l, th, g)).
Proof.
  intros Hh Hi Hscope.
  pose proof (end_active_in_location_healthy c now1 p l th g "ended" Hh Hi) as E1.
  set (f := fun r => if where_active_in_scope p l th g r
                     then set_status now1 "ended" r else r) in *.
  set (c1 := Conn _ None (tail (tail (faults c)))) in E1.
  assert (healthy c1) as Hh1 by (apply LedgerFacts.healthy_conn; destruct c; auto).
  assert (active_rows p l th g (view c1) = []) as Hnil
    by (by apply ended_rows_nil).
  assert (∀ r, s_id (f r) = s_id r ∧ scope_of (f r) = scope_of r) as Hf.
  { intros r. unfold f. by destruct (where_active_in_scope p l th g r). }
  destruct (upsert_round_trip json_dumps c1 now2 i p l th g st None Hh1 Hnil)
    as (c2 & c3 & s & r & E2 & _ & Hact & -> & Hid & _ & Hst & Hup & _).
  { intros r' Hin Hid. simpl in Hin.
    apply list_elem_of_fmap in Hin as (r & -> & Hin).
    destruct (Hf r) as [Hfi Hfs]. rewrite Hfs. apply Hscope; [done|congruence]. }
  exists c1, c2, r. split; [done|]. split; [done|].
  pose proof (upsert_active_session_healthy json_dumps now2 i p l th g st None c1 Hh1) as E2'.
  rewrite E2 in E2'. injection E2' as ->.
  split; [apply LedgerFacts.healthy_conn; simpl; destruct c; auto|]. split; [done|].
  split; [done|]. split; [done|]. split; [done|]. split; [done|].
  split.
  - intros x Hin Hx. simpl. fold (f x).
    assert (f x ∈ map f (active_game_sessions (disk c))) as Hfx
      by (apply list_elem_of_fmap; eauto).
    clear -Hfx Hx Hf. destruct (Hf x) as [Hfi _]. rewrite <- Hfi in Hx.
    induction (map f (active_game_sessions (disk c))) as [|y ys IH]; simpl.
    + by apply elem_of_nil in Hfx.
    + apply elem_of_cons in Hfx as [<-|Hin].
      * rewrite decide_False by done. left.
      * destruct (decide (s_id y = i)); right; [done|by apply IH].
  - simpl. intros x.
    assert (∀ y, y ∈ map f (active_game_sessions (disk c)) → s_id y = i →
                 scope_of y = (p, l, th, g)) as Hm.
    { intros y Hy Hyi. apply list_elem_of_fmap in Hy as (y0 & -> & Hy0).
      destruct (Hf y0) as [Hfi Hfs]. rewrite Hfs. apply Hscope; [done|congruence]. }
    clear -Hm.
    induction (map f (active_game_sessions (disk c))) as [|y ys IH]; simpl.
    + intros ->%list_elem_of_singleton _. done.
    + destruct (decide (s_id y = i)) as [E|E].
      * intros [->|Hin]%elem_of_cons Hx.
        -- simpl. unfold scope_of in *. simpl. apply (Hm y); [left|done].
        -- apply Hm; [by right|done].
      * intros [->|Hin]%elem_of_cons Hx; [done|].
        apply IH; [|done..]. intros z Hz. apply Hm. by right.
Qed.

Lemma fresh_scope (i : string) (sc : string * string * option string * string)
    (rows : list game_session) :
  (∀ r, r ∈ rows → s_id r ≠ i) →
  ∀ r, r ∈ rows → s_id r = i → scope_of r = sc.
Proof. intros Hfresh r Hin Hid. by destruct (Hfresh r Hin). Qed.

(** X7. [WordChainGame.start_in_channel] is a hard reset.  On a healthy
    and idle connection and with a session id that no row carries yet,
    it returns that id and leaves the channel with exactly one active
    Word Chain session, the new one, whose state is the fresh state with
    the status message id set, as [get_state] then reads it back; every
    session that was active in the channel is ended, and the sessions of
    other scopes are left as they were. *)
Theorem word_chain_start_is_hard_reset (json_dumps : json → string)
    (json_loads : string → json) c now1 now2 uuid channel_id status_message_id :
  healthy c → idle c →
  (∀ r, r ∈ active_game_sessions (disk c) → s_id r ≠ uuid) →
  let state :=
    JDict (dict_set "status_message_id" (JInt status_message_id)
                    WordChainGame._new_state) in
  ∃ c' r,
    WordChainGame.start_in_channel json_dumps now1 now2 uuid channel_id
      status_message_id c = (Ok uuid, c')
    ∧ active_rows "discord" (str channel_id) None "word_chain" (disk c') = [r]
    ∧ s_id r = uuid ∧ s_state r = json_dumps state
    ∧ fst (WordChainGame.get_state json_loads channel_id c')
      = Ok (Some (json_loads (json_dumps state)))
    ∧ (∀ x, x ∈ active_game_sessions (disk c) →
          active_in_scope "discord" (str channel_id) None "word_chain" x →
          set_status now1 "ended" x ∈ active_game_sessions (disk c'))
    ∧ (∀ x, x ∈ active_game_sessions (disk c) →
          ¬ active_in_scope "discord" (str channel_id) None "word_chain" x →
          x ∈ active_game_sessions (disk c')).
Proof.
  intros Hh Hi Hfresh state.
  destruct (hard_reset json_dumps c now1 now2 uuid "discord" (str channel_id)
              None "word_chain" state Hh Hi)
    as (c1 & c2 & r & E1 & E2 & Hh2 & Hi2 & Hact & Hid & Hst & _ & Hold & _).
  { by apply fresh_scope. }
  exists c2, r. split.
  { unfold WordChainGame.start_in_channel, bind, WordChainGame.key.
    rewrite E1. fold state. by rewrite E2. }
  split; [done|]. split; [done|]. split; [done|]. split.
  { unfold WordChainGame.get_state, bind, WordChainGame.key.
    rewrite get_active_session_healthy by done.
    rewrite (view_idle _ Hi2), Hact. simpl. unfold state_json, session_of_row.
    simpl. by rewrite Hst. }
  split.
  - intros x Hin Hx. apply where_active_in_scope_spec in Hx.
    specialize (Hold x Hin (Hfresh x Hin)). by rewrite Hx in Hold.
  - intros x Hin Hx. specialize (Hold x Hin (Hfresh x Hin)).
    destruct (where_active_in_scope _ _ _ _ x) eqn:E; [|done].
    by apply where_active_in_scope_spec in E.
Qed.

(** X8. [WordleGame.start_in_channel] names the session after the
    channel and the UTC date.  On a healthy and idle connection where a
    row of that name, if any, belongs to the channel's Wordle scope, it
    returns the name and leaves exactly one active Wordle session in the
    channel, holding the new puzzle; this covers the second start on one
    day, which finds the row of the first, ended or not, and sets it
    active again with the new state: after two starts on one day the
    channel still has exactly one active session, with the answer of
    the second start. *)
Theorem wordle_start_in_channel_one_session (json_dumps : json → string)
    c now1 now2 now3 now4 date_str answer answer' channel_id :
  let sid := (WordleGame.key +:+ ":" +:+ str channel_id +:+ ":" +:+ date_str)%string in
  healthy c → idle c →
  (∀ r, r ∈ active_game_sessions (disk c) → s_id r = sid →
        scope_of r = ("discord"%string, str channel_id, None, "wordle"%string)) →
  ∃ c1 c2 r1 r2,
    WordleGame.start_in_channel json_dumps now1 now2 date_str answer channel_id c
      = (Ok sid, c1)
    ∧ active_rows "discord" (str channel_id) None "wordle" (disk c1) = [r1]
    ∧ s_id r1 = sid
    ∧ s_state r1 = json_dumps (WordleGame._new_state answer date_str)
    ∧ WordleGame.start_in_channel json_dumps now3 now4 date_str answer' channel_id c1
      = (Ok sid, c2)
    ∧ active_rows "discord" (str channel_id) None "wordle" (disk c2) = [r2]
    ∧ s_id r2 = sid
    ∧ s_state r2 = json_dumps (WordleGame._new_state answer' date_str).
Proof.
  intros sid Hh Hi Hname. unfold WordleGame.key in sid.
  destruct (hard_reset json_dumps c now1 now2 sid "discord" (str channel_id)
              None "wordle" (WordleGame._new_state answer date_str) Hh Hi Hname)
    as (c1 & c2 & r1 & E1 & E2 & Hh2 & Hi2 & Hact & Hid & Hst & _ & _ & Hname2).
  destruct (hard_reset json_dumps c2 now3 now4 sid "discord" (str channel_id)
              None "wordle" (WordleGame._new_state answer' date_str) Hh2 Hi2 Hname2)
    as (c3 & c4 & r2 & E3 & E4 & _ & _ & Hact' & Hid' & Hst' & _).
  exists c2, c4, r1, r2.
  split.
  { unfold WordleGame.start_in_channel, bind, WordleGame.key.
    rewrite E1. fold sid. by rewrite E2. }
  split; [done|]. split; [done|]. split; [done|]. split.
  { unfold WordleGame.start_in_channel, bind, WordleGame.key.
    rewrite E3. fold sid. by rewrite E4. }
  done.
Qed.

(** X9. [WordleGame.stop_in_channel], on a healthy and idle connection,
    returns [False] and changes no table when the channel has no active
    Wordle session, and otherwise returns [True] and leaves the channel
    without active Wordle session. *)
Theorem wordle_stop_in_channel c now channel_id :
  healthy c → idle c →
  ∃ c',
    WordleGame.stop_in_channel now channel_id c
      = (Ok (bool_decide
               (active_rows "discord" (str channel_id) None "wordle" (disk c) ≠ [])),
         c')
    ∧ active_rows "discord" (str channel_id) None "wordle" (disk c') = []
    ∧ (active_rows "discord" (str channel_id) None "wordle" (disk c) = [] →
       disk c' = disk c).
Proof.
  intros Hh Hi. unfold WordleGame.stop_in_channel, bind, WordleGame.key.
  rewrite get_active_session_healthy by done. rewrite (view_idle _ Hi).
  destruct (active_rows "discord" (str channel_id) None "wordle" (disk c))
    as [|r rows] eqn:Hact; simpl.
  - eexists. split; [done|]. simpl. done.
  - rewrite end_active_in_location_healthy by (by apply healthy_tail in Hh).
    eexists. split; [done|]. simpl. split; [|done].
    by apply ended_rows_nil.
Qed.

(** X10. [UnscrambleGame._get_or_create_session], on a healthy
    connection where a row named after the channel, if any, belongs to
    the channel's Unscramble scope, always returns a session, never
    [None].  When the channel has an active session it returns that one
    and writes nothing, so the players' progress is kept; when it has
    none it creates or re-activates the channel's session with an empty
    player table and returns it, the only active one. *)
Theorem unscramble_get_or_create_session (json_dumps : json → string)
    (json_loads : string → json) c now channel_id :
  let sid := (UnscrambleGame.key +:+ ":" +:+ str channel_id)%string in
  let empty := JDict [("players"%string, JDict [])] in
  healthy c →
  (∀ r, r ∈ active_game_sessions (view c) → s_id r = sid →
        scope_of r = ("discord"%string, str channel_id, None, "unscramble"%string)) →
  ∃ res c',
    UnscrambleGame._get_or_create_session json_dumps json_loads now channel_id c
      = (Ok (Some res), c')
    ∧ match head (active_rows "discord" (str channel_id) None "unscramble" (view c)) with
      | Some r => res = (s_id r, json_loads (s_state r)) ∧ disk c' = disk c
      | None =>
          res = (sid, json_loads (json_dumps empty))
          ∧ ∃ r', active_rows "discord" (str channel_id) None "unscramble" (disk c') = [r']
                  ∧ s_id r' = sid ∧ s_state r' = json_dumps empty
      end.
Proof.
  intros sid empty Hh Hname. unfold UnscrambleGame.key in sid.
  unfold UnscrambleGame._get_or_create_session, bind, UnscrambleGame.key.
  rewrite get_active_session_healthy by done.
  destruct (active_rows "discord" (str channel_id) None "unscramble" (view c))
    as [|r rows] eqn:Hact; simpl.
  2: { eexists _, _. split; [done|]. done. }
  set (c0 := Conn (disk c) (txn c) (tail (faults c))).
  assert (healthy c0) as Hh0 by (by apply healthy_tail in Hh).
  destruct (upsert_round_trip json_dumps c0 now sid "discord" (str channel_id)
              None "unscramble" empty None Hh0 Hact Hname)
    as (c1 & c2 & s & r & E1 & E2 & Hact1 & -> & Hid & _ & Hst & _).
  unfold UnscrambleGame.start_in_channel, bind, UnscrambleGame.key.
  fold sid. fold empty. rewrite E1. unfold ret at 1. rewrite E2. unfold ret.
  assert (healthy c1) as Hh1.
  { pose proof (upsert_active_session_healthy json_dumps now sid "discord"
                  (str channel_id) None "unscramble" empty None c0 Hh0) as E.
    rewrite E1 in E. injection E as ->. apply LedgerFacts.healthy_conn. simpl.
    destruct c; simpl in *; auto. }
  assert (disk c2 = disk c1) as Hd.
  { pose proof (get_active_session_healthy c1 "discord" (str channel_id) None
                  "unscramble" Hh1) as E.
    rewrite E2 in E. by injection E as _ ->. }
  eexists _, _. split; [reflexivity|]. simpl in *.
  rewrite Hid, Hst. split; [done|].
  exists r. rewrite Hd. done.
Qed.

(** X11. Stop after start.  After [WordChainGame.start_in_channel]
    under the conditions of X7, [stop_in_channel] ends exactly one
    session and returns 1; the channel then has no state to read, and a
    second stop returns 0. *)
Theorem word_chain_stop_after_start (json_dumps : json → string)
    (json_loads : string → json) c now1 now2 now3 now4 uuid channel_id
    status_message_id :
  healthy c → idle c →
  (∀ r, r ∈ active_game_sessions (disk c) → s_id r ≠ uuid) →
  ∃ c1 c2,
    WordChainGame.start_in_channel json_dumps now1 now2 uuid channel_id
      status_message_id c = (Ok uuid, c1)
    ∧ WordChainGame.stop_in_channel now3 channel_id c1 = (Ok 1%nat, c2)
    ∧ fst (WordChainGame.get_state json_loads channel_id c2) = Ok None
    ∧ fst (WordChainGame.stop_in_channel now4 channel_id c2) = Ok 0%nat.
Proof.
  intros Hh Hi Hfresh.
  set (state := JDict (dict_set "status_message_id" (JInt status_message_id)
                                WordChainGame._new_state)).
  destruct (hard_reset json_dumps c now1 now2 uuid "discord" (str channel_id)
              None "word_chain" state Hh Hi)
    as (c1 & c2 & r & E1 & E2 & Hh2 & Hi2 & Hact & _).
  { by apply fresh_scope. }
  pose proof (end_active_in_location_healthy c2 now3 "discord" (str channel_id)
                None "word_chain" "ended" Hh2 Hi2) as E3.
  rewrite Hact in E3. simpl length in E3.
  set (c3 := Conn _ None (tail (tail (faults c2)))) in E3.
  assert (healthy c3) as Hh3
    by (apply LedgerFacts.healthy_conn; destruct c2; auto).
  assert (active_rows "discord" (str channel_id) None "word_chain" (disk c3) = [])
    as Hnil by (by apply ended_rows_nil).
  exists c2, c3. split.
  { unfold WordChainGame.start_in_channel, bind, WordChainGame.key.
    rewrite E1. fold state. by rewrite E2. }
  split; [done|]. split.
  - unfold WordChainGame.get_state, bind, WordChainGame.key.
    rewrite get_active_session_healthy by done.
    change (view c3) with (disk c3). by rewrite Hnil.
  - unfold WordChainGame.stop_in_channel, WordChainGame.key.
    rewrite end_active_in_location_healthy by done. by rewrite Hnil.
Qed.

(** X12. [WordleGame.restart_in_channel] opens a session of its own.
    On a healthy and idle connection where no row carries the restart
    name yet, it returns that name and leaves exactly one active Wordle
    session in the channel, the new one with the new puzzle; the sessions
    that were active in the channel, the day's session among them, are
    ended, and every other session is left as it was. *)
Theorem wordle_restart_in_channel_new_session (json_dumps : json → string)
    c now1 now2 date_str answer time_s channel_id :
  let rid := (WordleGame.key +:+ ":" +:+ str channel_id +:+ ":" +:+ date_str
              +:+ ":r" +:+ str time_s)%string in
  healthy c → idle c →
  (∀ r, r ∈ active_game_sessions (disk c) → s_id r ≠ rid) →
  ∃ c' r,
    WordleGame.restart_in_channel json_dumps now1 now2 date_str answer time_s
      channel_id c = (Ok rid, c')
    ∧ active_rows "discord" (str channel_id) None "wordle" (disk c') = [r]
    ∧ s_id r = rid
    ∧ s_state r = json_dumps (WordleGame._new_state answer date_str)
    ∧ (∀ x, x ∈ active_game_sessions (disk c) →
          active_in_scope "discord" (str channel_id) None "wordle" x →
          set_status now1 "ended" x ∈ active_game_sessions (disk c'))
    ∧ (∀ x, x ∈ active_game_sessions (disk c) →
          ¬ active_in_scope "discord" (str channel_id) None "wordle" x →
          x ∈ active_game_sessions (disk c')).
Proof.
  intros rid Hh Hi Hfresh. unfold WordleGame.key in rid.
  destruct (hard_reset json_dumps c now1 now2 rid "discord" (str channel_id)
              None "wordle" (WordleGame._new_state answer date_str) Hh Hi)
    as (c1 & c2 & r & E1 & E2 & _ & _ & Hact & Hid & Hst & _ & Hold & _).
  { by apply fresh_scope. }
  exists c2, r. split.
  { unfold WordleGame.restart_in_channel, bind, WordleGame.key.
    rewrite E1. fold rid. by rewrite E2. }
  split; [done|]. split; [done|]. split; [done|]. split.
  - intros x Hin Hx. apply where_active_in_scope_spec in Hx.
    specialize (Hold x Hin (Hfresh x Hin)). by rewrite Hx in Hold.
  - intros x Hin Hx. specialize (Hold x Hin (Hfresh x Hin)).
    destruct (where_active_in_scope _ _ _ _ x) eqn:E; [|done].
    by apply where_active_in_scope_spec in E.
Qed.



End GameSessions.

(** * Facts about the economy service *)

Module ServiceFacts.
Import Database EconomyRepository EconomyService LeaderboardPublisher.
Import DatabaseFacts LedgerFacts PublisherFacts.

#[local] Hint Resolve LedgerFacts.healthy_conn LedgerFacts.Forall_tail : core.

(** What [get_balance] does on a healthy, idle connection for a
    registered user: it returns the balance, writes no transaction row
    and changes no balance. *)
Lemma get_balance_reads c now u :
  healthy c → idle c → u ∈ users (disk c) →
  ∃ c', get_balance now u c = (Ok (balance_of u (disk c)), c')
    ∧ healthy c' ∧ idle c'
    ∧ bean_transactions (disk c') = bean_transactions (disk c)
    ∧ users (disk c') = users (disk c)
    ∧ ∀ v, balance_of v (disk c') = balance_of v (disk c).
Proof.
  intros Hh Hi Hu.
  destruct (bean_accounts (disk c) !! u) as [a|] eqn:Ha.
  - eexists. rewrite (get_balance_existing c now u a) by
      (try done; by rewrite (view_idle _ Hi)).
    unfold balance_of, select_balance. rewrite Ha. simpl.
    split; [done|]. split; [by apply healthy_tail|]. done.
  - eexists. rewrite get_balance_missing by done.
    unfold balance_of at 1, select_balance. rewrite Ha. simpl.
    split; [done|]. destruct c as [d t f]. simpl in *.
    split; [auto|]. split; [done|]. split; [done|]. split; [done|].
    intros v. unfold balance_of, select_balance. simpl.
    destruct (decide (v = u)) as [->|Hv].
    + by rewrite lookup_insert_eq, Ha.
    + by rewrite lookup_insert_ne.
Qed.


(** X15. An award of zero is a read: the balance is returned, no
    transaction row is written, no balance changes and the publisher is
    left alone, so no refresh is scheduled. *)
Theorem award_beans_discord_zero users_repo now d reason gk dn md s u c1 :
  users_repo d dn (db s) = (Ok u, c1) →
  healthy c1 → idle c1 → u ∈ users (disk c1) →
  ∃ s',
    award_beans_discord users_repo now d 0 reason gk dn md s
      = (Ok (balance_of u (disk c1)), s')
    ∧ _publisher s' = _publisher s
    ∧ bean_transactions (disk (db s')) = bean_transactions (disk c1)
    ∧ ∀ v, balance_of v (disk (db s')) = balance_of v (disk c1).
Proof.
  intros E1 Hh Hi Hu.
  destruct (get_balance_reads c1 now u Hh Hi Hu) as (c' & E & _ & _ & Ht & _ & Hb).
  exists (System c' (_publisher s)).
  unfold award_beans_discord. rewrite bool_decide_true by done.
  unfold get_balance_discord, bind at 1. rewrite E1, E. done.
Qed.


(** X17. A failed [Database.execute] leaves its implicit transaction
    open.  [get_balance] for an id that can be bound but has no row in
    [users] raises IntegrityError from its INSERT and does not commit;
    the next [apply_transaction] on the connection, for a registered
    user and a delta that can be bound and leaves the INTEGER balance
    within the signed 64-bit range, then fails at BEGIN with
    OperationalError, changes nothing and rolls back, after which the
    connection is idle again and the same call succeeds. *)
Theorem get_balance_failure_blocks_next_transaction c now u v delta reason gk md :
  healthy c → idle c →
  int64 u → u ∉ users (disk c) → bean_accounts (disk c) !! u = None →
  v ∈ users (disk c) →
  int64 delta → integer_balance v (disk c) →
  int64 (balance_of v (disk c) + delta) →
  ∃ c1 c2 c3,
    get_balance now u c = (Raise IntegrityError, c1)
    ∧ disk c1 = disk c ∧ txn c1 = Some (disk c)
    ∧ apply_transaction now v delta reason gk md c1 = (Raise OperationalError, c2)
    ∧ disk c2 = disk c ∧ idle c2
    ∧ apply_transaction now v delta reason gk md c2
        = (Ok (balance_of v (disk c) + delta), c3)
    ∧ balance_of v (disk c3) = balance_of v (disk c) + delta.
Proof.
  destruct c as [d t f]. unfold healthy, idle; simpl.
  intros Hf -> _ Hu Ha Hv Hd Hint Hfit.
  eexists _, _.
  assert (get_balance now u (Conn d None f)
          = (Raise IntegrityError, Conn d (Some d) (tail (tail f)))) as E1.
  { unfold get_balance, fetchone, execute, bind.
    rewrite conn_select_healthy by done. unfold view at 1; simpl.
    unfold select_balance at 1. rewrite Ha. simpl.
    rewrite conn_execute_healthy by auto. unfold view; simpl.
    unfold insert_or_ignore_account. rewrite Ha.
    by rewrite decide_False. }
  assert (apply_transaction now v delta reason gk md (Conn d (Some d) (tail (tail f)))
          = (Raise OperationalError, Conn d None (tail (tail (tail f))))) as E2.
  { unfold apply_transaction, transaction, bind, conn_begin.
    rewrite next_fault_healthy by auto. done. }
  destruct (apply_transaction_spec (Conn d None (tail (tail (tail f)))) now v delta
              reason gk md) as (c3 & a & E3 & _ & _ & A3 & B3 & _);
    [auto 10|done|done|done|done|done|].
  exists c3. rewrite E1, E2. simpl in *. rewrite E3.
  repeat split; try done.
  unfold balance_of at 1, select_balance. by rewrite A3.
Qed.

End ServiceFacts.

(** * Facts about the epoch cooldowns *)

Module CooldownFacts.
Import Cooldowns.

(** X18. Whatever the times of the attempts, in whatever order, and
    whatever the cache held before: two consecutive allowed attempts on
    one key are at least the cooldown apart, and the first allowed
    attempt is at least the cooldown after the cached time, when the
    cache held one. *)
Theorem try_acquire_epoch_spacing action u l cd times : ∀ st,
  let answers := fst (acquire_all action u l cd times st) in
  spaced cd (allowed_times times answers)
  ∧ after_last cd (get_epoch action u l st) (allowed_times times answers).
Proof.
  induction times as [|t times IH]; intros st; simpl.
  { split; [done|]. unfold after_last. by destruct (get_epoch _ _ _ _). }
  unfold try_acquire_epoch, check_epoch, get_epoch.
  set (key := (action, str_of u, str_of l)).
  destruct (st !! key) as [last|] eqn:E; simpl.
  - destruct (bool_decide_reflect (cd ≤ t - last)) as [Hle|Hlt]; simpl.
    + specialize (IH (<[key := t]> st)).
      destruct (acquire_all action u l cd times (<[key := t]> st)) as [answers st2].
      simpl in *. destruct IH as [IH1 IH2].
      unfold get_epoch in IH2. fold key in IH2. rewrite lookup_insert_eq in IH2.
      split; [|done].
      destruct (allowed_times times answers) as [|b tl]; [done|].
      simpl in IH2. done.
    + specialize (IH st).
      destruct (float_of_int (cd - (t - last))) as [wait|];
        destruct (acquire_all action u l cd times st) as [answers st2];
        simpl in *; destruct IH as [IH1 IH2];
        unfold get_epoch in IH2; fold key in IH2; rewrite E in IH2; done.
  - specialize (IH (<[key := t]> st)).
    destruct (acquire_all action u l cd times (<[key := t]> st)) as [answers st2].
    simpl in *. destruct IH as [IH1 IH2].
    unfold get_epoch in IH2. fold key in IH2. rewrite lookup_insert_eq in IH2.
    split; [|done].
    destruct (allowed_times times answers) as [|b tl]; [done|].
    simpl in IH2. done.
Qed.

(** Integers of at most 53 bits are doubles. *)
Lemma round_double_small z : Z.abs z < 2 ^ 53 → round_double z = z.
Proof.
  intros Hz. unfold round_double.
  rewrite bool_decide_true; [done|].
  destruct (decide (Z.abs z = 0)) as [->|Hnz]; [simpl; lia|].
  assert (Z.log2 (Z.abs z) < 53); [|lia].
  apply Z.log2_lt_pow2; lia.
Qed.

(** Rounding to a double keeps the sign. *)
Lemma round_double_pos z : 0 < z → 0 < round_double z.
Proof.
  intros Hz. unfold round_double.
  destruct (bool_decide_reflect (Z.log2 (Z.abs z) - 52 ≤ 0)) as [He|He]; [done|].
  rewrite Z.abs_eq by lia. rewrite Z.sgn_pos by done.
  set (e := Z.log2 z - 52) in *. rewrite Z.abs_eq in He by lia. fold e in He.
  assert (0 < Z.shiftr z e) as Hq.
  { rewrite Z.shiftr_div_pow2 by lia.
    apply Z.div_str_pos. split; [apply Z.pow_pos_nonneg; lia|].
    transitivity (2 ^ Z.log2 z).
    - apply Z.pow_le_mono_r; lia.
    - apply Z.log2_spec. done. }
  rewrite Z.mul_1_l, Z.shiftl_mul_pow2 by lia.
  apply Z.mul_pos_pos; [|apply Z.pow_pos_nonneg; lia].
  destruct (_ || _); lia.
Qed.

Lemma float_of_int_small z : Z.abs z < 2 ^ 53 → float_of_int z = Some z.
Proof.
  intros Hz. unfold float_of_int. rewrite round_double_small by done.
  rewrite bool_decide_true; [done|].
  eapply Z.lt_trans; [done|]. by apply Z.pow_lt_mono_r.
Qed.

(** X19. A denied attempt changes nothing.  The wait it announces is
    positive; it is the time left until the cooldown after the cached
    time is over, rounded to a double on its way through
    [retry_after_seconds], so exactly that time when it is below 2^53.
    An attempt at another time is allowed when, and only when, the
    cooldown after the cached time is over then; otherwise it is
    denied, or raises OverflowError when its wait has no double. *)
Theorem try_acquire_epoch_denied action u l cd now clock st r st' :
  try_acquire_epoch action u l cd (Some now) clock st = (Ok (false, r), st') →
  st' = st ∧ 0 < r
  ∧ ∃ last,
      get_epoch action u l st = Some last
      ∧ now < last + cd
      ∧ r = round_double (last + cd - now)
      ∧ (last + cd - now < 2 ^ 53 → r = last + cd - now)
      ∧ ∀ now' clock',
          fst (try_acquire_epoch action u l cd (Some now') clock' st')
            = if bool_decide (last + cd ≤ now') then Ok (true, 0)
              else match float_of_int (last + cd - now') with
                   | Some r' => Ok (false, r')
                   | None => Raise OverflowError
                   end.
Proof.
  unfold try_acquire_epoch, check_epoch, get_epoch.
  set (key := (action, str_of u, str_of l)).
  destruct (st !! key) as [last|] eqn:E; simpl; [|done].
  destruct (bool_decide_reflect (cd ≤ now - last)) as [Hle|Hlt]; simpl; [done|].
  destruct (float_of_int (cd - (now - last))) as [wait|] eqn:F; [|done].
  intros [= <- <-].
  unfold float_of_int in F. destruct (bool_decide _); [|done].
  injection F as <-.
  replace (cd - (now - last)) with (last + cd - now) by lia.
  split; [done|]. split; [apply round_double_pos; lia|].
  exists last. split; [done|]. split; [lia|]. split; [done|]. split.
  - intros Hs. apply round_double_small. lia.
  - intros now' _. rewrite E.
    destruct (bool_decide_reflect (cd ≤ now' - last)) as [Hle'|Hlt']; simpl.
    + by rewrite bool_decide_true by lia.
    + rewrite bool_decide_false by lia.
      replace (cd - (now' - last)) with (last + cd - now') by lia.
      by destruct (float_of_int _).
Qed.

(** X20. A seeded time is what the cache gives back, and it is what
    the next attempt is measured against: the attempt is allowed when
    the cooldown has passed since the seeded time, and is otherwise
    denied with the remainder, rounded to a double (the remainder
    itself when it is below 2^53), or raises OverflowError when the
    remainder has no double.  Seeding for one numeric user leaves the
    cache of every other numeric user as it was. *)
Theorem seed_epoch_then_acquire action u l last cd now clock st :
  let st1 := seed_epoch action u l last st in
  get_epoch action u l st1 = Some last
  ∧ fst (try_acquire_epoch action u l cd (Some now) clock st1)
      = (if bool_decide (last + cd ≤ now) then Ok (true, 0)
         else match float_of_int (last + cd - now) with
              | Some r => Ok (false, r)
              | None => Raise OverflowError
              end)
  ∧ (now < last + cd → last + cd - now < 2 ^ 53 →
       fst (try_acquire_epoch action u l cd (Some now) clock st1)
         = Ok (false, last + cd - now))
  ∧ ∀ m n l', u = inl m → m ≠ n →
      get_epoch action (inl n) l' st1 = get_epoch action (inl n) l' st.
Proof.
  unfold seed_epoch, get_epoch, try_acquire_epoch, check_epoch. simpl.
  set (key := (action, str_of u, str_of l)).
  rewrite lookup_insert_eq. split; [done|].
  assert (cd - (now - last) = last + cd - now) as -> by lia.
  split; [|split].
  - destruct (bool_decide_reflect (cd ≤ now - last)) as [Hle|Hlt]; simpl.
    + by rewrite bool_decide_true by lia.
    + rewrite bool_decide_false by lia. by destruct (float_of_int _).
  - intros H1 H2. rewrite bool_decide_false by lia.
    rewrite float_of_int_small by lia. done.
  - intros m n l' -> Hne. unfold key. simpl.
    rewrite lookup_insert_ne; [done|].
    intros [= Hs _]. apply Hne. unfold str in Hs.
    by apply (inj pretty) in Hs.
Qed.

End CooldownFacts.

(** * Facts about the reward rules *)

Module RewardFacts.
Import RewardsService.

(** X21. Overrides given to the constructor win over the defaults, and
    the defaults stay for every other key; [with_overrides] changes
    the rules it is given and keeps every other rule of the service,
    the constructor's second merge with the defaults changing nothing.
    So a key with a default never raises KeyError, whatever the
    overrides. *)
Theorem with_overrides_amount o1 o2 key :
  let service := init o1 in
  amount service key
    = match o1 ≫= (.!! key) with
      | Some n => Amount n
      | None => amount default_rules key
      end
  ∧ amount (with_overrides service o2) key
    = match o2 !! key with
      | Some n => Amount n
      | None => amount service key
      end
  ∧ (is_Some (default_rules !! key) →
     amount (with_overrides service o2) key ≠ KeyError).
Proof.
  simpl.
  assert (∀ rules, amount (with_overrides (rules ∪ default_rules) o2) key
          = match o2 !! key with
            | Some n => Amount n
            | None => amount (rules ∪ default_rules) key
            end) as Hw.
  { intros rules. unfold with_overrides, snapshot, init, amount.
    rewrite !lookup_union.
    destruct (o2 !! key), (rules !! key), (default_rules !! key); done. }
  assert (∀ rules, amount (rules ∪ default_rules) key
          = match rules !! key with
            | Some n => Amount n
            | None => amount default_rules key
            end) as Hi.
  { intros rules. unfold amount. rewrite lookup_union.
    destruct (rules !! key), (default_rules !! key); done. }
  destruct o1 as [o1|]; simpl.
  - split; [apply Hi|]. split; [apply Hw|].
    intros [n Hn]. rewrite Hw, Hi.
    unfold amount. rewrite Hn.
    by destruct (o2 !! key), (o1 !! key).
  - split; [done|].
    pose proof (Hw ∅) as Hw0. rewrite (left_id_L ∅ (∪)) in Hw0.
    split; [done|].
    intros [n Hn]. rewrite Hw0.
    unfold amount. rewrite Hn.
    by destruct (o2 !! key).
Qed.

End RewardFacts.

(** * More facts about the debounced refresh *)

Module DebounceFacts.
Import LeaderboardPublisher Debounce PublisherFacts.

Lemma armed_calls gaps : ∀ t p w,
  bot p = true → loop p = true → armed p w → clock p ≤ t →
  0 ≤ debounce_seconds p →
  Forall (fun g => 0 ≤ g ∧ g ≠ debounce_seconds p) gaps →
  let p' := calls_at (call_times t gaps) p in
  armed p' (last_time t gaps + debounce_seconds p)
  ∧ refreshes p' =
      refreshes p ++ (if bool_decide (w ≤ t) then [w] else [])
        ++ refreshed_between (debounce_seconds p) t gaps
  ∧ clock p' = last_time t gaps
  ∧ bot p' = true ∧ loop p' = true
  ∧ debounce_seconds p' = debounce_seconds p.
Proof.
  assert (∀ t p w, bot p = true → loop p = true → armed p w → clock p ≤ t →
    0 ≤ debounce_seconds p →
    armed (call_at t p) (t + debounce_seconds p)
    ∧ refreshes (call_at t p) =
        refreshes p ++ (if bool_decide (w ≤ t) then [w] else [])
    ∧ clock (call_at t p) = t
    ∧ bot (call_at t p) = true ∧ loop (call_at t p) = true
    ∧ debounce_seconds (call_at t p) = debounce_seconds p) as Hone.
  { intros t p w Hb Hl Ha Hc HD.
    destruct (call_at_any p t Hb Hl Hc) as (A & R & C & B & L & D & _).
    { unfold armed in Ha. intros s a rest r E. congruence. }
    unfold armed in Ha. rewrite Ha in R. rewrite Z.max_r in A by done.
    repeat split; done. }
  induction gaps as [|g gaps IH]; intros t p w Hb Hl Ha Hc HD Hg; simpl.
  - destruct (Hone t p w) as (A & R & C & B & L & D); auto.
    rewrite app_nil_r. auto 10.
  - apply Forall_cons in Hg as [Hg0 Hg].
    destruct (Hone t p w) as (A & R & C & B & L & D); auto.
    destruct (IH (t + g) (call_at t p) (t + debounce_seconds p))
      as (A' & R' & C' & B' & L' & D'); [done|done|done|lia|by rewrite D|by rewrite D|].
    rewrite D in A', R', D'. rewrite R in R'.
    split; [done|]. split; [|auto].
    rewrite R', <- !app_assoc. do 2 f_equal.
    destruct (bool_decide_reflect (debounce_seconds p < g)) as [Hd|Hd].
    + by rewrite bool_decide_true by lia.
    + by rewrite bool_decide_false by lia.
Qed.

(** X22. Calls of [schedule_refresh] at any distance from one another
    (but not exactly the debounce window D, when the timer and the next
    call fall together), with the bot attached and nothing pending
    beforehand: for every call that is followed by a gap longer than D
    an execution of [refresh_now] begins D after the call, every other
    call but the last is superseded without one, and the last call
    leaves one refresh pending, which begins D after it.  So the
    executions are never more than the calls.  A call that finds an
    execution in flight cancels it: the task ends there, and until the
    new timer is over nothing more happens. *)
Theorem schedule_refresh_any_gaps p t gaps :
  bot p = true → loop p = true → quiet p → clock p ≤ t →
  0 ≤ debounce_seconds p →
  Forall (fun g => 0 ≤ g ∧ g ≠ debounce_seconds p) gaps →
  let D := debounce_seconds p in
  let p' := calls_at (call_times t gaps) p in
  refreshes p' = refreshes p ++ refreshed_between D t gaps
  ∧ armed p' (last_time t gaps + D)
  ∧ (∀ T, last_time t gaps + D ≤ T →
       refreshes (advance T p') =
         refreshes p ++ refreshed_between D t gaps ++ [last_time t gaps + D])
  ∧ (length (refreshed_between D t gaps) < length (call_times t gaps))%nat
  ∧ (∀ q since resume_at rest r T,
       bot q = true → loop q = true →
       _pending_task q = Some (Running since resume_at rest r) →
       clock q ≤ T < clock q + Z.max 0 (debounce_seconds q) →
       past (schedule_refresh q) = past q ++ [Cancelled]
       ∧ armed (schedule_refresh q) (clock q + Z.max 0 (debounce_seconds q))
       ∧ trace (advance T (schedule_refresh q))
           = trace q ++ [(clock q, Logged (InfoRefreshScheduled (debounce_seconds q)))]).
Proof.
  intros Hb Hl Hq Hc HD Hg D p'.
  assert (refreshes p' = refreshes p ++ refreshed_between D t gaps
          ∧ armed p' (last_time t gaps + D)
          ∧ clock p' = last_time t gaps) as (R & A & C).
  { unfold p'. destruct gaps as [|g gaps]; simpl.
    - destruct (call_at_arms p t) as (A & R & C & _); auto.
      rewrite Z.max_r in A by done. by rewrite app_nil_r.
    - apply Forall_cons in Hg as [Hg0 Hg].
      destruct (call_at_arms p t) as (A & R & C & B & L & D' & _); auto.
      rewrite Z.max_r in A by done.
      destruct (armed_calls gaps (t + g) (call_at t p) (t + D))
        as (A' & R' & C' & _); [done|done|done|lia|by rewrite D'|by rewrite D'|].
      rewrite D' in A', R'. rewrite R in R'. fold D in R'.
      split; [|done]. rewrite R'. f_equal. f_equal. unfold D in *.
      destruct (bool_decide_reflect (debounce_seconds p < g)) as [Hd|Hd].
      + by rewrite bool_decide_true by lia.
      + by rewrite bool_decide_false by lia. }
  split; [done|]. split; [done|]. split; [|split].
  - intros T HT.
    destruct (advance_due p' (last_time t gaps + D) T A) as (k & tr & E & Etr & _);
      [lia..|].
    rewrite E. unfold refreshes in *. simpl.
    rewrite entries_app, Etr, R. by rewrite <- app_assoc.
  - clear. revert t. induction gaps as [|g gaps IH]; intros t; simpl; [lia|].
    rewrite length_app. specialize (IH (t + g)).
    destruct (bool_decide (D < g)); simpl; lia.
  - intros q since resume_at rest r T Hbq Hlq Hp HT.
    rewrite (schedule_refresh_arms q Hbq Hlq). rewrite Hp. simpl.
    split; [done|]. split; [done|].
    unfold advance. simpl.
    rewrite bool_decide_false by lia. rewrite bool_decide_false by lia.
    simpl. by rewrite app_nil_r.
Qed.

Lemma calls_at_unattached times : ∀ p,
  bot p = false ∨ loop p = false → quiet p →
  let p' := calls_at times p in
  quiet p' ∧ refreshes p' = refreshes p ∧ tasks p' = tasks p
  ∧ bot p' = bot p ∧ loop p' = loop p.
Proof.
  induction times as [|t times IH]; intros p Hbl Hq; simpl; [done|].
  assert (quiet (advance t p) ∧ refreshes (advance t p) = refreshes p
          ∧ tasks (advance t p) = tasks p
          ∧ bot (advance t p) = bot p ∧ loop (advance t p) = loop p)
    as (Q1 & R1 & T1 & B1 & L1).
  { destruct (decide (t < clock p)) as [Hlt|Hge].
    - unfold advance. by rewrite bool_decide_true.
    - rewrite (advance_quiet p t Hq) by lia. done. }
  assert (quiet (call_at t p) ∧ refreshes (call_at t p) = refreshes p
          ∧ tasks (call_at t p) = tasks p
          ∧ bot (call_at t p) = bot p ∧ loop (call_at t p) = loop p)
    as (Q2 & R2 & T2 & B2 & L2).
  { unfold call_at, schedule_refresh. rewrite B1, L1.
    destruct Hbl as [-> | ->]; simpl.
    - unfold refreshes in *. simpl. rewrite refreshes_snoc_log. done.
    - destruct (bot p); simpl; [|unfold refreshes in *; simpl;
                                   rewrite refreshes_snoc_log; done].
      unfold refreshes in *. simpl. rewrite refreshes_snoc_log. done. }
  destruct (IH (call_at t p)) as (Q & R & T & B & L); [congruence|done|].
  simpl in *. repeat split; congruence.
Qed.

(** X23. While the bot is not attached, or no event loop is found,
    [schedule_refresh] arms nothing: after any calls at any times, and
    however long the loop then runs, no refresh has run and no task
    was created. *)
Theorem schedule_refresh_unattached p times T :
  bot p = false ∨ loop p = false → quiet p →
  refreshes (advance T (calls_at times p)) = refreshes p
  ∧ tasks (advance T (calls_at times p)) = tasks p.
Proof.
  intros Hbl Hq.
  destruct (calls_at_unattached times p Hbl Hq) as (Q & R & Tk & _).
  destruct (decide (T < clock (calls_at times p))) as [Hlt|Hge].
  - unfold advance. by rewrite bool_decide_true.
  - rewrite (advance_quiet _ T Q) by lia. done.
Qed.

End DebounceFacts.

(** * Facts about the rank query *)

Module RankFacts.
Import Database EconomyRepository LeaderboardRepository DatabaseFacts LedgerFacts.

Lemma get_user_rank_healthy c u :
  healthy c →
  get_user_rank u c =
    (Ok (select_user_rank u (view c)), Conn (disk c) (txn c) (tail (faults c))).
Proof.
  intros Hh. unfold get_user_rank, fetchone, bind.
  rewrite conn_select_healthy by done.
  by destruct (select_user_rank u (view c)).
Qed.

Lemma richer_than_lookup b t w x :
  richer_than b t !! w = Some x ↔ bean_accounts t !! w = Some x ∧ b < balance x.
Proof. unfold richer_than. by rewrite map_lookup_filter_Some. Qed.

(** Strictly fewer accounts are richer than a balance than are richer
    than a smaller one, when an account lies in between. *)
Lemma richer_than_strict b b' t w x :
  bean_accounts t !! w = Some x → b < balance x → balance x ≤ b' →
  (size (richer_than b' t) < size (richer_than b t))%nat.
Proof.
  intros Hw Hlo Hhi. apply map_subset_size, map_subset_alt. split.
  - apply map_subseteq_spec. intros w' x'. rewrite !richer_than_lookup.
    intros [? ?]. split; [done|lia].
  - exists w. split.
    + destruct (richer_than b' t !! w) as [y|] eqn:E; [|done].
      apply richer_than_lookup in E as [E1 E2]. rewrite Hw in E1.
      injection E1 as <-. lia.
    + exists x. by apply richer_than_lookup.
Qed.

(** X24. [get_user_rank] ranks by balance: a user without account has
    no rank; the rank of an account lies between 1 and the number of
    accounts; accounts with equal balances share their rank; and an
    account with a greater balance has a strictly better rank. *)
Theorem get_user_rank_orders_by_balance c u v :
  healthy c →
  ∃ ru rv,
    fst (get_user_rank u c) = Ok ru ∧ fst (get_user_rank v c) = Ok rv
    ∧ (ru = None ↔ bean_accounts (view c) !! u = None)
    ∧ ∀ x y, ru = Some x → rv = Some y →
        rank_user_id x = u
        ∧ rank_balance x = balance_of u (view c)
        ∧ 1 ≤ rank x ≤ Z.of_nat (size (bean_accounts (view c)))
        ∧ (rank_balance x = rank_balance y → rank x = rank y)
        ∧ (rank_balance y < rank_balance x → rank x < rank y).
Proof.
  intros Hh. rewrite !get_user_rank_healthy by done. simpl.
  eexists _, _. split; [done|]. split; [done|].
  unfold select_user_rank, balance_of, select_balance. split.
  { destruct (bean_accounts (view c) !! u); done. }
  intros x y.
  destruct (bean_accounts (view c) !! u) as [a|] eqn:Ha; [|done].
  destruct (bean_accounts (view c) !! v) as [b|] eqn:Hb; [|done].
  intros [= <-] [= <-]. simpl.
  split; [done|]. split; [done|]. split; [|split].
  - assert (size (richer_than (balance a) (view c))
            < size (bean_accounts (view c)))%nat as Hlt; [|lia].
    apply map_subset_size, map_subset_alt. split.
    + apply map_filter_subseteq.
    + exists u. split; [|by exists a].
      destruct (richer_than (balance a) (view c) !! u) as [z|] eqn:E; [|done].
      apply richer_than_lookup in E as [E1 E2]. rewrite Ha in E1.
      injection E1 as <-. lia.
  - by intros ->.
  - intros Hlt.
    pose proof (richer_than_strict (balance b) (balance a) (view c) u a Ha Hlt) as S.
    lia.
Qed.

(** X25. A credit never costs its receiver rank, and never gains
    another account rank: after [apply_transaction] with a delta that
    is not negative, can be bound and leaves the INTEGER balance of the
    receiver within the signed 64-bit range, on a healthy and idle
    connection, the balance of the receiver has grown by the delta, the
    rank of the credited account is at most what it was, and the rank of
    every other account is at least what it was. *)
Theorem apply_transaction_credit_rank c now u delta reason gk md a v b :
  healthy c → idle c → u ∈ users (disk c) → 0 ≤ delta →
  bean_accounts (disk c) !! u = Some a →
  bean_accounts (disk c) !! v = Some b → v ≠ u →
  int64 delta → balance_real a = false → int64 (balance a + delta) →
  ∃ c' ru rv ru' rv',
    snd (apply_transaction now u delta reason gk md c) = c'
    ∧ fst (get_user_rank u c) = Ok (Some ru)
    ∧ fst (get_user_rank v c) = Ok (Some rv)
    ∧ fst (get_user_rank u c') = Ok (Some ru')
    ∧ fst (get_user_rank v c') = Ok (Some rv')
    ∧ rank_balance ru' = rank_balance ru + delta
    ∧ rank_balance rv' = rank_balance rv
    ∧ rank ru' ≤ rank ru
    ∧ rank rv ≤ rank rv'.
Proof.
  intros Hh Hi Hu Hd Ha Hb Hne Hbind Hreal Hfit.
  destruct (apply_transaction_spec c now u delta reason gk md Hh Hi Hu Hbind)
    as (c' & a' & E & Hh' & Hi' & Ha' & Hbal & Hothers & _).
  { intros a0 Ha0. congruence. }
  { unfold balance_of, select_balance. by rewrite Ha. }
  exists c'. rewrite E. simpl.
  rewrite !get_user_rank_healthy by done. simpl.
  rewrite (view_idle _ Hi), (view_idle _ Hi').
  unfold select_user_rank. rewrite Ha, Hb, Ha', (Hothers v Hne), Hb.
  eexists _, _, _, _. do 5 (split; [done|]). simpl.
  assert (balance a' = balance a + delta) as Hbal'.
  { rewrite Hbal. unfold balance_of, select_balance. by rewrite Ha. }
  split; [done|]. split; [done|].
  split.
  - assert (size (richer_than (balance a') (disk c'))
            ≤ size (richer_than (balance a) (disk c)))%nat as Hle; [|lia].
    rewrite <- !size_dom. apply subseteq_size.
    intros w. rewrite !elem_of_dom. intros [x [Hw Hx]%richer_than_lookup].
    destruct (decide (w = u)) as [->|Hwu].
    + rewrite Ha' in Hw. injection Hw as <-. lia.
    + rewrite (Hothers w Hwu) in Hw. exists x. apply richer_than_lookup.
      split; [done|lia].
  - assert (size (richer_than (balance b) (disk c))
            ≤ size (richer_than (balance b) (disk c')))%nat as Hle; [|lia].
    rewrite <- !size_dom. apply subseteq_size.
    intros w. rewrite !elem_of_dom. intros [x [Hw Hx]%richer_than_lookup].
    destruct (decide (w = u)) as [->|Hwu].
    + rewrite Ha in Hw. injection Hw as <-.
      exists a'. apply richer_than_lookup. split; [done|lia].
    + exists x. apply richer_than_lookup. by rewrite (Hothers w Hwu).
Qed.

End RankFacts.

(** * Facts about the evaluation of a Wordle guess *)

Module WordleFacts.
Import Wordle.

Section Evaluate.
Context {char : Type} `{Countable char}.
Implicit Types (answer guess : list char) (R : gmap char Z) (row : list emoji).

Lemma drop_lookup_cons {A} (l : list A) k x :
  l !! k = Some x → drop k l = x :: drop (S k) l.
Proof.
  revert k. induction l as [|y l IH]; intros [|k]; simpl; try done.
  - by intros [= ->].
  - apply IH.
Qed.

(** The first loop raises when a string is too short. *)
Lemma greens_loop_raises answer guess m : ∀ k s,
  (∃ i, (k ≤ i < k + m)%nat ∧ (answer !! i = None ∨ guess !! i = None)) →
  for_range (seq k m) (greens_body answer guess) s = None.
Proof.
  induction m as [|m IH]; intros k s (i & Hi & Hnone); [lia|].
  simpl. destruct (greens_body answer guess k s) as [s'|] eqn:E; [|done].
  apply IH. exists i. split; [|done].
  destruct (decide (i = k)) as [->|]; [|lia].
  exfalso. unfold greens_body in E. destruct s as [res R].
  destruct Hnone as [Hn|Hn].
  - by rewrite Hn in E.
  - destruct (answer !! k); [|done]. by rewrite Hn in E.
Qed.

(** The first loop on strings that are long enough. *)
Lemma greens_loop answer guess m : ∀ k pre R,
  length pre = k →
  (k + m ≤ length answer)%nat → (k + m ≤ length guess)%nat →
  for_range (seq k m) (greens_body answer guess) (pre ++ replicate m EMOJI_RED, R)
  = Some (pre ++ fst (greens_of (take m (drop k answer)) (take m (drop k guess)) R),
          snd (greens_of (take m (drop k answer)) (take m (drop k guess)) R)).
Proof.
  induction m as [|m IH]; intros k pre R Hp Ha Hg.
  { simpl. done. }
  destruct (lookup_lt_is_Some_2 answer k) as [a Hak]; [lia|].
  destruct (lookup_lt_is_Some_2 guess k) as [g Hgk]; [lia|].
  rewrite (drop_lookup_cons _ _ _ Hak), (drop_lookup_cons _ _ _ Hgk).
  cbn [seq for_range take greens_of replicate].
  unfold greens_body at 1. rewrite Hak, Hgk.
  destruct (decide (g = a)) as [->|Hne].
  - assert (<[k := EMOJI_GREEN]> (pre ++ EMOJI_RED :: replicate m EMOJI_RED)
            = (pre ++ [EMOJI_GREEN]) ++ replicate m EMOJI_RED) as ->.
    { rewrite insert_app_r_alt by lia. rewrite Hp, Nat.sub_diag. simpl.
      by rewrite <- app_assoc. }
    rewrite IH by (rewrite ?length_app; simpl; lia).
    destruct (greens_of _ _ R) as [row r]. simpl.
    by rewrite <- app_assoc.
  - assert (pre ++ EMOJI_RED :: replicate m EMOJI_RED
            = (pre ++ [EMOJI_RED]) ++ replicate m EMOJI_RED) as ->.
    { by rewrite <- app_assoc. }
    rewrite IH by (rewrite ?length_app; simpl; lia).
    destruct (greens_of _ _ _) as [row r]. simpl.
    by rewrite <- app_assoc.
Qed.

(** The second loop. *)
Lemma yellows_loop guess row : ∀ k pre R,
  length pre = k → (k + length row ≤ length guess)%nat →
  for_range (seq k (length row)) (yellows_body guess) (pre ++ row, R)
  = Some (pre ++ fst (yellows_of (take (length row) (drop k guess)) row R),
          snd (yellows_of (take (length row) (drop k guess)) row R)).
Proof.
  induction row as [|e row IH]; intros k pre R Hp Hg.
  { simpl. done. }
  simpl in Hg.
  destruct (lookup_lt_is_Some_2 guess k) as [g Hgk]; [lia|].
  rewrite (drop_lookup_cons _ _ _ Hgk).
  cbn [length seq for_range take yellows_of].
  unfold yellows_body at 1.
  rewrite lookup_app_r by lia. rewrite Hp, Nat.sub_diag. simpl.
  assert (pre ++ e :: row = (pre ++ [e]) ++ row) as Hsame
    by (by rewrite <- app_assoc).
  destruct (decide (e = EMOJI_GREEN)) as [->|Hne].
  - rewrite Hsame.
    rewrite IH by (rewrite ?length_app; simpl; lia).
    destruct (yellows_of _ _ R) as [row2 r]. simpl.
    by rewrite <- app_assoc.
  - rewrite Hgk.
    destruct (bool_decide (0 < remaining_get R g)).
    + assert (<[k := EMOJI_YELLOW]> (pre ++ e :: row)
              = (pre ++ [EMOJI_YELLOW]) ++ row) as ->.
      { rewrite insert_app_r_alt by lia. rewrite Hp, Nat.sub_diag. simpl.
        by rewrite <- app_assoc. }
      rewrite IH by (rewrite ?length_app; simpl; lia).
      destruct (yellows_of _ _ _) as [row2 r]. simpl.
      by rewrite <- app_assoc.
    + rewrite Hsame.
      rewrite IH by (rewrite ?length_app; simpl; lia).
      destruct (yellows_of _ _ R) as [row2 r]. simpl.
      by rewrite <- app_assoc.
Qed.

Lemma greens_of_length answer guess : ∀ R,
  length answer = length guess →
  length (fst (greens_of answer guess R)) = length answer.
Proof.
  revert guess. induction answer as [|a answer IH]; intros [|g guess] R Hl;
    simpl in *; try done.
  injection Hl as Hl.
  destruct (decide (g = a)).
  - specialize (IH guess R Hl). destruct (greens_of answer guess R). simpl in *.
    by rewrite IH.
  - specialize (IH guess (<[a := remaining_get R a + 1]> R) Hl).
    destruct (greens_of answer guess _). simpl in *. by rewrite IH.
Qed.

Lemma yellows_of_length guess row : ∀ R,
  length guess = length row →
  length (fst (yellows_of guess row R)) = length row.
Proof.
  revert row. induction guess as [|g guess IH]; intros [|e row] R Hl;
    simpl in *; try done.
  injection Hl as Hl.
  destruct (decide (e = EMOJI_GREEN)).
  - specialize (IH row R Hl). destruct (yellows_of guess row R). simpl in *.
    by rewrite IH.
  - destruct (bool_decide _).
    + specialize (IH row (<[g := remaining_get R g - 1]> R) Hl).
      destruct (yellows_of guess row _). simpl in *. by rewrite IH.
    + specialize (IH row R Hl). destruct (yellows_of guess row R). simpl in *.
      by rewrite IH.
Qed.

(** What [_evaluate_guess] computes. *)
Lemma _evaluate_guess_eq lower answer guess :
  _evaluate_guess lower answer guess =
    if decide (5 ≤ length (lower answer) ∧ 5 ≤ length (lower guess))%nat
    then
      let a5 := take 5 (lower answer) in
      let g5 := take 5 (lower guess) in
      let s1 := greens_of a5 g5 ∅ in
      Some (fst (yellows_of g5 (fst s1) (snd s1)))
    else None.
Proof.
  unfold _evaluate_guess.
  destruct (decide _) as [[Ha Hg]|Hshort].
  - pose proof (greens_loop (lower answer) (lower guess) 5 0 [] ∅) as E1.
    rewrite !drop_0, !app_nil_l in E1. rewrite E1 by (simpl; lia).
    set (a5 := take 5 (lower answer)). set (g5 := take 5 (lower guess)).
    assert (length (fst (greens_of a5 g5 ∅)) = 5%nat) as Hl.
    { rewrite greens_of_length; unfold a5, g5; rewrite !length_take; lia. }
    pose proof (yellows_loop (lower guess) (fst (greens_of a5 g5 ∅)) 0 []
                  (snd (greens_of a5 g5 ∅))) as E2.
    rewrite Hl, drop_0, !app_nil_l in E2. fold g5 in E2.
    rewrite E2 by (simpl; lia). simpl.
    by destruct (yellows_of _ _ _).
  - rewrite greens_loop_raises; [done|].
    destruct (decide (5 ≤ length (lower answer))%nat) as [Ha|Ha].
    + exists (length (lower guess)). split; [lia|]. right.
      by apply lookup_ge_None_2.
    + exists (length (lower answer)). split; [lia|]. left.
      by apply lookup_ge_None_2.
Qed.

Lemma remaining_get_insert R k v x :
  remaining_get (<[k := v]> R) x = if decide (x = k) then v else remaining_get R x.
Proof.
  unfold remaining_get. destruct (decide (x = k)) as [->|Hne].
  - by rewrite lookup_insert_eq.
  - by rewrite lookup_insert_ne.
Qed.

(** The first pass: where the letters agree, and what is counted. *)
Lemma greens_of_spec answer : ∀ guess R,
  length answer = length guess →
  let row := fst (greens_of answer guess R) in
  let R1 := snd (greens_of answer guess R) in
  Forall (fun e => e ≠ EMOJI_YELLOW) row
  ∧ (∀ i, row !! i = Some EMOJI_GREEN ↔
          (i < length answer)%nat ∧ guess !! i = answer !! i)
  ∧ ∀ x, ∃ both na ng : nat,
      occurrences x answer = (both + na)%nat
      ∧ occurrences x guess = (both + ng)%nat
      ∧ green_on x guess row = both
      ∧ other_on x guess row = ng
      ∧ remaining_get R1 x = remaining_get R x + Z.of_nat na.
Proof.
  induction answer as [|a answer IH]; intros [|g guess] R Hl; simpl in Hl; try done.
  { simpl. split; [constructor|]. split.
    - intros i. rewrite lookup_nil. split; [done|]. intros [? _]. lia.
    - intros x. exists 0%nat, 0%nat, 0%nat.
      unfold occurrences, green_on, other_on. simpl.
      repeat split; try done. lia. }
  injection Hl as Hl. cbn [greens_of].
  destruct (decide (g = a)) as [->|Hne].
  - specialize (IH guess R Hl).
    destruct (greens_of answer guess R) as [row R1]. simpl in IH |- *.
    destruct IH as (Hy & Hg & Hc).
    split; [by constructor|]. split.
    + intros [|i]; simpl.
      * split; [intros _; split; [lia|done]|done].
      * rewrite Hg. split; intros [? ?]; (split; [lia|done]).
    + intros x. destruct (Hc x) as (both & na & ng & O1 & O2 & G & N & Rx).
      unfold occurrences, green_on, other_on in *. cbn [zip_with].
      destruct (decide (a = x)) as [->|Hax].
      * exists (S both), na, ng.
        rewrite !filter_cons_True by done.
        rewrite filter_cons_False by (simpl; intros [_ ?]; done).
        simpl length. unfold green_on, other_on in *. rewrite O1, O2, G, N. done.
      * exists both, na, ng.
        rewrite !filter_cons_False by (simpl; try intros [? _]; done).
        done.
  - specialize (IH guess (<[a := remaining_get R a + 1]> R) Hl).
    destruct (greens_of answer guess _) as [row R1]. simpl in IH |- *.
    destruct IH as (Hy & Hg & Hc).
    split; [by constructor|]. split.
    + intros [|i]; simpl.
      * split; [done|]. intros [_ [= ?]]. done.
      * rewrite Hg. split; intros [? ?]; (split; [lia|done]).
    + intros x. destruct (Hc x) as (both & na & ng & O1 & O2 & G & N & Rx).
      rewrite remaining_get_insert in Rx.
      unfold occurrences, green_on, other_on in *. cbn [zip_with].
      destruct (decide (a = x)) as [->|Hax]; destruct (decide (g = x)) as [->|Hgx].
      * congruence.
      * exists both, (S na), ng.
        rewrite (filter_cons_True _ x) by done.
        rewrite !filter_cons_False by (simpl; try intros [? _]; done).
        rewrite decide_True in Rx by done.
        simpl length. rewrite O1, O2, G, N. repeat split; try done; lia.
      * exists both, na, (S ng).
        rewrite (filter_cons_True _ x) by done.
        rewrite (filter_cons_False _ a) by done.
        rewrite filter_cons_False by (simpl; intros [_ ?]; done).
        rewrite filter_cons_True by done.
        rewrite decide_False in Rx by done.
        simpl length. rewrite O1, O2, G, N. repeat split; try done; lia.
      * exists both, na, ng.
        rewrite !filter_cons_False by (simpl; try intros [? _]; done).
        rewrite decide_False in Rx by done.
        done.
Qed.

(** The second pass: the greens stay, and of the other occurrences of
    a letter in the guess as many turn yellow as the counter allows. *)
Lemma yellows_of_spec guess : ∀ row R,
  length guess = length row →
  (∀ x, 0 ≤ remaining_get R x) →
  Forall (fun e => e ≠ EMOJI_YELLOW) row →
  let row2 := fst (yellows_of guess row R) in
  (∀ i, row2 !! i = Some EMOJI_GREEN ↔ row !! i = Some EMOJI_GREEN)
  ∧ ∀ x, Z.of_nat (marked x guess row2) =
           Z.of_nat (green_on x guess row)
           + Z.min (remaining_get R x) (Z.of_nat (other_on x guess row)).
Proof.
  induction guess as [|g guess IH]; intros [|e row] R Hl HR Hy; simpl in Hl; try done.
  { simpl. split; [done|]. intros x. unfold marked, green_on, other_on. simpl.
    specialize (HR x). lia. }
  injection Hl as Hl. apply Forall_cons in Hy as [Hy0 Hy].
  cbn [yellows_of]. unfold marked, green_on, other_on in *.
  destruct (decide (e = EMOJI_GREEN)) as [->|Hne].
  - specialize (IH row R Hl HR Hy).
    destruct (yellows_of guess row R) as [row2 R2]. simpl in IH |- *.
    destruct IH as [Hg Hc]. split.
    + intros [|i]; simpl; [done|apply Hg].
    + intros x. specialize (Hc x).
      destruct (decide (g = x)) as [Hgx|Hgx].
      * rewrite !filter_cons_True by done.
        rewrite filter_cons_False by (simpl; intros [_ ?]; done).
        simpl length. lia.
      * rewrite !filter_cons_False by (simpl; intros [? _]; done).
        done.
  - assert (e = EMOJI_RED) as -> by (by destruct e).
    destruct (bool_decide_reflect (0 < remaining_get R g)) as [Hpos|Hzero].
    + specialize (IH row (<[g := remaining_get R g - 1]> R) Hl).
      destruct (yellows_of guess row _) as [row2 R2]. simpl in IH |- *.
      destruct IH as [Hg Hc]; [|done|].
      { intros x. rewrite remaining_get_insert.
        destruct (decide (x = g)); [lia|apply HR]. }
      split.
      * intros [|i]; simpl; [done|apply Hg].
      * intros x. specialize (Hc x). rewrite remaining_get_insert in Hc.
        destruct (decide (g = x)) as [Hgx|Hgx].
        -- rewrite filter_cons_True by done.
           rewrite filter_cons_False by (simpl; intros [_ ?]; done).
           rewrite filter_cons_True by done.
           rewrite decide_True in Hc by done. subst x.
           simpl length. lia.
        -- rewrite !filter_cons_False by (simpl; intros [? _]; done).
           rewrite decide_False in Hc by done. done.
    + specialize (IH row R Hl HR Hy).
      destruct (yellows_of guess row R) as [row2 R2]. simpl in IH |- *.
      destruct IH as [Hg Hc]. split.
      * intros [|i]; simpl; [done|apply Hg].
      * intros x. specialize (Hc x).
        destruct (decide (g = x)) as [Hgx|Hgx].
        -- rewrite filter_cons_False by (simpl; intros [_ ?]; done).
           rewrite filter_cons_False by (simpl; intros [_ ?]; done).
           rewrite filter_cons_True by done.
           subst x. specialize (HR g). simpl length. lia.
        -- rewrite !filter_cons_False by (simpl; intros [? _]; done).
           done.
Qed.

Lemma remaining_get_empty (x : char) : remaining_get ∅ x = 0.
Proof. unfold remaining_get. by rewrite lookup_empty. Qed.

Lemma marked_take x guess row :
  marked x (take (length row) guess) row = marked x guess row.
Proof.
  unfold marked. f_equal. f_equal.
  revert guess. induction row as [|e row IH]; intros [|g guess]; simpl; try done.
  by rewrite IH.
Qed.

Lemma filter_all {A} (P : A → Prop) `{∀ x, Decision (P x)} (l : list A) :
  length (filter P l) = length l ↔ Forall P l.
Proof.
  induction l as [|x l IH].
  - split; [constructor|done].
  - pose proof (length_filter P l) as Hle.
    rewrite filter_cons. destruct (decide (P x)) as [Hx|Hx]; simpl.
    + rewrite Forall_cons. split.
      * intros [= E]. split; [done|by apply IH].
      * intros [_ E]. f_equal. by apply IH.
    + split; [lia|]. intros [? _]%Forall_cons. done.
Qed.

(** X26. [_evaluate_guess] raises IndexError exactly when the answer
    or the guess, once lowered, has fewer than five letters; otherwise
    it returns a row. *)
Theorem _evaluate_guess_index_error lower answer guess :
  _evaluate_guess lower answer guess = None
  ↔ (length (lower answer) < 5 ∨ length (lower guess) < 5)%nat.
Proof.
  rewrite _evaluate_guess_eq.
  destruct (decide _) as [[Ha Hg]|Hshort]; simpl.
  - split; [done|lia].
  - split; [lia|done].
Qed.

(** X27. The row has five marks; a position is green exactly when the
    lowered guess and answer hold the same letter there, so the row
    counts five greens exactly when they agree on the first five
    positions. *)
Theorem _evaluate_guess_greens lower answer guess row :
  _evaluate_guess lower answer guess = Some row →
  length row = 5%nat
  ∧ (∀ i, (i < 5)%nat →
       (row !! i = Some EMOJI_GREEN ↔ lower guess !! i = lower answer !! i))
  ∧ (_count_greens row = 5%nat
     ↔ ∀ i, (i < 5)%nat → lower guess !! i = lower answer !! i).
Proof.
  rewrite _evaluate_guess_eq.
  destruct (decide _) as [[Ha Hg]|Hshort]; [|done].
  cbv zeta. intros [= <-].
  set (a5 := take 5 (lower answer)). set (g5 := take 5 (lower guess)).
  assert (length a5 = 5%nat) as La by (unfold a5; rewrite length_take; lia).
  assert (length g5 = 5%nat) as Lg by (unfold g5; rewrite length_take; lia).
  destruct (greens_of_spec a5 g5 ∅) as (Hy & Hgreen & _); [lia|].
  pose proof (greens_of_length a5 g5 ∅ ltac:(lia)) as L1.
  destruct (yellows_of_spec g5 (fst (greens_of a5 g5 ∅)) (snd (greens_of a5 g5 ∅)))
    as (Hkeep & _); [lia| |done|].
  { intros x. destruct (greens_of_spec a5 g5 ∅ ltac:(lia)) as (_ & _ & Hc).
    destruct (Hc x) as (? & na & ? & _ & _ & _ & _ & ->).
    rewrite remaining_get_empty. lia. }
  pose proof (yellows_of_length g5 (fst (greens_of a5 g5 ∅))
                (snd (greens_of a5 g5 ∅)) ltac:(lia)) as L2.
  set (row := fst (yellows_of g5 _ _)) in *.
  assert (∀ i, (i < 5)%nat →
    (row !! i = Some EMOJI_GREEN ↔ lower guess !! i = lower answer !! i)) as Hpos.
  { intros i Hi. rewrite Hkeep, Hgreen, La. unfold a5, g5.
    rewrite !lookup_take_lt by lia. split; [by intros [_ ?]|]. by split. }
  split; [lia|]. split; [done|].
  unfold _count_greens.
  replace 5%nat with (length row) at 1 by lia.
  rewrite filter_all, Forall_lookup. split.
  - intros Hall i Hi. apply Hpos; [done|].
    destruct (lookup_lt_is_Some_2 row i) as [e He]; [lia|].
    by rewrite He, (Hall i e He).
  - intros Hall i e He.
    assert (i < 5)%nat as Hi by (apply lookup_lt_Some in He; lia).
    specialize (Hall i Hi). apply (Hpos i Hi) in Hall. congruence.
Qed.

(** X28. Duplicate letters: of the occurrences of a letter in the
    first five letters of the guess, as many are marked green or yellow
    as the letter has occurrences in the first five letters of the
    answer, or all of them when the answer has more.  So a letter that
    the answer does not hold is red wherever the guess has it. *)
Theorem _evaluate_guess_counts lower answer guess row x :
  _evaluate_guess lower answer guess = Some row →
  marked x (lower guess) row =
    (occurrences x (take 5 (lower guess)) `min`
     occurrences x (take 5 (lower answer)))%nat.
Proof.
  rewrite _evaluate_guess_eq.
  destruct (decide _) as [[Ha Hg]|Hshort]; [|done].
  cbv zeta. intros [= <-].
  set (a5 := take 5 (lower answer)). set (g5 := take 5 (lower guess)).
  assert (length a5 = 5%nat) as La by (unfold a5; rewrite length_take; lia).
  assert (length g5 = 5%nat) as Lg by (unfold g5; rewrite length_take; lia).
  destruct (greens_of_spec a5 g5 ∅) as (Hy & _ & Hc); [lia|].
  pose proof (greens_of_length a5 g5 ∅ ltac:(lia)) as L1.
  destruct (yellows_of_spec g5 (fst (greens_of a5 g5 ∅)) (snd (greens_of a5 g5 ∅)))
    as (_ & Hm); [lia| |done|].
  { intros y. destruct (Hc y) as (? & na & ? & _ & _ & _ & _ & ->).
    rewrite remaining_get_empty. lia. }
  pose proof (yellows_of_length g5 (fst (greens_of a5 g5 ∅))
                (snd (greens_of a5 g5 ∅)) ltac:(lia)) as L2.
  specialize (Hm x).
  destruct (Hc x) as (both & na & ng & O1 & O2 & G & N & Rx).
  rewrite remaining_get_empty in Rx.
  set (row := fst (yellows_of g5 _ _)) in *.
  rewrite <- (marked_take x (lower guess) row).
  replace (length row) with 5%nat by lia. fold g5.
  unfold green_on, other_on in *. rewrite O1, O2. rewrite G, N, Rx in Hm. lia.
Qed.

End Evaluate.

End WordleFacts.

(** * More statements on sample states *)

Module MoreExamples.
Import Database EconomyRepository GamesRepository LeaderboardPublisher.
Import Scope EconomyService Cooldowns Wordle LeaderboardRepository.
Import SessionMore GameSessions ServiceFacts CooldownFacts DebounceFacts
  WordleFacts RankFacts.

Lemma ended_and_active_ready :
  healthy Samples.ended_and_active ∧ idle Samples.ended_and_active.
Proof. split; [constructor|reflexivity]. Defined.

Lemma one_ended_idle : healthy Samples.one_ended ∧ idle Samples.one_ended.
Proof. split; [constructor|reflexivity]. Defined.

Lemma ended_is_not_active : "ended"%string ≠ "active"%string.
Proof. discriminate. Defined.

(** The one active session of the thread is ended; the count is 1. *)
Lemma end_active_in_location_ends_scope_witness :
  (healthy Samples.ended_and_active ∧ idle Samples.ended_and_active)
  ∧ fst (end_active_in_location "2024-01-01 00:10:00" "discord" "chan-1"
           (Some "th-9"%string) "wordle" "ended" Samples.ended_and_active)
    = Ok 1%nat.
Proof.
  split; [exact ended_and_active_ready|].
  destruct ended_and_active_ready as [H1 H2].
  destruct (end_active_in_location_ends_scope Samples.ended_and_active
              "2024-01-01 00:10:00" "discord" "chan-1" (Some "th-9"%string)
              "wordle" "ended" H1 H2 ended_is_not_active) as (c' & E & _).
  rewrite E. reflexivity.
Defined.

Lemma one_ended_none_active r :
  r ∈ active_game_sessions (disk Samples.one_ended) →
  ¬ active_in_scope "discord" "chan-1" None "wordle" r.
Proof.
  intros Hr (_ & _ & _ & _ & Hs). simpl in Hr.
  apply list_elem_of_singleton in Hr. subst r. discriminate.
Defined.

Lemma end_active_in_location_nothing_to_end_witness :
  (healthy Samples.one_ended ∧ idle Samples.one_ended)
  ∧ fst (end_active_in_location "2024-01-01 00:10:00" "discord" "chan-1"
           None "wordle" "ended" Samples.one_ended) = Ok 0%nat.
Proof.
  split; [exact one_ended_idle|].
  destruct one_ended_idle as [H1 H2].
  destruct (end_active_in_location_nothing_to_end Samples.one_ended
              "2024-01-01 00:10:00" "discord" "chan-1" None "wordle" "ended"
              H1 H2 one_ended_none_active) as (c' & E & _).
  rewrite E. reflexivity.
Defined.

Lemma one_ended_other_id r :
  r ∈ active_game_sessions (view Samples.one_ended) → s_id r ≠ "s7"%string.
Proof.
  intros Hr. simpl in Hr. apply list_elem_of_singleton in Hr. subst r.
  discriminate.
Defined.

Lemma end_session_unknown_id_witness :
  healthy Samples.one_ended
  ∧ ∃ c', end_session "2024-01-01 00:10:00" "s7" "ended" Samples.one_ended
            = (Ok tt, c')
          ∧ disk c' = disk Samples.one_ended.
Proof.
  destruct one_ended_idle as [H1 _]. split; [exact H1|].
  destruct (end_session_unknown_id Samples.one_ended "2024-01-01 00:10:00"
              "s7" "ended" H1 one_ended_other_id) as (c' & E & D & _).
  exists c'. split; [exact E|exact D].
Defined.

Lemma end_session_of_active_witness :
  (healthy Samples.ended_and_active
   ∧ active_rows "discord" "chan-1" (Some "th-9"%string) "wordle"
       (view Samples.ended_and_active) = [Samples.thread_row])
  ∧ ∃ c1 c2,
      fst (get_active_session "discord" "chan-1" (Some "th-9"%string) "wordle"
             Samples.ended_and_active) = Ok (Some (session_of_row Samples.thread_row))
      ∧ snd (get_active_session "discord" "chan-1" (Some "th-9"%string) "wordle"
               Samples.ended_and_active) = c1
      ∧ end_session "2024-01-01 00:10:00" "s2" "ended" c1 = (Ok tt, c2)
      ∧ fst (get_active_session "discord" "chan-1" (Some "th-9"%string) "wordle" c2)
        = Ok None.
Proof.
  destruct ended_and_active_ready as [H1 _].
  assert (H3 : active_rows "discord" "chan-1" (Some "th-9"%string) "wordle"
                 (view Samples.ended_and_active) = [Samples.thread_row])
    by reflexivity.
  split; [split; [exact H1|exact H3]|].
  destruct (end_session_of_active Samples.ended_and_active
              "2024-01-01 00:10:00" "discord" "chan-1" (Some "th-9"%string)
              "wordle" "ended" Samples.thread_row H1 ended_is_not_active H3)
    as (c1 & c2 & E1 & E2 & _ & E4).
  exists c1, c2. rewrite E1. repeat split; [exact E2|exact E4].
Defined.



Lemma ended_row_elsewhere :
  scope_of Samples.ended_row
  ≠ ("telegram"%string, "chan-2"%string, Some "th-9"%string, "unscramble"%string).
Proof. discriminate. Defined.

Lemma upsert_does_not_move_witness :
  (healthy Samples.one_ended ∧ pk_ok (view Samples.one_ended))
  ∧ ∃ c',
      upsert_active_session (fun s : string => s) "2024-01-01 00:10:00" "s1"
        "telegram" "chan-2" (Some "th-9"%string) "unscramble" "[]" None
        Samples.one_ended = (Ok tt, c')
      ∧ fst (get_active_session "telegram" "chan-2" (Some "th-9"%string)
               "unscramble" c') = Ok None.
Proof.
  split; [exact SessionFacts.one_ended_ready|].
  destruct SessionFacts.one_ended_ready as [H1 H2].
  destruct (upsert_does_not_move (fun s : string => s) Samples.one_ended
              0%nat Samples.ended_row "2024-01-01 00:10:00" "s1" "telegram"
              "chan-2" (Some "th-9"%string) "unscramble" "[]" None
              H1 H2 eq_refl eq_refl ended_row_elsewhere eq_refl)
    as (c' & E & _ & G & _).
  exists c'. split; [exact E|exact G].
Defined.

Lemma one_ended_no_uuid r :
  r ∈ active_game_sessions (disk Samples.one_ended) → s_id r ≠ "u-1"%string.
Proof.
  intros Hr. simpl in Hr. apply list_elem_of_singleton in Hr. subst r.
  discriminate.
Defined.

Lemma word_chain_start_is_hard_reset_witness :
  (healthy Samples.one_ended ∧ idle Samples.one_ended)
  ∧ fst (WordChainGame.start_in_channel MoreSamples.dumps "2024-01-01 00:10:00"
           "2024-01-01 00:10:01" "u-1" 42 99 Samples.one_ended) = Ok "u-1"%string.
Proof.
  split; [exact one_ended_idle|].
  destruct one_ended_idle as [H1 H2].
  destruct (word_chain_start_is_hard_reset MoreSamples.dumps MoreSamples.loads
              Samples.one_ended "2024-01-01 00:10:00" "2024-01-01 00:10:01"
              "u-1" 42 99 H1 H2 one_ended_no_uuid) as (c' & r & E & _).
  rewrite E. reflexivity.
Defined.

Lemma word_chain_stop_after_start_witness :
  (healthy Samples.one_ended ∧ idle Samples.one_ended)
  ∧ ∃ c1,
      WordChainGame.start_in_channel MoreSamples.dumps "2024-01-01 00:10:00"
        "2024-01-01 00:10:01" "u-1" 42 99 Samples.one_ended = (Ok "u-1"%string, c1)
      ∧ fst (WordChainGame.stop_in_channel "2024-01-01 00:20:00" 42 c1) = Ok 1%nat.
Proof.
  split; [exact one_ended_idle|].
  destruct one_ended_idle as [H1 H2].
  destruct (word_chain_stop_after_start MoreSamples.dumps MoreSamples.loads
              Samples.one_ended "2024-01-01 00:10:00" "2024-01-01 00:10:01"
              "2024-01-01 00:20:00" "2024-01-01 00:30:00" "u-1" 42 99
              H1 H2 one_ended_no_uuid) as (c1 & c2 & E1 & E2 & _).
  exists c1. split; [exact E1|]. rewrite E2. reflexivity.
Defined.

Lemma one_ended_no_restart_name r :
  r ∈ active_game_sessions (disk Samples.one_ended) →
  s_id r ≠ "wordle:42:2024-01-01:r1704067800"%string.
Proof.
  intros Hr. simpl in Hr. apply list_elem_of_singleton in Hr. subst r.
  discriminate.
Defined.

Lemma wordle_restart_in_channel_new_session_witness :
  (healthy Samples.one_ended ∧ idle Samples.one_ended)
  ∧ fst (WordleGame.restart_in_channel MoreSamples.dumps "2024-01-01 00:10:00"
           "2024-01-01 00:10:01" "2024-01-01" "apple" 1704067800 42
           Samples.one_ended)
    = Ok "wordle:42:2024-01-01:r1704067800"%string.
Proof.
  split; [exact one_ended_idle|].
  destruct one_ended_idle as [H1 H2].
  destruct (wordle_restart_in_channel_new_session MoreSamples.dumps
              Samples.one_ended "2024-01-01 00:10:00" "2024-01-01 00:10:01"
              "2024-01-01" "apple" 1704067800 42 H1 H2 one_ended_no_restart_name)
    as (c' & r & E & _).
  rewrite E. reflexivity.
Defined.



Lemma one_ended_no_wordle_name r :
  r ∈ active_game_sessions (disk Samples.one_ended) →
  s_id r = "wordle:42:2024-01-01"%string →
  scope_of r = ("discord"%string, str 42, None, "wordle"%string).
Proof.
  intros Hr. simpl in Hr. apply list_elem_of_singleton in Hr. subst r.
  discriminate.
Defined.

Lemma wordle_start_in_channel_one_session_witness :
  (healthy Samples.one_ended ∧ idle Samples.one_ended)
  ∧ fst (WordleGame.start_in_channel MoreSamples.dumps "2024-01-01 00:10:00"
           "2024-01-01 00:10:01" "2024-01-01" "apple" 42 Samples.one_ended)
    = Ok "wordle:42:2024-01-01"%string.
Proof.
  split; [exact one_ended_idle|].
  destruct one_ended_idle as [H1 H2].
  destruct (wordle_start_in_channel_one_session MoreSamples.dumps
              Samples.one_ended "2024-01-01 00:10:00" "2024-01-01 00:10:01"
              "2024-01-01 00:20:00" "2024-01-01 00:20:01" "2024-01-01"
              "apple" "poppy" 42 H1 H2 one_ended_no_wordle_name)
    as (c1 & c2 & r1 & r2 & E & _).
  rewrite E. reflexivity.
Defined.

Lemma wordle_stop_in_channel_witness :
  (healthy Samples.one_ended ∧ idle Samples.one_ended)
  ∧ ∃ c', WordleGame.stop_in_channel "2024-01-01 00:10:00" 42 Samples.one_ended
            = (Ok false, c')
          ∧ disk c' = disk Samples.one_ended.
Proof.
  split; [exact one_ended_idle|].
  destruct one_ended_idle as [H1 H2].
  destruct (wordle_stop_in_channel Samples.one_ended "2024-01-01 00:10:00" 42
              H1 H2) as (c' & E & _ & D).
  exists c'. split; [|exact (D eq_refl)].
  rewrite E. f_equal.
Defined.

Lemma one_ended_no_unscramble_name r :
  r ∈ active_game_sessions (view Samples.one_ended) →
  s_id r = "unscramble:42"%string →
  scope_of r = ("discord"%string, str 42, None, "unscramble"%string).
Proof.
  intros Hr. simpl in Hr. apply list_elem_of_singleton in Hr. subst r.
  discriminate.
Defined.

Lemma unscramble_get_or_create_session_witness :
  healthy Samples.one_ended
  ∧ ∃ res c',
      UnscrambleGame._get_or_create_session MoreSamples.dumps MoreSamples.loads
        "2024-01-01 00:10:00" 42 Samples.one_ended = (Ok (Some res), c').
Proof.
  destruct one_ended_idle as [H1 _]. split; [exact H1|].
  destruct (unscramble_get_or_create_session MoreSamples.dumps MoreSamples.loads
              Samples.one_ended "2024-01-01 00:10:00" 42 H1
              one_ended_no_unscramble_name) as (res & c' & E & _).
  exists res, c'. exact E.
Defined.




Lemma award_beans_discord_zero_witness :
  (healthy Samples.steady ∧ idle Samples.steady ∧ 7 ∈ users (disk Samples.steady))
  ∧ ∃ s', award_beans_discord MoreSamples.always_seven "2024-01-01 00:00:00" 1001
            0 "nothing" None None None MoreSamples.service_attached = (Ok 0, s')
          ∧ _publisher s' = _publisher MoreSamples.service_attached.
Proof.
  split; [exact LedgerFacts.steady_ready|].
  destruct LedgerFacts.steady_ready as (H1 & H2 & H3).
  destruct (award_beans_discord_zero MoreSamples.always_seven
              "2024-01-01 00:00:00" 1001 "nothing" None None None
              MoreSamples.service_attached 7 Samples.steady eq_refl H1 H2 H3)
    as (s' & E & P & _).
  exists s'. split; [exact E|exact P].
Defined.


Lemma eight_is_unknown : 8 ∉ users (disk Samples.steady).
Proof.
  change (8 ∉ ({[7]} : gset Z)). intros H%elem_of_singleton. discriminate.
Defined.

Lemma eight_can_be_bound : int64 8.
Proof. unfold int64. lia. Defined.

Lemma get_balance_failure_blocks_next_transaction_witness :
  (healthy Samples.steady ∧ idle Samples.steady ∧ 7 ∈ users (disk Samples.steady))
  ∧ (int64 5 ∧ integer_balance 7 (disk Samples.steady)
     ∧ int64 (balance_of 7 (disk Samples.steady) + 5))
  ∧ ∃ c1, get_balance "2024-01-01 00:00:00" 8 Samples.steady
            = (Raise IntegrityError, c1)
          ∧ fst (apply_transaction "2024-01-01 00:00:00" 7 5 "reward" None None c1)
            = Raise OperationalError.
Proof.
  split; [exact LedgerFacts.steady_ready|].
  split; [exact LedgerFacts.steady_fits|].
  destruct LedgerFacts.steady_ready as (H1 & H2 & H3).
  destruct LedgerFacts.steady_fits as (H4 & H5 & H6).
  destruct (get_balance_failure_blocks_next_transaction Samples.steady
              "2024-01-01 00:00:00" 8 7 5 "reward" None None
              H1 H2 eight_can_be_bound eight_is_unknown eq_refl H3 H4 H5 H6)
    as (c1 & c2 & c3 & E1 & _ & _ & E2 & _).
  exists c1. split; [exact E1|].
  rewrite E2. reflexivity.
Defined.

(** Thirty seconds after the cached time, with a cooldown of sixty:
    denied for thirty more seconds, and allowed at time 160. *)
Lemma try_acquire_epoch_denied_witness :
  try_acquire_epoch "daily" (inl 1) (inl 2) 60 (Some 130) 0 MoreSamples.seeded
    = (Ok (false, 30), MoreSamples.seeded)
  ∧ fst (try_acquire_epoch "daily" (inl 1) (inl 2) 60 (Some 160) 0
           MoreSamples.seeded) = Ok (true, 0).
Proof.
  assert (H : try_acquire_epoch "daily" (inl 1) (inl 2) 60 (Some 130) 0
                MoreSamples.seeded = (Ok (false, 30), MoreSamples.seeded))
    by reflexivity.
  split; [exact H|].
  destruct (try_acquire_epoch_denied "daily" (inl 1) (inl 2) 60 130 0
              MoreSamples.seeded 30 MoreSamples.seeded H)
    as (_ & _ & last & Hlast & _ & _ & _ & Hnext).
  rewrite (Hnext 160 0).
  injection Hlast as <-. reflexivity.
Defined.

(** A wait of 2^53 + 1 seconds is announced as 2^53: the float that
    carries it has no room for the last bit. *)
Example retry_after_is_rounded :
  fst (try_acquire_epoch "daily" (inl 1) (inl 2) 9007199254740993 (Some 0) 0
         (seed_epoch "daily" (inl 1) (inl 2) 0 ∅))
  = Ok (false, 9007199254740992).
Proof. vm_compute. reflexivity. Qed.

Lemma gaps_off_the_window :
  Forall (fun g => 0 ≤ g ∧ g ≠ debounce_seconds (Samples.attached Samples.all_well))
         [3; 20; 5].
Proof.
  apply Forall_cons; split; [simpl; lia|].
  apply Forall_cons; split; [simpl; lia|].
  apply Forall_cons; split; [simpl; lia|]. apply Forall_nil_2.
Defined.

Lemma window_not_negative :
  0 ≤ debounce_seconds (Samples.attached Samples.all_well).
Proof. simpl. lia. Defined.

(** Calls at 100, 103, 123 and 128 with a window of 10: the call at 103
    is refreshed at 113, the last one at 138. *)
Lemma schedule_refresh_any_gaps_witness :
  refreshes (advance 500 (calls_at [100; 103; 123; 128]
                            (Samples.attached Samples.all_well)))
    = [113; 138].
Proof.
  destruct (PublisherFacts.attached_ready Samples.all_well) as (H1 & H2 & H3 & H4).
  destruct (schedule_refresh_any_gaps (Samples.attached Samples.all_well)
              100 [3; 20; 5] H1 H2 H3 H4 window_not_negative gaps_off_the_window)
    as (_ & _ & Hfire & _).
  apply (Hfire 500). simpl. lia.
Defined.

Lemma detached_quiet : quiet Samples.detached.
Proof. constructor. Defined.

Lemma schedule_refresh_unattached_witness :
  refreshes (advance 500 (calls_at [100; 103] Samples.detached)) = [].
Proof.
  exact (proj1 (schedule_refresh_unattached Samples.detached [100; 103] 500
                  (or_introl eq_refl) detached_quiet)).
Defined.

Lemma poppy_against_apple :
  _evaluate_guess (fun w : list nat => w) MoreSamples.apple MoreSamples.poppy
    = Some MoreSamples.poppy_row.
Proof. reflexivity. Defined.

Lemma _evaluate_guess_greens_witness :
  _evaluate_guess (fun w : list nat => w) MoreSamples.apple MoreSamples.poppy
    = Some MoreSamples.poppy_row
  ∧ (MoreSamples.poppy_row !! 2%nat = Some EMOJI_GREEN
     ↔ MoreSamples.poppy !! 2%nat = MoreSamples.apple !! 2%nat).
Proof.
  split; [exact poppy_against_apple|].
  destruct (_evaluate_guess_greens (fun w : list nat => w) MoreSamples.apple
              MoreSamples.poppy MoreSamples.poppy_row poppy_against_apple)
    as (_ & Hpos & _).
  apply (Hpos 2%nat). lia.
Defined.

(** The guess has three p, the answer two: two of the three are marked. *)
Lemma _evaluate_guess_counts_witness :
  _evaluate_guess (fun w : list nat => w) MoreSamples.apple MoreSamples.poppy
    = Some MoreSamples.poppy_row
  ∧ marked 112%nat MoreSamples.poppy MoreSamples.poppy_row = 2%nat.
Proof.
  split; [exact poppy_against_apple|].
  rewrite (_evaluate_guess_counts (fun w : list nat => w) MoreSamples.apple
             MoreSamples.poppy MoreSamples.poppy_row 112%nat poppy_against_apple).
  reflexivity.
Defined.

Lemma ranked_ready :
  healthy MoreSamples.ranked ∧ idle MoreSamples.ranked
  ∧ 7 ∈ users (disk MoreSamples.ranked).
Proof.
  split; [constructor|]. split; [reflexivity|].
  change (7 ∈ ({[7; 8]} : gset Z)).
  apply elem_of_union_l, elem_of_singleton. reflexivity.
Defined.

(** User 8 holds more than user 7: rank 1 and rank 2. *)
Lemma get_user_rank_orders_by_balance_witness :
  healthy MoreSamples.ranked
  ∧ ∃ x y,
      fst (get_user_rank 8 MoreSamples.ranked) = Ok (Some x)
      ∧ fst (get_user_rank 7 MoreSamples.ranked) = Ok (Some y)
      ∧ rank x < rank y.
Proof.
  destruct ranked_ready as (H1 & _ & _). split; [exact H1|].
  destruct (get_user_rank_orders_by_balance MoreSamples.ranked 8 7 H1)
    as (ru & rv & E1 & E2 & _ & Hord).
  assert (E1' : fst (get_user_rank 8 MoreSamples.ranked)
                = Ok (Some (UserRank 8 9 1))) by reflexivity.
  assert (E2' : fst (get_user_rank 7 MoreSamples.ranked)
                = Ok (Some (UserRank 7 5 2))) by reflexivity.
  exists (UserRank 8 9 1), (UserRank 7 5 2).
  split; [exact E1'|]. split; [exact E2'|].
  rewrite E1' in E1. rewrite E2' in E2.
  injection E1 as <-. injection E2 as <-.
  destruct (Hord _ _ eq_refl eq_refl) as (_ & _ & _ & _ & Hlt).
  apply Hlt. simpl. lia.
Defined.

Lemma eight_is_not_seven : 8 ≠ 7.
Proof. discriminate. Defined.

Lemma ten_not_negative : 0 ≤ 10.
Proof. lia. Defined.

Lemma ten_more_fits : int64 10 ∧ int64 (5 + 10).
Proof. unfold int64. lia. Defined.

(** User 7 is credited 10 beans and overtakes user 8. *)
Lemma apply_transaction_credit_rank_witness :
  (healthy MoreSamples.ranked ∧ idle MoreSamples.ranked
   ∧ 7 ∈ users (disk MoreSamples.ranked))
  ∧ (int64 10 ∧ int64 (5 + 10))
  ∧ ∃ ru ru',
      fst (get_user_rank 7 MoreSamples.ranked) = Ok (Some ru)
      ∧ fst (get_user_rank 7
               (snd (apply_transaction "2024-01-02 00:00:00" 7 10 "reward" None
                       None MoreSamples.ranked))) = Ok (Some ru')
      ∧ rank_balance ru' = rank_balance ru + 10
      ∧ rank ru' ≤ rank ru.
Proof.
  split; [exact ranked_ready|]. split; [exact ten_more_fits|].
  destruct ranked_ready as (H1 & H2 & H3).
  destruct ten_more_fits as (H4 & H5).
  destruct (apply_transaction_credit_rank MoreSamples.ranked
              "2024-01-02 00:00:00" 7 10 "reward" None None
              (BeanAccount 5 false "2024-01-01 00:00:00" "2024-01-01 00:00:00") 8
              (BeanAccount 9 false "2024-01-01 00:00:00" "2024-01-01 00:00:00")
              H1 H2 H3 ten_not_negative eq_refl eq_refl eight_is_not_seven
              H4 eq_refl H5)
    as (c' & ru & rv & ru' & rv' & E & E1 & _ & E3 & _ & Hb & _ & Hle & _).
  exists ru, ru'. rewrite E. split; [exact E1|]. split; [exact E3|].
  split; [exact Hb|exact Hle].
Defined.

End MoreExamples.
